(** * CALM-VLN: the rollout engine of the navigation agent and its encoder wrapper

    A shallow embedding of [r2r_src/agent.py] (class [Seq2SeqAgent]) and of
    [r2r_src/model_PREVALENT.py] (class [VLNBERT]).

    Conventions.
    - Python exceptions are the constructors of [exn]; a function that can
      raise returns a [result].
    - numpy arrays and Python lists are lists, read with [getitem] (an index
      out of range raises [IndexError]) and written in place with stdpp's
      list insert.
    - Distances, nDTW scores and rewards are [np.float32] in the source. A
      finite float is a rational: the arrays are lists of rationals, a store
      rounds to the nearest float32 ([f32]) and so does every operation on
      float32 scalars. Infinities and nan are not modelled.
    - The transformer, the simulator and the nDTW metric are collaborators
      whose code is not part of the sources: they are the fields of [World].
    - The agent is the one built for [args.vlnbert == 'prevalent'], whose
      network is the [VLNBERT] of [model_PREVALENT.py]. *)

From Stdlib Require Import ZArith QArith Qabs Qpower Qround Reals Psatz.
From stdpp Require Import base list strings gmap.

Set Default Proof Using "Type".

(** ** Python values and exceptions *)

Inductive exn : Type :=
| AssertionError
| NameError (msg : string)
| IndexError
| ValueError
| TypeError
| AttributeError
| ZeroDivisionError.

Inductive result (A : Type) : Type :=
| Ok (a : A)
| Raise (e : exn).
Arguments Ok {A} a.
Arguments Raise {A} e.

#[global] Instance result_ret : MRet result := fun A a => Ok a.

#[global] Instance result_bind : MBind result := fun A B k r =>
  match r with
  | Ok a => k a
  | Raise e => Raise e
  end.

(** [l[i]] for an index that the source produces with [enumerate] or
    [range]: never negative. *)
Definition getitem {A : Type} (l : list A) (i : nat) : result A :=
  match l !! i with
  | Some x => Ok x
  | None => Raise IndexError
  end.

(** [l[z]] for a Python list and an integer that may be negative: Python
    counts a negative index from the end. *)
Definition py_getitem {A : Type} (l : list A) (z : Z) : result A :=
  let n := Z.of_nat (length l) in
  if (0 <=? z)%Z && (z <? n)%Z then getitem l (Z.to_nat z)
  else if (- n <=? z)%Z && (z <? 0)%Z then getitem l (Z.to_nat (n + z))
  else Raise IndexError.

(** ** Data model (the dictionaries of the environment) *)

Record Candidate : Type := mkCandidate {
  c_viewpointId : string;
  c_pointId : Z;
  c_idx : Z
}.

Record Obs : Type := mkObs {
  instr_id : string;
  scan : string;
  viewpoint : string;
  viewIndex : Z;
  heading : Q;
  elevation : Q;
  candidate : list Candidate;
  teacher : string;
  gt_path : list string;
  distance : Q
}.

Definition PathPoint : Type := (string * Q * Q)%type.

(** ** [Seq2SeqAgent._teacher_action] *)

Section TeacherAction.

(** [args.ignoreid], from [param.py]. *)
Variable ignoreid : Z.

(** [for k, candidate in enumerate(ob['candidate']): if ...: break]:
    the index at which the loop breaks, [None] when it runs to its
    [else]. *)
Fixpoint scan_candidates (k : nat) (cands : list Candidate) (target : string)
  : option nat :=
  match cands with
  | [] => None
  | c :: rest =>
      if String.eqb (c_viewpointId c) target then Some k
      else scan_candidates (S k) rest target
  end.

(** The body of the outer loop: the value stored in [a[i]]. *)
Definition teacher_label (ob : Obs) (ended_i : bool) : result Z :=
  if ended_i then Ok ignoreid
  else
    match scan_candidates 0 (candidate ob) (teacher ob) with
    | Some k => Ok (Z.of_nat k)
    | None =>
        if String.eqb (teacher ob) (viewpoint ob)
        then Ok (Z.of_nat (length (candidate ob)))
        else Raise AssertionError
    end.

(** [for i, ob in enumerate(obs)], from index [i] on. The array [a] has
    [len(obs)] entries, so the write [a[i] = ...] is always in range. *)
Fixpoint teacher_loop (i : nat) (obs : list Obs) (ended : list bool)
  (a : list Z) : result (list Z) :=
  match obs with
  | [] => Ok a
  | ob :: rest =>
      e ← getitem ended i;
      v ← teacher_label ob e;
      teacher_loop (S i) rest ended (<[i := v]> a)
  end.

Definition _teacher_action (obs : list Obs) (ended : list bool)
  : result (list Z) :=
  teacher_loop 0 obs ended (replicate (length obs) 0%Z).

End TeacherAction.

(** ** Logits and the tensor operations the agent applies to them *)

(** A logit is a finite score or the [-float('inf')] that [masked_fill_]
    writes. *)
Inductive xlogit : Type :=
| NegInf
| Fin (q : Q).

(** [x < y] on the rationals, as a boolean. *)
Definition Qltb (x y : Q) : bool := negb (Qle_bool y x).

(** [a < b] on logits. *)
Definition xlt (a b : xlogit) : bool :=
  match a, b with
  | _, NegInf => false
  | NegInf, Fin _ => true
  | Fin x, Fin y => Qltb x y
  end.

(** [row.max()] index: the position of the first maximal entry, scanning
    with the best entry so far. *)
Fixpoint argmax_from (best : xlogit) (best_i i : nat) (row : list xlogit) : nat :=
  match row with
  | [] => best_i
  | x :: rest =>
      if xlt best x then argmax_from x i (S i) rest
      else argmax_from best best_i (S i) rest
  end.

Definition argmax (row : list xlogit) : result nat :=
  match row with
  | [] => Raise IndexError
  | x :: rest => Ok (argmax_from x 0 1 rest)
  end.

(** [_, a_t = logit.max(1)] *)
Definition max_dim1 (logit : list (list xlogit)) : result (list Z) :=
  mapM (fun row => k ← argmax row; mret (Z.of_nat k)) logit.

(** [max(candidate_leng)]: Python raises [ValueError] on an empty list. *)
Definition py_max (l : list nat) : result nat :=
  match l with
  | [] => Raise ValueError
  | x :: rest => Ok (foldr Nat.max x rest)
  end.

(** Modelled from the spec: [utils.length2mask] is not among the sources.
    The spec has the mask "marking indices [>= k] invalid" for a candidate
    count [k]; its width is the largest count of the batch. *)
Definition length2mask (length_ : list nat) : result (list (list bool)) :=
  size ← py_max length_;
  mret ((fun k => (fun j => bool_decide (k <= j)) <$> seq 0 size) <$> length_).

(** Broadcasting of one dimension of a tensor to [n]: a dimension of size
    1 is repeated, any other size must already be [n]. *)
Definition broadcast {A : Type} (n : nat) (l : list A) : result (list A) :=
  if bool_decide (length l = n) then Ok l
  else match l with
       | [x] => Ok (replicate n x)
       | _ => Raise ValueError
       end.

Definition fill_row (row : list xlogit) (mask_row : list bool) : list xlogit :=
  zip_with (fun x (m : bool) => if m then NegInf else x) row mask_row.

(** [logit.masked_fill_(mask, -float('inf'))]: the mask is broadcast to the
    shape of [logit]. *)
Definition masked_fill_ (logit : list (list xlogit)) (mask : list (list bool))
  : result (list (list xlogit)) :=
  rows ← broadcast (length logit) mask;
  mapM (fun '(row, mask_row) =>
          m ← broadcast (length row) mask_row;
          mret (fill_row row m))
       (zip logit rows).

(** ** The collaborators

    Everything the two source files call but do not define: the simulator
    behind [self.env], the transformer behind [VLNBERT.vln_bert], the critic
    network, the nDTW metric and the tokenizer's sort. Each is a function of
    what the source passes to it; the networks also see the training flags
    of the sub-modules and the number of the forward pass, so that a pass
    under dropout may differ from the next one. *)

(** One entry of [self.modules()]: whether it is an [nn.Dropout] and its
    [training] flag. *)
Record Module : Type := mkModule {
  is_dropout : bool;
  training : bool
}.

Record World : Type := mkWorld {
  Hidden : Type;                      (* the state vector h_t *)
  LangFeat : Type;                    (* encoded instruction features *)
  Aux : Type;                         (* third output of the visual mode *)
  Score : Type;                       (* a confidence, as a float *)
  Sim : Type;                         (* simulator state *)
  env_reset : Sim -> Sim * list Obs;
  env_get_obs : Sim -> list Obs;
  (** the camera alignment and the move of [make_equiv_action] for
      simulator [idx], with its assertion; yields the simulator's new
      [(viewpointId, heading, elevation)] *)
  sim_move : Sim -> nat -> Obs -> Candidate -> result (Sim * PathPoint);
  (** [perm_idx] of [_sort_batch] *)
  sort_batch : list Obs -> result (list nat);
  ndtw : string -> list string -> list string -> Q;
  bert_language : list Module -> nat -> list Obs -> Hidden * LangFeat;
  bert_visual : list Module -> nat -> Hidden -> LangFeat -> list Obs
                -> Hidden * list (list xlogit) * Aux;
  cat_state : Hidden -> LangFeat -> LangFeat;
  critic_net : Hidden -> list Q;
  (** [calculate_confidence] on the stacked logits, as floats; its
      real-valued definition is [calculate_confidence] below *)
  confidence_of : list (list (list xlogit)) -> list Score;
  (** [args.ignoreid] and [args.normalize_loss], from [param.py] *)
  args_ignoreid : Z;
  args_normalize_loss : string;
  (** The installed numpy: an operation of a float32 scalar with a Python
      float stays in float32 from NumPy 2 on (NEP 50) and is carried out
      in float64 before. *)
  numpy_weak_promotion : bool
}.

(** ** [model_PREVALENT.VLNBERT] *)

(** The attributes of a [VLNBERT] instance that its methods read or write. *)
Record VLNBERT : Type := mkVLNBERT {
  modules : list Module;              (* self.modules(), in traversal order *)
  mc_dropout_samples : nat;
  mc_dropout : bool
}.

(** One executed forward pass, as observed from outside: its mode tag,
    whether gradients were being tracked and whether some dropout layer
    was in training mode. *)
Record Pass : Type := mkPass {
  p_mode : string;
  p_grad : bool;
  p_stochastic : bool
}.

(** The network together with the process-wide state of torch. *)
Record Torch : Type := mkTorch {
  net : VLNBERT;
  grad_enabled : bool;
  passes : list Pass                  (* most recent first *)
}.

(** [__init__]: the registered sub-modules around those of the wrapped
    transformer, all in training mode as [nn.Module] creates them. *)
Definition VLNBERT_init (inner : list Module) : VLNBERT :=
  let plain := mkModule false true in
  {| modules :=
       plain :: inner ++
       [plain; plain; plain;          (* action_state_project: Sequential, Linear, Tanh *)
        plain;                        (* action_LayerNorm *)
        mkModule true true;           (* drop_env *)
        plain; plain; plain; plain; plain];
     mc_dropout_samples := 10;
     mc_dropout := false |}.

(** [nn.Module.train(mode)] on the whole network; [eval()] is [train(False)]. *)
Definition set_training (mode : bool) (m : VLNBERT) : VLNBERT :=
  {| modules := (fun md => mkModule (is_dropout md) mode) <$> modules m;
     mc_dropout_samples := mc_dropout_samples m;
     mc_dropout := mc_dropout m |}.

Definition enable_dropout (m : VLNBERT) : VLNBERT :=
  {| modules := (fun md => if is_dropout md
                           then mkModule (is_dropout md) true
                           else md) <$> modules m;
     mc_dropout_samples := mc_dropout_samples m;
     mc_dropout := mc_dropout m |}.

Definition set_mc_dropout (b : bool) (m : VLNBERT) : VLNBERT :=
  {| modules := modules m;
     mc_dropout_samples := mc_dropout_samples m;
     mc_dropout := b |}.

Definition dropout_active (m : VLNBERT) : bool :=
  existsb (fun md => is_dropout md && training md) (modules m).

Section Model.

Context {W : World}.

(** What [forward] hands back: a pair, a triple, or [None] when it falls
    off its last branch. *)
Inductive forward_output : Type :=
| LanguageOutput (init_state : Hidden W) (encoded_sentence : LangFeat W)
| VisualOutput (state_proj : Hidden W) (logit : list (list xlogit))
               (confidence_score : Aux W)
| PyNone.

(** The keyword arguments of a call: the running state and instruction
    features (absent in the language call) and the observations the
    feature tensors are built from. *)
Record Inputs : Type := mkInputs {
  in_state : option (Hidden W * LangFeat W);
  in_obs : list Obs
}.

Definition record_pass (mode : string) (tc : Torch) (m : VLNBERT) : Torch :=
  {| net := m;
     grad_enabled := grad_enabled tc;
     passes := mkPass mode (grad_enabled tc) (dropout_active m) :: passes tc |}.

Definition forward (tc : Torch) (mode : string) (inp : Inputs)
  : Torch * result forward_output :=
  let m := if mc_dropout (net tc) then enable_dropout (net tc) else net tc in
  let n := length (passes tc) in
  if String.eqb mode "language" then
    let '(init_state, encoded_sentence) :=
      bert_language W (modules m) n (in_obs inp) in
    (record_pass mode tc m, Ok (LanguageOutput init_state encoded_sentence))
  else if String.eqb mode "visual" then
    match in_state inp with
    | Some (h, lang) =>
        let '(state_proj, logit, confidence_score) :=
          bert_visual W (modules m) n h lang (in_obs inp) in
        (record_pass mode tc m, Ok (VisualOutput state_proj logit confidence_score))
    | None =>
        (* the inputs of the language call: [sentence] is the 2-d token
           tensor, and [sentence[:,0,:]] has too many indices *)
        (record_pass mode tc m, Raise IndexError)
    end
  else
    (* the bare expression [ModuleNotFoundError]: nothing is raised and
       the function returns [None] *)
    (record_pass mode tc m, Ok PyNone).

(** [for _ in range(n): outputs.append(self.forward(...))] *)
Fixpoint mc_passes (n : nat) (tc : Torch) (mode : string) (inp : Inputs)
  (outputs : list forward_output) : Torch * result (list forward_output) :=
  match n with
  | O => (tc, Ok outputs)
  | S n' =>
      match forward tc mode inp with
      | (tc', Ok output) => mc_passes n' tc' mode inp (outputs ++ [output])
      | (tc', Raise e) => (tc', Raise e)
      end
  end.

Definition set_grad (b : bool) (tc : Torch) : Torch :=
  {| net := net tc; grad_enabled := b; passes := passes tc |}.

Definition set_net (m : VLNBERT) (tc : Torch) : Torch :=
  {| net := m; grad_enabled := grad_enabled tc; passes := passes tc |}.

Definition monte_carlo_forward (tc : Torch) (mode : string) (inp : Inputs)
  : Torch * result (list forward_output) :=
  let tc1 := set_net (enable_dropout (set_mc_dropout true (net tc))) tc in
  (* with torch.no_grad(): the previous mode is restored on exit, also
     when the body raises *)
  let prev := grad_enabled tc1 in
  let '(tc2, r) := mc_passes (mc_dropout_samples (net tc1)) (set_grad false tc1)
                             mode inp [] in
  let tc3 := set_grad prev tc2 in
  match r with
  | Ok outputs => (set_net (set_mc_dropout false (net tc3)) tc3, Ok outputs)
  | Raise e => (tc3, Raise e)
  end.

End Model.

Arguments forward_output : clear implicits.
Arguments Inputs : clear implicits.

(** ** Floating point numbers: [np.float32] and the Python float

    A finite number of a binary format with [prec] digits and smallest
    exponent [emin] is an integer of at most [prec] binary digits times a
    power of two that is at least [2 ^ emin]. Storing a number in the
    format rounds it to the nearest such number, a tie going to the one
    with an even integer (IEEE 754, round to nearest even). The largest
    exponent is not modelled: where numpy overflows to an infinity,
    [round_binary] lets the exponent grow. *)

Section Floats.

Local Open Scope Q_scope.

(** [floor (log2 |q|)] of a rational other than 0. *)
Definition binade (q : Q) : Z :=
  let e := (Z.log2 (Z.abs (Qnum q)) - Z.log2 (Zpos (Qden q)))%Z in
  if Qle_bool (2 ^ e) (Qabs q) then e else (e - 1)%Z.

(** The nearest integer, a tie going to the even one. *)
Definition rint (q : Q) : Z :=
  let f := Qfloor q in
  match Qcompare (q - inject_Z f) (1 # 2) with
  | Lt => f
  | Gt => (f + 1)%Z
  | Eq => if Z.even f then f else (f + 1)%Z
  end.

Definition round_binary (prec emin : Z) (q : Q) : Q :=
  let q := Qred q in
  if Qeq_bool q 0 then 0
  else
    let ulp := 2 ^ Z.max (binade q - (prec - 1)) emin in
    Qred (inject_Z (rint (q / ulp)) * ulp).

(** [np.float32(x)]: binary32 has 24 digits, its smallest positive
    number is [2 ^ -149]. *)
Definition f32 : Q -> Q := round_binary 24 (-149).

(** A Python float or [np.float64]: binary64 has 53 digits, its smallest
    positive number is [2 ^ -1074]. *)
Definition f64 : Q -> Q := round_binary 53 (-1074).

(** [x - y] on two float32 scalars. *)
Definition sub32 (x y : Q) : Q := f32 (x - y).

(** The result of an operation of a float32 scalar with a Python float
    (or with the float64 result of such an operation), of exact value
    [x]: a float32 under NumPy 2, a float64 before. *)
Definition mixed (weak : bool) (x : Q) : Q := if weak then f32 x else f64 x.

(** Numbers of magnitude at most [2 ^ 125], far from the overflow of
    float32 at [2 ^ 128]. *)
Definition in_float32_range (x : Q) : Prop := Qabs x <= 2 ^ 125.

End Floats.

(** ** [Seq2SeqAgent]: the reward shaper (the body of the reward loop) *)

Definition stop_action : Z := (-1)%Z.

(** Lines "if ended[i] ... reward[i] -= (1.0 - last_dist[i]) * 2.0" for one
    instance: the pair [(reward[i], mask[i])]. The four numbers are entries
    of float32 arrays; every value assigned to [reward[i]] is rounded to
    float32 by the store; [0.0], [1.0], [-2.0] and the negation of a
    float32 are float32 as they are. *)
Definition reward_instance (weak : bool) (ended_i : bool) (action_idx : Z)
  (dist_i ndtw_i last_dist_i last_ndtw_i : Q) : result (Q * Q) :=
  if ended_i then Ok (0, 0)%Q
  else if (action_idx =? stop_action)%Z then
    if Qltb dist_i 3
    then Ok (f32 (mixed weak (2 + mixed weak (ndtw_i * 2))), 1)%Q
    else Ok (- 2, 1)%Q
  else
    let reward := (- sub32 dist_i last_dist_i)%Q in
    let ndtw_reward := sub32 ndtw_i last_ndtw_i in
    quantified ←
      (if Qltb 0 reward then Ok (f32 (mixed weak (1 + ndtw_reward)))%Q
       else if Qltb reward 0 then Ok (f32 (mixed weak (- 1 + ndtw_reward)))%Q
       else Raise (NameError "The action doesn't change the move"));
    if Qle_bool last_dist_i 1 && Qltb 0 (sub32 dist_i last_dist_i)
    then Ok (f32 (mixed weak
                    (quantified
                     - mixed weak (mixed weak (1 - last_dist_i) * 2))), 1)%Q
    else Ok (quantified, 1)%Q.

(** [arr[i] = v] on a numpy array. *)
Definition setitem {A : Type} (l : list A) (i : nat) (v : A) : result (list A) :=
  if bool_decide (i < length l) then Ok (<[i := v]> l) else Raise IndexError.

(** [arr[i] = v] on a float32 array: the store rounds. *)
Definition setitem32 (l : list Q) (i : nat) (v : Q) : result (list Q) :=
  setitem l i (f32 v).

(** [arr[i]] on a float32 array: a float32 scalar. The entries that
    [setitem32] stored are read back as they are ([f32_idempotent]). *)
Definition getitem32 (l : list Q) (i : nat) : result Q :=
  x ← getitem l i; mret (f32 x).

(** ** [Seq2SeqAgent]: state *)

(** The Python values [self.loss] and [ml_loss] range over: an [int], a
    [float] or a tensor. The number itself is not modelled, only its
    type and the loss terms that were added into it. *)
Inductive pykind : Type := PyInt | PyFloat | PyTensor.

Inductive loss_term : Type :=
| CrossEntropy (t : nat)          (* self.criterion(logit, target) of step t *)
| RL_loss.                        (* rl_loss of the actor-critic pass *)

Record pyloss : Type := mkLoss {
  kind : pykind;
  terms : list loss_term
}.

(** The type of [x + y]. *)
Definition kind_add (a b : pykind) : pykind :=
  match a, b with
  | PyTensor, _ | _, PyTensor => PyTensor
  | PyFloat, _ | _, PyFloat => PyFloat
  | PyInt, PyInt => PyInt
  end.

Definition loss_add (a b : pyloss) : pyloss :=
  {| kind := kind_add (kind a) (kind b); terms := terms a ++ terms b |}.

(** The loss terms that come from the imitation (cross-entropy) loss. *)
Definition imitation_terms (l : list loss_term) : Prop :=
  Forall (fun term => exists k, term = CrossEntropy k) l.

(** [x.item()]: only a tensor has the method. *)
Definition item (x : pyloss) : result unit :=
  match kind x with
  | PyTensor => Ok tt
  | _ => Raise AttributeError
  end.

Section Agent.

Context {W : World}.

(** An entry of ['confidence_scores']: a float taken from the combined
    confidence, or the integer placeholder [0]. *)
Inductive conf_entry : Type :=
| ConfValue (s : Score W)
| ConfZero.

Record Traj : Type := mkTraj {
  tr_instr_id : string;
  path : list PathPoint;
  confidence_scores : list conf_entry
}.

(** The attributes of the agent that [rollout] reads or writes. *)
Record Agent : Type := mkAgent {
  feedback : string;
  episode_len : nat;
  env : Sim W;
  torch : Torch;                    (* self.vln_bert with torch's state *)
  critic_calls : nat;               (* forward passes of self.critic *)
  loss : pyloss;
  losses : nat;                     (* len(self.losses) *)
  logs : list string                (* keys appended to, latest first *)
}.

(** The local variables of [rollout] that live across loop iterations. *)
Record Locals : Type := mkLocals {
  t : option nat;                   (* the loop variable, unbound before the loop *)
  train_rl : bool;
  batch_size : nat;
  perm_idx : list nat;
  perm_obs : list Obs;
  h_t : Hidden W;
  language_features : LangFeat W;
  traj : list Traj;
  last_dist : list Q;
  last_ndtw : list Q;
  ended : list bool;
  rewards : list (list Q);
  hidden_states : list (Hidden W);
  policy_log_probs : list (list Z);
  masks : list (list Q);
  ml_loss : pyloss;
  candidate_leng : list nat;
  cpu_a_t : list Z
}.

(** *** Helpers of the rollout *)

(** [obs[perm_idx]] *)
Definition take_perm (obs : list Obs) (idx : list nat) : result (list Obs) :=
  mapM (getitem obs) idx.

(** [get_input_feat]: only [candidate_leng] matters here; building the
    candidate tensor takes [max(candidate_leng)]. *)
Definition get_input_feat (obs : list Obs) : result (list nat) :=
  let leng := (fun ob => length (candidate ob) + 1) <$> obs in
  _ ← py_max leng;
  mret leng.

(** [h_t, logit, _ = out] *)
Definition unpack3 (out : forward_output W)
  : result (Hidden W * list (list xlogit) * Aux W) :=
  match out with
  | VisualOutput h logit c => Ok (h, logit, c)
  | LanguageOutput _ _ => Raise ValueError
  | PyNone => Raise TypeError
  end.

(** [h_t, language_features = out] and [last_h_, _ = out] *)
Definition unpack2 (out : forward_output W) : result (Hidden W * LangFeat W) :=
  match out with
  | LanguageOutput h l => Ok (h, l)
  | VisualOutput _ _ _ => Raise ValueError
  | PyNone => Raise TypeError
  end.

(** [output[1]] for an element of [mc_outputs] *)
Definition output_logit (out : forward_output W) : result (list (list xlogit)) :=
  match out with
  | VisualOutput _ logit _ => Ok logit
  | _ => Raise TypeError
  end.

Definition run {A : Type} (p : Torch * result A) : result (Torch * A) :=
  x ← p.2; mret (p.1, x).

(** The visual step of one iteration: from [get_input_feat] to the choice
    of [a_t] and [combined_confidence]. *)
Record Selection : Type := mkSelection {
  s_torch : Torch;
  s_candidate_leng : list nat;
  s_language_features : LangFeat W;
  s_h_t : Hidden W;
  s_a_t : list Z;
  s_combined_confidence : option (list (Score W));
  s_hidden_states : list (Hidden W);
  s_policy_log_probs : list (list Z);
  s_ml_loss : pyloss
}.

Definition select_action (t : nat) (self : Agent) (loc : Locals)
  : result Selection :=
  leng ← get_input_feat (perm_obs loc);
  (* args.vlnbert == 'prevalent': the state replaces position 0 at every step *)
  let lang := cat_state W (h_t loc) (language_features loc) in
  _ ← length2mask leng;
  let visual_inputs := mkInputs (Some (h_t loc, lang)) (perm_obs loc) in
  if String.eqb (feedback self) "argmax" then
    '(tc1, mc_outputs) ← run (monte_carlo_forward (torch self) "visual" visual_inputs);
    '(tc2, out) ← run (forward tc1 "visual" visual_inputs);
    '(h, logit, _) ← unpack3 out;
    candidate_mask ← length2mask leng;
    logit ← masked_fill_ logit candidate_mask;
    target ← _teacher_action (args_ignoreid W) (perm_obs loc) (ended loc);
    let ml := loss_add (ml_loss loc) (mkLoss PyTensor [CrossEntropy t]) in
    a_t ← max_dim1 logit;
    logits ← mapM output_logit mc_outputs;
    let combined_confidence := confidence_of W logits in
    a_t' ← max_dim1 logit;
    mret (mkSelection tc2 leng lang h a_t' (Some combined_confidence)
            (hidden_states loc ++ [h]) (policy_log_probs loc ++ [a_t]) ml)
  else
    '(tc1, out) ← run (forward (torch self) "visual" visual_inputs);
    '(h, logit, _) ← unpack3 out;
    a_t ← max_dim1 logit;
    mret (mkSelection tc1 leng lang h a_t None
            (hidden_states loc) (policy_log_probs loc) (ml_loss loc)).

Definition append_confidence (tr : Traj) (c : conf_entry) : Traj :=
  {| tr_instr_id := tr_instr_id tr;
     path := path tr;
     confidence_scores := confidence_scores tr ++ [c] |}.

Definition append_path (tr : Traj) (p : PathPoint) : Traj :=
  {| tr_instr_id := tr_instr_id tr;
     path := path tr ++ [p];
     confidence_scores := confidence_scores tr |}.

(** "Store confidence scores": [for i, ob in enumerate(perm_obs)] from
    index [i] on. *)
Fixpoint store_confidence (i : nat) (obs : list Obs) (ended : list bool)
  (combined_confidence : option (list (Score W))) (traj : list Traj)
  : result (list Traj) :=
  match obs with
  | [] => Ok traj
  | _ :: rest =>
      e ← getitem ended i;
      traj' ← (if e : bool then Ok traj
               else
                 tr ← getitem traj i;
                 c ← match combined_confidence with
                     | Some cc => s ← getitem cc i; mret (ConfValue s)
                     | None => Ok ConfZero
                     end;
                 mret (<[i := append_confidence tr c]> traj));
      store_confidence (S i) rest ended combined_confidence traj'
  end.

(** "Prepare environment action": [for i, next_id in enumerate(cpu_a_t)]
    from index [i] on. Only entry [i] is written while entry [i] is
    visited, so the loop is a map over the array. *)
Definition env_action_one (leng_i : nat) (next_id : Z) (ended : list bool)
  (i : nat) : result Z :=
  if (next_id =? Z.of_nat leng_i - 1)%Z then Ok stop_action
  else if (next_id =? args_ignoreid W)%Z then Ok stop_action
  else e ← getitem ended i; mret (if e : bool then stop_action else next_id).

Fixpoint env_action (i : nat) (a_t : list Z) (leng : list nat)
  (ended : list bool) : result (list Z) :=
  match a_t with
  | [] => Ok []
  | next_id :: rest =>
      leng_i ← getitem leng i;
      a ← env_action_one leng_i next_id ended i;
      rest' ← env_action (S i) rest leng ended;
      mret (a :: rest')
  end.

(** [make_equiv_action]: [for i, idx in enumerate(perm_idx)] from index
    [i] on. *)
Fixpoint make_equiv_action (i : nat) (idxs : list nat) (a_t : list Z)
  (obs : list Obs) (sim : Sim W) (traj : list Traj)
  : result (Sim W * list Traj) :=
  match idxs with
  | [] => Ok (sim, traj)
  | idx :: rest =>
      action ← getitem a_t i;
      if (action =? stop_action)%Z
      then make_equiv_action (S i) rest a_t obs sim traj
      else
        ob ← getitem obs i;
        select_candidate ← py_getitem (candidate ob) action;
        '(sim', state) ← sim_move W sim idx ob select_candidate;
        tr ← getitem traj i;
        make_equiv_action (S i) rest a_t obs sim'
          (<[i := append_path tr state]> traj)
  end.

(** [[vp[0] for vp in traj[i]['path']]]: the viewpoints of a trajectory. *)
Definition path_act (tr : Traj) : list string :=
  (fun vp : PathPoint => vp.1.1) <$> path tr.

(** *** The reward loop of one step *)

Record RewardArrays : Type := mkRewardArrays {
  dist : list Q;
  ndtw_score : list Q;
  reward : list Q;
  mask : list Q
}.

(** [for i, ob in enumerate(perm_obs)] of "Calculate the mask and reward",
    from index [i] on. [last_dist] and [last_ndtw] are allocated with the
    same [batch_size] entries as [dist], whose entry [i] has just been
    written, so reading them before the case analysis raises nothing the
    source would not raise. *)
Fixpoint reward_loop (i : nat) (obs : list Obs) (traj : list Traj)
  (ended : list bool) (cpu_a_t : list Z) (last_dist last_ndtw : list Q)
  (arr : RewardArrays) : result RewardArrays :=
  match obs with
  | [] => Ok arr
  | ob :: rest =>
      dist' ← setitem32 (dist arr) i (distance ob);
      tr ← getitem traj i;
      ndtw' ← setitem32 (ndtw_score arr) i
                (ndtw W (scan ob) (path_act tr) (gt_path ob));
      e ← getitem ended i;
      '(r, m) ← (if e : bool
                 then reward_instance (numpy_weak_promotion W) true
                        stop_action 0 0 0 0
                 else
                   action_idx ← getitem cpu_a_t i;
                   d ← getitem32 dist' i;
                   n ← getitem32 ndtw' i;
                   ld ← getitem32 last_dist i;
                   ln ← getitem32 last_ndtw i;
                   reward_instance (numpy_weak_promotion W) false
                     action_idx d n ld ln);
      reward' ← setitem (reward arr) i r;
      mask' ← setitem (mask arr) i m;
      reward_loop (S i) rest traj ended cpu_a_t last_dist last_ndtw
        (mkRewardArrays dist' ndtw' reward' mask')
  end.

(** The block under [if train_rl:] inside the loop. *)
Definition reward_phase (batch_size : nat) (obs : list Obs) (traj : list Traj)
  (ended : list bool) (cpu_a_t : list Z) (last_dist last_ndtw : list Q)
  : result RewardArrays :=
  reward_loop 0 obs traj ended cpu_a_t last_dist last_ndtw
    (mkRewardArrays (replicate batch_size 0%Q) (replicate batch_size 0%Q)
                    (replicate batch_size 0%Q) (replicate batch_size 1%Q)).

(** [ended[:] = np.logical_or(ended, (cpu_a_t == -1))] *)
Definition update_ended (ended : list bool) (cpu_a_t : list Z)
  : result (list bool) :=
  flags ← broadcast (length ended) ((fun a => (a =? stop_action)%Z) <$> cpu_a_t);
  mret (zip_with orb ended flags).

(** *** One iteration of [for t in range(self.episode_len)] *)

(** What the first half of an iteration leaves behind: the selection,
    the environment actions [cpu_a_t], the simulator and trajectories
    after [make_equiv_action], and the observations fetched again. *)
Record Acted : Type := mkActed {
  a_sel : Selection;
  a_cpu : list Z;
  a_sim : Sim W;
  a_traj : list Traj;
  a_obs : list Obs
}.

(** From [get_input_feat] to "Perm the obs for the resu". *)
Definition act_phase (t0 : nat) (self : Agent) (loc : Locals) : result Acted :=
  sel ← select_action t0 self loc;
  traj1 ← store_confidence 0 (perm_obs loc) (ended loc)
            (s_combined_confidence sel) (traj loc);
  cpu ← env_action 0 (s_a_t sel) (s_candidate_leng sel) (ended loc);
  '(sim', traj2) ← make_equiv_action 0 (perm_idx loc) cpu (perm_obs loc)
                     (env self) traj1;
  obs' ← take_perm (env_get_obs W sim') (perm_idx loc);
  mret (mkActed sel cpu sim' traj2 obs').

(** The whole iteration, up to the test for the early exit. *)
Definition step (t0 : nat) (self : Agent) (loc : Locals)
  : result (Agent * Locals) :=
  act ← act_phase t0 self loc;
  '(rewards', masks', last_dist', last_ndtw') ←
    (if train_rl loc then
       arr ← reward_phase (batch_size loc) (a_obs act) (a_traj act) (ended loc)
               (a_cpu act) (last_dist loc) (last_ndtw loc);
       mret (rewards loc ++ [reward arr], masks loc ++ [mask arr],
             dist arr, ndtw_score arr)
     else Ok (rewards loc, masks loc, last_dist loc, last_ndtw loc));
  ended' ← update_ended (ended loc) (a_cpu act);
  let sel := a_sel act in
  mret ({| feedback := feedback self;
           episode_len := episode_len self;
           env := a_sim act;
           torch := s_torch sel;
           critic_calls := critic_calls self;
           loss := loss self;
           losses := losses self;
           logs := logs self |},
        {| t := Some t0;
           train_rl := train_rl loc;
           batch_size := batch_size loc;
           perm_idx := perm_idx loc;
           perm_obs := a_obs act;
           h_t := s_h_t sel;
           language_features := s_language_features sel;
           traj := a_traj act;
           last_dist := last_dist';
           last_ndtw := last_ndtw';
           ended := ended';
           rewards := rewards';
           hidden_states := s_hidden_states sel;
           policy_log_probs := s_policy_log_probs sel;
           masks := masks';
           ml_loss := s_ml_loss sel;
           candidate_leng := s_candidate_leng sel;
           cpu_a_t := a_cpu act |}).

(** [ended.all()] *)
Definition all_ended (ended : list bool) : bool := forallb (fun b => b) ended.

(** The loop over the remaining values [ts] of [t], with its [break]. *)
Fixpoint rollout_loop (ts : list nat) (self : Agent) (loc : Locals)
  : result (Agent * Locals) :=
  match ts with
  | [] => Ok (self, loc)
  | t0 :: rest =>
      '(self', loc') ← step t0 self loc;
      if all_ended (ended loc') then Ok (self', loc')
      else rollout_loop rest self' loc'
  end.

(** *** Before the loop *)

(** "Record starting point" *)
Definition init_traj (ob : Obs) : Traj :=
  {| tr_instr_id := instr_id ob;
     path := [(viewpoint ob, heading ob, elevation ob)];
     confidence_scores := [] |}.

(** "Init the reward shaping": [for i, ob in enumerate(perm_obs)] from
    index [i] on. *)
Fixpoint init_shaping (i : nat) (obs : list Obs) (traj : list Traj)
  (last_dist last_ndtw : list Q) : result (list Q * list Q) :=
  match obs with
  | [] => Ok (last_dist, last_ndtw)
  | ob :: rest =>
      last_dist' ← setitem32 last_dist i (distance ob);
      tr ← getitem traj i;
      last_ndtw' ← setitem32 last_ndtw i
                     (ndtw W (scan ob) (path_act tr) (gt_path ob));
      init_shaping (S i) rest traj last_dist' last_ndtw'
  end.

(** [if self.feedback == 'teacher' or self.feedback == 'argmax': train_rl = False] *)
Definition effective_train_rl (fb : string) (train_rl : bool) : bool :=
  if String.eqb fb "teacher" || String.eqb fb "argmax" then false else train_rl.

Definition rollout_init (self : Agent) (train_rl reset : bool)
  : result (Agent * Locals) :=
  let train_rl := effective_train_rl (feedback self) train_rl in
  let '(sim, obs) := if reset then env_reset W (env self)
                    else (env self, env_get_obs W (env self)) in
  let batch_size := length obs in
  perm_idx ← sort_batch W obs;
  perm_obs ← take_perm obs perm_idx;
  '(tc, out) ← run (forward (torch self) "language" (mkInputs None perm_obs));
  '(h_t, language_features) ← unpack2 out;
  let traj := init_traj <$> perm_obs in
  '(last_dist, last_ndtw) ←
    init_shaping 0 perm_obs traj (replicate batch_size 0%Q) (replicate batch_size 0%Q);
  mret ({| feedback := feedback self;
           episode_len := episode_len self;
           env := sim;
           torch := tc;
           critic_calls := critic_calls self;
           loss := loss self;
           losses := losses self;
           logs := logs self |},
        {| t := None;
           train_rl := train_rl;
           batch_size := batch_size;
           perm_idx := perm_idx;
           perm_obs := perm_obs;
           h_t := h_t;
           language_features := language_features;
           traj := traj;
           last_dist := last_dist;
           last_ndtw := last_ndtw;
           ended := replicate batch_size false;
           rewards := [];
           hidden_states := [];
           policy_log_probs := [];
           masks := [];
           ml_loss := mkLoss PyFloat [];
           candidate_leng := [];
           cpu_a_t := [] |}).

(** *** After the loop: the actor-critic pass

    Only which networks run and which loss terms are added is modelled;
    the discounted returns themselves are not. *)

(** [for i in range(batch_size): if not ended[i]: discount_reward[i] = last_value__[i]] *)
Fixpoint bootstrap (idxs : list nat) (ended : list bool) (last_value : list Q)
  : result unit :=
  match idxs with
  | [] => Ok tt
  | i :: rest =>
      e ← getitem ended i;
      _ ← (if e : bool then Ok 0%Q else getitem last_value i);
      bootstrap rest ended last_value
  end.

(** [for t in range(length-1, -1, -1)]: the critic runs on
    [hidden_states[t]] and the policy and value terms go into [rl_loss];
    [entropys] is never appended to, so reading it raises. *)
Fixpoint a2c_steps (ts : list nat) (fb : string) (loc : Locals)
  (calls : nat) (rl_loss : pyloss) (logs : list string)
  : result (nat * pyloss * list string) :=
  match ts with
  | [] => Ok (calls, rl_loss, logs)
  | t0 :: rest =>
      _ ← getitem (rewards loc) t0;
      _ ← getitem (masks loc) t0;
      _ ← getitem (hidden_states loc) t0;
      _ ← getitem (policy_log_probs loc) t0;
      _ ← (if String.eqb fb "sample"
           then getitem ([] : list unit) t0 else Ok tt);
      a2c_steps rest fb loc (S calls)
        (mkLoss PyTensor (terms rl_loss)) ("critic_loss" :: logs)
  end.

Definition a2c (self : Agent) (loc : Locals) : result Agent :=
  leng ← get_input_feat (perm_obs loc);
  let lang := cat_state W (h_t loc) (language_features loc) in
  _ ← length2mask leng;
  let visual_inputs := mkInputs (Some (h_t loc, lang)) (perm_obs loc) in
  '(tc, out) ← run (forward (torch self) "visual" visual_inputs);
  '(last_h_, _) ← unpack2 out;
  let last_value__ := critic_net W last_h_ in
  _ ← bootstrap (seq 0 (batch_size loc)) (ended loc) last_value__;
  let length_ := length (rewards loc) in
  '(calls, rl_loss, logs1) ←
    a2c_steps (rev (seq 0 length_)) (feedback self) loc
      (S (critic_calls self)) (mkLoss PyFloat [RL_loss]) (logs self);
  let logs2 := "total" :: logs1 in
  _ ← (if String.eqb (args_normalize_loss W) "total" then
         (* total is the int 0 when no step was recorded *)
         if bool_decide (length_ = 0) then Raise ZeroDivisionError else Ok tt
       else if String.eqb (args_normalize_loss W) "batch" then
         match kind rl_loss, batch_size loc with
         | PyFloat, O => Raise ZeroDivisionError
         | _, _ => Ok tt
         end
       else if String.eqb (args_normalize_loss W) "none" then Ok tt
       else Raise AssertionError);
  let loss' := loss_add (loss self) rl_loss in
  _ ← item rl_loss;
  mret {| feedback := feedback self;
          episode_len := episode_len self;
          env := env self;
          torch := tc;
          critic_calls := calls;
          loss := loss';
          losses := losses self;
          logs := "RL_loss" :: logs2 |}.

(** *** The end of [rollout] *)

(** [if train_ml is not None: ...] *)
Definition add_imitation_loss (self : Agent) (loc : Locals) (train_ml : option Q)
  : result Agent :=
  match train_ml with
  | None => Ok self
  | Some _ =>
      (* ml_loss * train_ml / batch_size *)
      _ ← match kind (ml_loss loc), batch_size loc with
          | PyTensor, _ => Ok tt
          | _, O => Raise ZeroDivisionError
          | _, _ => Ok tt
          end;
      let loss' := loss_add (loss self) (ml_loss loc) in
      _ ← item (ml_loss loc);
      mret {| feedback := feedback self;
              episode_len := episode_len self;
              env := env self;
              torch := torch self;
              critic_calls := critic_calls self;
              loss := loss';
              losses := losses self;
              logs := "IL_loss" :: logs self |}
  end.

(** [if type(self.loss) is int: ... else: ...] *)
Definition record_loss (self : Agent) : result Agent :=
  _ ← match kind (loss self) with
      | PyInt => Ok tt
      | _ =>
          _ ← item (loss self);
          if bool_decide (episode_len self = 0) then Raise ZeroDivisionError
          else Ok tt
      end;
  mret {| feedback := feedback self;
          episode_len := episode_len self;
          env := env self;
          torch := torch self;
          critic_calls := critic_calls self;
          loss := loss self;
          losses := S (losses self);
          logs := logs self |}.

(** The part of [rollout] up to the end of the step loop. *)
Definition rollout_steps (self : Agent) (train_rl reset : bool)
  : result (Agent * Locals) :=
  '(self1, loc) ← rollout_init self train_rl reset;
  rollout_loop (seq 0 (episode_len self1)) self1 loc.

(** The pairs of states of the agent and of the locals that are zero or
    more completed iterations apart, whatever the values of [t]. *)
Inductive later : Agent * Locals -> Agent * Locals -> Prop :=
| later_now (s : Agent * Locals) : later s s
| later_next (t0 : nat) (self : Agent) (loc : Locals) (s1 s2 : Agent * Locals) :
    step t0 self loc = Ok s1 -> later s1 s2 -> later (self, loc) s2.

Definition rollout (self : Agent) (train_ml : option Q) (train_rl_arg reset : bool)
  : result (Agent * list Traj) :=
  '(self2, loc) ← rollout_steps self train_rl_arg reset;
  self3 ← (if train_rl loc then a2c self2 loc else Ok self2);
  self4 ← add_imitation_loss self3 loc train_ml;
  self5 ← record_loss self4;
  mret (self5, traj loc).

End Agent.

Arguments conf_entry : clear implicits.
Arguments Traj : clear implicits.
Arguments Agent : clear implicits.
Arguments Locals : clear implicits.
Arguments Selection : clear implicits.
Arguments RewardArrays : clear implicits.
Arguments Acted : clear implicits.

(** ** [Seq2SeqAgent.calculate_confidence]

    The tensor pipeline of the source over the reals: a tensor of shape
    [(N, batch, n_directions)] is a list of [N] matrices. *)

Section Confidence.

Local Open Scope R_scope.

Definition Rsum (v : list R) : R := foldr Rplus 0 v.

(** [v.mean()] of a vector *)
Definition Rmean (v : list R) : R := Rsum v / INR (length v).

(** [torch.max(v)]: the largest entry of a non-empty vector. *)
Definition Rmaximum (v : list R) : R :=
  match v with
  | [] => 0
  | x :: rest => foldl Rmax x rest
  end.

Definition mat_map2 (f : R -> R -> R) (a b : list (list R)) : list (list R) :=
  zip_with (zip_with f) a b.

(** [x.sum(dim=0)]: the matrices added up entry by entry. *)
Definition sum_dim0 (x : list (list (list R))) : list (list R) :=
  match x with
  | [] => []
  | m :: ms => foldl (mat_map2 Rplus) m ms
  end.

(** [x.mean(dim=0)] *)
Definition mean_dim0 (x : list (list (list R))) : list (list R) :=
  (fun row : list R => (fun s => s / INR (length x)) <$> row) <$> sum_dim0 x.

(** [x.var(dim=0)]: torch's default is the unbiased estimate, which
    divides the squared deviations from the mean by [N - 1]. For a single
    matrix torch divides 0 by 0 and returns nan, which the reals do not
    have: the definition stands for the source on two matrices or more. *)
Definition var_dim0 (x : list (list (list R))) : list (list R) :=
  let mu := mean_dim0 x in
  let dev := (fun m => mat_map2 (fun a b => (a - b) ^ 2) m mu) <$> x in
  (fun row : list R => (fun s => s / (INR (length x) - 1)) <$> row) <$> sum_dim0 dev.

(** [F.softmax(v, dim=-1)] on one row *)
Definition softmax (v : list R) : list R :=
  let e := exp <$> v in
  (fun a => a / Rsum e) <$> e.

(** [m.shape[-1]] of a matrix *)
Definition shape_last (m : list (list R)) : nat :=
  match m with
  | [] => 0
  | row :: _ => length row
  end.

Definition eps : R := / 10 ^ 10.

(** The body of [calculate_confidence]. It stands for the source where the
    source computes finite numbers: on two passes or more (see [var_dim0])
    and two candidates or more; with one candidate the entropy is divided
    by [log 1 = 0], with none [torch.max] raises. *)
Definition calculate_confidence (logits : list (list (list R))) : list R :=
  let mean_logits := mean_dim0 logits in
  let var_logits := var_dim0 logits in
  (* Entropy-based confidence *)
  let mean_probs := softmax <$> mean_logits in
  let entropy :=
    (fun p : list R => - Rsum ((fun a => a * ln (a + eps)) <$> p)) <$> mean_probs in
  let entropy_confidence :=
    (fun h => 1 - h / ln (INR (shape_last mean_probs))) <$> entropy in
  (* Variance-based uncertainty *)
  let uncertainty := Rmean <$> var_logits in
  (* Agreement-based confidence using mean probabilities *)
  let agreement := Rmaximum <$> mean_probs in
  (* Combine multiple metrics *)
  zip_with (fun s a => (s + a) / 3)
    (zip_with (fun ec u => ec + (1 - u)) entropy_confidence uncertainty)
    agreement.

(** A matrix of [b] rows and [k] columns. *)
Definition mat_shape (m : list (list R)) (b k : nat) : Prop :=
  length m = b /\ Forall (fun row => length row = k) m.

(** A stack of [n] matrices of [b] rows and [k] columns. *)
Definition has_shape (logits : list (list (list R))) (n b k : nat) : Prop :=
  length logits = n /\ Forall (fun sample => mat_shape sample b k) logits.

(** The matrix of [b] rows and [k] columns whose entry [(i, j)] is [g i j]. *)
Definition table (g : nat -> nat -> R) (b k : nat) : list (list R) :=
  (fun i => (fun j => g i j) <$> seq 0 k) <$> seq 0 b.

(** [m[i, j]] *)
Definition entry (m : list (list R)) (i j : nat) : R := nth j (nth i m []) 0.

(** *** The three signals as the specification words them, for batch
    instance [i] of an ensemble [logits] with [k] candidates *)

(** The logits of candidate [j] of instance [i] across the ensemble. *)
Definition ensemble (logits : list (list (list R))) (i j : nat) : list R :=
  (fun sample : list (list R) => entry sample i j) <$> logits.

(** The softmax of the ensemble-mean logits of instance [i]. *)
Definition mean_softmax (logits : list (list (list R))) (k i : nat) : list R :=
  softmax ((fun j => Rmean (ensemble logits i j)) <$> seq 0 k).

(** Shannon entropy, with the epsilon inside the logarithm. *)
Definition shannon (p : list R) : R :=
  - Rsum ((fun a => a * ln (a + eps)) <$> p).

Definition spec_entropy_confidence (logits : list (list (list R))) (k i : nat) : R :=
  1 - shannon (mean_softmax logits k i) / ln (INR k).

(** The variance of one candidate's logits across the ensemble (the
    unbiased sample variance). *)
Definition variance (v : list R) : R :=
  Rsum ((fun a => (a - Rmean v) ^ 2) <$> v) / (INR (length v) - 1).

Definition spec_inverse_variance (logits : list (list (list R))) (k i : nat) : R :=
  1 - Rmean ((fun j => variance (ensemble logits i j)) <$> seq 0 k).

Definition spec_agreement (logits : list (list (list R))) (k i : nat) : R :=
  Rmaximum (mean_softmax logits k i).

End Confidence.

(** ** [VLNBERT.forward]: the write on its argument [cand_feats]

    In the visual mode [forward] overwrites a slice of the tensor
    [cand_feats] that its caller handed in. The tensor is a list of blocks
    (one per instance) of slots (one per candidate) of feature vectors. *)

Section DropEnv.

Context {W : World}.

(** [args.angle_feat_size] and [args.featdropout], from [param.py]. *)
Variable angle_feat_size : nat.
Variable featdropout : Q.

(** The mask that [drop_env] draws in the forward pass number [pass]:
    whether it keeps entry [(i, j, k)]. *)
Variable keep : nat -> nat -> nat -> nat -> bool.

(** [nn.Dropout(p)] on one entry: in training mode a kept entry is scaled
    by [1 / (1 - p)] and a dropped one is 0; in evaluation mode the layer
    is the identity. *)
Definition drop_entry (training : bool) (pass i j k : nat) (x : Q) : Q :=
  if training
  then (if keep pass i j k then x / (1 - featdropout) else 0)%Q
  else x.

(** The number of entries of [row[:-angle_feat_size]] for a row of [len]:
    Python reads [:-0] as [:0], the empty slice. *)
Definition dropped_width (len : nat) : nat :=
  if (angle_feat_size =? 0)%nat then 0 else len - angle_feat_size.

(** A function applied to every entry of a tensor, given the position of
    the entry and the length of its row. *)
Definition tensor_imap (g : nat -> nat -> nat -> nat -> Q -> Q)
  (t : list (list (list Q))) : list (list (list Q)) :=
  imap (fun i block =>
          imap (fun j row => imap (fun k x => g i j k (length row) x) row) block)
       t.

(** [cand_feats[..., :-a] = self.drop_env(cand_feats[..., :-a])] *)
Definition drop_env_write (training : bool) (pass : nat)
  (cand_feats : list (list (list Q))) : list (list (list Q)) :=
  tensor_imap (fun i j k len x =>
                 if (k <? dropped_width len)%nat
                 then drop_entry training pass i j k x else x)
              cand_feats.

(** The [training] flag of [self.drop_env]: of the sub-modules that
    [__init__] registers, it is the sixth from the end. *)
Definition drop_env_training (m : VLNBERT) : bool :=
  match modules m !! (length (modules m) - 6) with
  | Some md => training md
  | None => false
  end.

(** A network that has its [drop_env] where [__init__] puts it. *)
Definition has_drop_env (m : VLNBERT) : Prop :=
  exists md, modules m !! (length (modules m) - 6) = Some md /\
             is_dropout md = true.

(** What a call of [forward] leaves in [cand_feats]. The write comes after
    the lines that read the state out of [sentence], and only in the
    visual mode. *)
Definition forward_cand_feats (tc : Torch) (mode : string) (inp : Inputs W)
  (cand_feats : list (list (list Q))) : list (list (list Q)) :=
  let m := if mc_dropout (net tc) then enable_dropout (net tc) else net tc in
  if String.eqb mode "language" then cand_feats
  else if String.eqb mode "visual" then
    match in_state inp with
    | Some _ =>
        drop_env_write (drop_env_training m) (length (passes tc)) cand_feats
    | None => cand_feats
    end
  else cand_feats.

(** What the loop of [monte_carlo_forward] leaves in [cand_feats]: every
    pass is handed the tensor that the pass before it has written to. *)
Fixpoint mc_cand_feats (n : nat) (tc : Torch) (mode : string) (inp : Inputs W)
  (cand_feats : list (list (list Q))) : list (list (list Q)) :=
  match n with
  | O => cand_feats
  | S n' =>
      let written := forward_cand_feats tc mode inp cand_feats in
      match forward tc mode inp with
      | (tc', Ok _) => mc_cand_feats n' tc' mode inp written
      | (_, Raise _) => written
      end
  end.

Definition monte_carlo_cand_feats (tc : Torch) (mode : string) (inp : Inputs W)
  (cand_feats : list (list (list Q))) : list (list (list Q)) :=
  let tc1 := set_net (enable_dropout (set_mc_dropout true (net tc))) tc in
  mc_cand_feats (mc_dropout_samples (net tc1)) (set_grad false tc1) mode inp
    cand_feats.

End DropEnv.

(** ** [Seq2SeqAgent._candidate_variable] *)

Section CandidateVariable.

(** [cc['feature']] of a candidate, a vector, and
    [self.feature_size + args.angle_feat_size]. *)
Variable feature : Candidate -> list Q.
Variable feat_size : nat.

(** [for j, cc in enumerate(ob['candidate']): candidate_feat[i, j, :] = cc['feature']]
    on the block [candidate_feat[i]], from index [j] on. The assignment
    broadcasts the feature to the [feat_size] entries of the slot. *)
Fixpoint fill_candidates (j : nat) (cands : list Candidate) (rows : list (list Q))
  : result (list (list Q)) :=
  match cands with
  | [] => Ok rows
  | cc :: rest =>
      v ← broadcast feat_size (feature cc);
      rows' ← setitem rows j v;
      fill_candidates (S j) rest rows'
  end.

(** [for i, ob in enumerate(obs)] from index [i] on. *)
Fixpoint fill_batch (i : nat) (obs : list Obs) (feat : list (list (list Q)))
  : result (list (list (list Q))) :=
  match obs with
  | [] => Ok feat
  | ob :: rest =>
      rows ← getitem feat i;
      rows' ← fill_candidates 0 (candidate ob) rows;
      feat' ← setitem feat i rows';
      fill_batch (S i) rest feat'
  end.

Definition _candidate_variable (obs : list Obs)
  : result (list (list (list Q)) * list nat) :=
  let candidate_leng := (fun ob => length (candidate ob) + 1) <$> obs in
  width ← py_max candidate_leng;
  let candidate_feat :=
    replicate (length obs) (replicate width (replicate feat_size 0%Q)) in
  feat ← fill_batch 0 obs candidate_feat;
  mret (feat, candidate_leng).

End CandidateVariable.

(** ** [Seq2SeqAgent]: the training entry points *)

(** [x.backward()]: only a tensor has the method. *)
Definition backward (x : pyloss) : result unit :=
  match kind x with
  | PyTensor => Ok tt
  | _ => Raise AttributeError
  end.

Section Training.

Context {W : World}.

(** [args.teacher_weight] and [args.ml_weight], from [param.py]. *)
Variables teacher_weight ml_weight : Q.

(** What the backward pass, the gradient clipping and the steps of the two
    optimizers do: they rewrite the parameters of the networks, which live
    in torch and not in the two source files. *)
Variable apply_gradients : Agent W -> Agent W.

Definition with_feedback (fb : string) (self : Agent W) : Agent W :=
  {| feedback := fb; episode_len := episode_len self; env := env self;
     torch := torch self; critic_calls := critic_calls self;
     loss := loss self; losses := losses self; logs := logs self |}.

Definition with_loss (l : pyloss) (self : Agent W) : Agent W :=
  {| feedback := feedback self; episode_len := episode_len self;
     env := env self; torch := torch self;
     critic_calls := critic_calls self;
     loss := l; losses := losses self; logs := logs self |}.

Definition with_losses (n : nat) (self : Agent W) : Agent W :=
  {| feedback := feedback self; episode_len := episode_len self;
     env := env self; torch := torch self;
     critic_calls := critic_calls self;
     loss := loss self; losses := n; logs := logs self |}.

Definition with_env (sim : Sim W) (self : Agent W) : Agent W :=
  {| feedback := feedback self; episode_len := episode_len self;
     env := sim; torch := torch self;
     critic_calls := critic_calls self;
     loss := loss self; losses := losses self; logs := logs self |}.

(** [self.vln_bert.train(mode)]; the flags of the critic's sub-modules are
    not part of the agent's state. *)
Definition train_mode (mode : bool) (self : Agent W) : Agent W :=
  {| feedback := feedback self; episode_len := episode_len self;
     env := env self;
     torch := set_net (set_training mode (net (torch self))) (torch self);
     critic_calls := critic_calls self;
     loss := loss self; losses := losses self; logs := logs self |}.

Definition zero_grad (self : Agent W) : Agent W :=
  train_mode true (with_losses 0 (with_loss (mkLoss PyFloat []) self)).

(** The keyword arguments handed on to [rollout] can only be [reset]. *)
Definition accumulate_gradient (self : Agent W) (feedback : string) (reset : bool)
  : result (Agent W) :=
  if String.eqb feedback "teacher" then
    '(self1, _) ← rollout (with_feedback "teacher" self)
                    (Some teacher_weight) false reset;
    mret self1
  else if String.eqb feedback "sample" then
    '(self1, _) ← rollout (with_feedback "teacher" self)
                    (Some ml_weight) false reset;
    '(self2, _) ← rollout (with_feedback "sample" self1) None true reset;
    mret self2
  else Raise AssertionError.

Definition optim_step (self : Agent W) : result (Agent W) :=
  _ ← backward (loss self);
  mret (apply_gradients self).

(** The body of [for iter in range(1, n_iters + 1)]. *)
Definition train_iteration (feedback : string) (reset : bool) (self : Agent W)
  : result (Agent W) :=
  let self0 := with_loss (mkLoss PyInt []) self in
  self2 ← (if String.eqb feedback "teacher" then
             '(self1, _) ← rollout (with_feedback "teacher" self0)
                             (Some teacher_weight) false reset;
             mret self1
           else if String.eqb feedback "sample" then
             self1 ← (if negb (Qeq_bool ml_weight 0) then
                        '(s, _) ← rollout (with_feedback "teacher" self0)
                                    (Some ml_weight) false reset;
                        mret s
                      else Ok self0);
             '(s, _) ← rollout (with_feedback "sample" self1) None true reset;
             mret s
           else Raise AssertionError);
  _ ← backward (loss self2);
  mret (apply_gradients self2).

Fixpoint train_loop (n : nat) (feedback : string) (reset : bool) (self : Agent W)
  : result (Agent W) :=
  match n with
  | O => Ok self
  | S n' =>
      self' ← train_iteration feedback reset self;
      train_loop n' feedback reset self'
  end.

(** [range(1, n_iters + 1)] has [n_iters] values, none when [n_iters] is
    not positive; [iter] itself only feeds the progress bar. *)
Definition train (self : Agent W) (n_iters : Z) (feedback : string) (reset : bool)
  : result (Agent W) :=
  train_loop (Z.to_nat n_iters) feedback reset
    (with_losses 0 (train_mode true (with_feedback feedback self))).

End Training.

(** ** [BaseAgent.test], [Seq2SeqAgent.test] and [get_results] *)

Section Testing.

Context {W : World}.

(** [self.env.reset_epoch(shuffle=...)], of [env.py]. *)
Variable reset_epoch : bool -> Sim W -> Sim W.

(** [self.results]: a dict from instruction ids to pairs of a path and its
    confidence scores. A Python dict keeps its keys in insertion order. *)
Definition Results : Type :=
  list (string * (list PathPoint * list (conf_entry W))).

(** [d[k] = v]: a key that is there keeps its place and takes the new value. *)
Fixpoint dict_set (d : Results) (k : string)
  (v : list PathPoint * list (conf_entry W)) : Results :=
  match d with
  | [] => [(k, v)]
  | (k', v') :: rest =>
      if String.eqb k' k then (k, v) :: rest
      else (k', v') :: dict_set rest k v
  end.

(** [d.get(k)] *)
Fixpoint dict_get (k : string) (d : Results)
  : option (list PathPoint * list (conf_entry W)) :=
  match d with
  | [] => None
  | (k', v') :: rest => if String.eqb k' k then Some v' else dict_get k rest
  end.

(** [k in d] *)
Definition dict_in (k : string) (d : Results) : bool :=
  match dict_get k d with
  | Some _ => true
  | None => false
  end.

(** [(traj['path'], traj['confidence_scores'])] *)
Definition traj_value (tr : Traj W) : list PathPoint * list (conf_entry W) :=
  (path tr, confidence_scores tr).

(** [for traj in self.rollout(...)] in the branch [iters is not None] *)
Definition record_all (st : Agent W * Results) (trajs : list (Traj W))
  : Agent W * Results :=
  foldl (fun st tr =>
           (with_loss (mkLoss PyInt []) st.1,
            dict_set st.2 (tr_instr_id tr) (traj_value tr)))
        st trajs.

(** [for traj in self.rollout(...)] of a full round, with [looped] *)
Definition record_new (st : Agent W * Results * bool) (trajs : list (Traj W))
  : Agent W * Results * bool :=
  foldl (fun st tr =>
           if dict_in (tr_instr_id tr) st.1.2 then (st.1.1, st.1.2, true)
           else (with_loss (mkLoss PyInt []) st.1.1,
                 dict_set st.1.2 (tr_instr_id tr) (traj_value tr),
                 st.2))
        st trajs.

(** [for i in range(iters)] *)
Fixpoint test_iters (n : nat) (train_ml : option Q) (train_rl reset : bool)
  (self : Agent W) (results : Results) : result (Agent W * Results) :=
  match n with
  | O => Ok (self, results)
  | S n' =>
      '(self1, trajs) ← rollout self train_ml train_rl reset;
      let st := record_all (self1, results) trajs in
      test_iters n' train_ml train_rl reset st.1 st.2
  end.

(** [while True: ... if looped: break], for at most [fuel] rollouts:
    [None] when the loop is still running after them. *)
Fixpoint full_round (fuel : nat) (train_ml : option Q) (train_rl reset : bool)
  (self : Agent W) (results : Results)
  : option (result (Agent W * Results)) :=
  match fuel with
  | O => None
  | S fuel' =>
      match rollout self train_ml train_rl reset with
      | Raise e => Some (Raise e)
      | Ok (self1, trajs) =>
          let st := record_new (self1, results, false) trajs in
          if st.2 then Some (Ok st.1)
          else full_round fuel' train_ml train_rl reset st.1.1 st.1.2
      end
  end.

(** [BaseAgent.test(iters, **kwargs)]; the keyword arguments are those of
    [rollout]. *)
Definition BaseAgent_test (fuel : nat) (self : Agent W) (iters : option Z)
  (train_ml : option Q) (train_rl reset : bool)
  : option (result (Agent W * Results)) :=
  let shuffle := match iters with Some _ => true | None => false end in
  let self0 :=
    with_loss (mkLoss PyInt [])
      (with_losses 0 (with_env (reset_epoch shuffle (env self)) self)) in
  match iters with
  | Some n => Some (test_iters (Z.to_nat n) train_ml train_rl reset self0 [])
  | None => full_round fuel train_ml train_rl reset self0 []
  end.

(** [Seq2SeqAgent.test]: [super().test(iters)] passes no keyword argument,
    so the rollouts run with the defaults [train_ml=None], [train_rl=True]
    and [reset=True]. *)
Definition test (fuel : nat) (self : Agent W) (feedback : string)
  (iters : option Z) : option (result (Agent W * Results)) :=
  BaseAgent_test fuel (train_mode false (with_feedback feedback self))
    iters None true true.

Record ResultRow : Type := mkResultRow {
  r_instr_id : string;
  r_trajectory : list PathPoint;
  r_confidence : list (conf_entry W)
}.

Definition get_results (results : Results) : list ResultRow :=
  (fun kv => mkResultRow kv.1 kv.2.1 kv.2.2) <$> results.

End Testing.

Arguments Results : clear implicits.
Arguments ResultRow : clear implicits.

(** ** [model_PREVALENT.BertLayerNorm]

    Over the reals, as [calculate_confidence] above, and on one vector: a
    tensor of higher rank is normalised along its last dimension, one
    vector at a time. *)

Section LayerNorm.

Local Open Scope R_scope.

Record BertLayerNorm : Type := mkBertLayerNorm {
  weight : list R;
  bias : list R;
  variance_epsilon : R
}.

(** [__init__]: ones, zeros and [eps]. *)
Definition BertLayerNorm_init (hidden_size : nat) (eps : R) : BertLayerNorm :=
  {| weight := replicate hidden_size 1;
     bias := replicate hidden_size 0;
     variance_epsilon := eps |}.

(** An elementwise operation of torch on two vectors: a vector of one
    entry is broadcast to the length of the other; any other difference in
    length raises [RuntimeError], here [None]. *)
Definition broadcast2 (f : R -> R -> R) (a b : list R) : option (list R) :=
  if bool_decide (length a = length b) then Some (zip_with f a b)
  else match a, b with
       | [x], _ => Some (f x <$> b)
       | _, [y] => Some ((fun x => f x y) <$> a)
       | _, _ => None
       end.

(** The first three lines of [forward]: [u], [s] and the new [x]. It
    stands for the source where [s + eps] is positive; otherwise the
    source divides by 0 or takes the root of a negative number and returns
    inf or nan. *)
Definition normalise (eps : R) (x : list R) : list R :=
  let u := Rmean x in
  let s := Rmean ((fun a => (a - u) ^ 2) <$> x) in
  (fun a => (a - u) / sqrt (s + eps)) <$> x.

Definition BertLayerNorm_forward (ln : BertLayerNorm) (x : list R)
  : option (list R) :=
  y ← broadcast2 Rmult (weight ln) (normalise (variance_epsilon ln) x);
  broadcast2 Rplus y (bias ln).

End LayerNorm.

(** ** [Seq2SeqAgent.save] and [Seq2SeqAgent.load]

    [save] is modelled up to the dict [states] that it hands to
    [torch.save], [load] from the dict that [torch.load] hands back: the
    file itself is torch's. *)

Section Checkpoint.

(** The tensors of a state dict and the state of an optimizer are torch's. *)
Context {Tensor OptState : Type}.

(** [t.shape] *)
Variable shape : Tensor -> list nat.

(** [optimizer.load_state_dict(state)]: the optimizer state afterwards,
    [None] when torch refuses the state. *)
Variable optimizer_load : OptState -> OptState -> option OptState.

(** [args.loadOptim], from [param.py]. *)
Variable loadOptim : bool.

Definition StateDict : Type := gmap string Tensor.

(** A network with its optimizer: one entry of [all_tuple]. *)
Record Trainable : Type := mkTrainable {
  state_dict : StateDict;
  optimizer : OptState
}.

Record Networks : Type := mkNetworks {
  vln_bert : Trainable;
  critic : Trainable
}.

(** One value of the dict [states]. *)
Record Snapshot : Type := mkSnapshot {
  snap_epoch : Z;
  snap_state_dict : StateDict;
  snap_optimizer : OptState
}.

(** The exceptions of [load]; [OptimizerError] stands for the
    [ValueError] of an optimizer that refuses a state. *)
Inductive load_exn : Type :=
| KeyError (key : string)
| RuntimeError
| OptimizerError.

(** [create_state(name, model, optimizer)] *)
Definition create_state (epoch : Z) (name : string) (m : Trainable)
  (states : gmap string Snapshot) : gmap string Snapshot :=
  <[name := mkSnapshot (epoch + 1) (state_dict m) (optimizer m)]> states.

Definition save (self : Networks) (epoch : Z) : gmap string Snapshot :=
  create_state epoch "critic" (critic self)
    (create_state epoch "vln_bert" (vln_bert self) ∅).

(** What [model.load_state_dict(state)] demands of [state] with its
    default [strict=True]: the keys of the model, no more and no less, and
    for every key a tensor of the shape the model has there. *)
Definition loadable (current state : StateDict) : Prop :=
  dom state = dom current /\
  map_Forall (fun k t => shape <$> current !! k = Some (shape t)) state.

(** [model.load_state_dict(state)]: [None] for its [RuntimeError]. *)
Definition load_state_dict (current state : StateDict) : option StateDict :=
  if bool_decide (loadable current state) then Some state else None.

(** [recover_state(name, model, optimizer)]: the network afterwards and
    whether the notice was printed. [state.update(d)] overwrites the
    entries of [state] with those of [d] and keeps the others. *)
Definition recover_state (states : gmap string Snapshot) (name : string)
  (m : Trainable) : load_exn + Trainable * bool :=
  let state := state_dict m in
  match states !! name with
  | None => inl (KeyError name)
  | Some snap =>
      let notice := bool_decide (dom state <> dom (snap_state_dict snap)) in
      let state' := snap_state_dict snap ∪ state in
      match load_state_dict (state_dict m) state' with
      | None => inl RuntimeError
      | Some loaded =>
          if loadOptim then
            match optimizer_load (optimizer m) (snap_optimizer snap) with
            | None => inl OptimizerError
            | Some o => inr (mkTrainable loaded o, notice)
            end
          else inr (mkTrainable loaded (optimizer m), notice)
      end
  end.

(** [load]: the networks afterwards, how often the notice was printed
    and the returned epoch. *)
Definition load (self : Networks) (states : gmap string Snapshot)
  : load_exn + Networks * nat * Z :=
  match recover_state states "vln_bert" (vln_bert self) with
  | inl e => inl e
  | inr (v, notice_v) =>
      match recover_state states "critic" (critic self) with
      | inl e => inl e
      | inr (c, notice_c) =>
          match states !! "vln_bert" with
          | None => inl (KeyError "vln_bert")
          | Some snap =>
              inr (mkNetworks v c,
                   (if notice_v : bool then 1 else 0)
                   + (if notice_c : bool then 1 else 0),
                   (snap_epoch snap - 1)%Z)
          end
      end
  end.

End Checkpoint.

Arguments StateDict : clear implicits.
Arguments Trainable : clear implicits.
Arguments Networks : clear implicits.
Arguments Snapshot : clear implicits.

(** ** [Seq2SeqAgent._sort_batch] *)

Section SortBatch.

(** [utils.padding_idx] *)
Variable padding_idx : Z.
(** The indices that [seq_lengths.sort(0, True)] returns; torch leaves
    the order of equal lengths open. *)
Variable sort_desc : list nat -> list nat.

Fixpoint first_true (row : list bool) : option nat :=
  match row with
  | [] => None
  | b :: rest => if b then Some 0 else S <$> first_true rest
  end.

(** [np.argmax] along a row of booleans: the index of the first [True],
    and 0 when there is none. *)
Definition np_argmax (row : list bool) : nat := default 0 (first_true row).

(** [seq_tensor.shape[1]]. [None] where [np.array] of the encodings is
    not a matrix with a column, in which case [np.argmax(..., axis=1)]
    raises: an empty batch, rows of different lengths, empty rows. *)
Definition shape1 (rows : list (list Z)) : option nat :=
  match rows with
  | [] => None
  | r :: rest =>
      if bool_decide (Forall (fun r' => length r' = length r) rest)
      then (if length r =? 0 then None else Some (length r))
      else None
  end.

Definition seq_length (width : nat) (row : list Z) : nat :=
  let k := np_argmax ((fun x => bool_decide (x = padding_idx)) <$> row) in
  if k =? 0 then width else k.

Definition mask_row (row : list Z) : list Z :=
  (fun x => if bool_decide (x <> padding_idx) then 1%Z else 0%Z) <$> row.

(** Returns [(sorted_tensor, mask, token_type_ids, seq_lengths, perm_idx)];
    the sorted lengths are the lengths at the indices of the sort. *)
Definition _sort_batch (encodings : list (list Z))
  : option (list (list Z) * list (list Z) * list (list Z)
            * list nat * list nat) :=
  width ← shape1 encodings;
  let seq_lengths := seq_length width <$> encodings in
  let perm_idx := sort_desc seq_lengths in
  sorted_lengths ← mapM (fun i => seq_lengths !! i) perm_idx;
  sorted_tensor ← mapM (fun i => encodings !! i) perm_idx;
  let mask := mask_row <$> sorted_tensor in
  let token_type_ids := (fun row => (fun _ => 0%Z) <$> row) <$> mask in
  Some (sorted_tensor, mask, token_type_ids, sorted_lengths, perm_idx).

End SortBatch.

(** ** [Seq2SeqAgent.make_equiv_action]: the two tilt loops *)

(** The three lists that [makeAction] takes. *)
Definition SimAction : Type := (list Z * list Z * list Z)%type.

Definition env_actions : list (string * SimAction) :=
  [ ("left", ([0], [-1], [0]));
    ("right", ([0], [1], [0]));
    ("up", ([0], [0], [1]));
    ("down", ([0], [0], [-1]));
    ("forward", ([1], [0], [0]));
    ("<end>", ([0], [0], [0]));
    ("<start>", ([0], [0], [0]));
    ("<ignore>", ([0], [0], [0])) ]%Z.

(** [self.env_actions[name]] *)
Definition env_action_named (name : string) : option SimAction :=
  snd <$> find (fun p => String.eqb p.1 name) env_actions.

(** [while src_level < trg_level: take_action(i, idx, 'up'); src_level += 1],
    as the actions handed to the simulator and the final [src_level];
    [None] when the fuel runs out. *)
Fixpoint tune_up (fuel : nat) (src_level trg_level : Z)
  : option (list SimAction * Z) :=
  if (src_level <? trg_level)%Z then
    match fuel with
    | 0 => None
    | S fuel' =>
        a ← env_action_named "up";
        '(acts, lvl) ← tune_up fuel' (src_level + 1)%Z trg_level;
        Some (a :: acts, lvl)
    end
  else Some ([], src_level).

(** [while src_level > trg_level: take_action(i, idx, 'down'); src_level -= 1] *)
Fixpoint tune_down (fuel : nat) (src_level trg_level : Z)
  : option (list SimAction * Z) :=
  if (src_level >? trg_level)%Z then
    match fuel with
    | 0 => None
    | S fuel' =>
        a ← env_action_named "down";
        '(acts, lvl) ← tune_down fuel' (src_level - 1)%Z trg_level;
        Some (a :: acts, lvl)
    end
  else Some ([], src_level).

(** The levels of the two points and both loops, one after the other. *)
Definition tilt (fuel : nat) (ob : Obs) (select_candidate : Candidate)
  : option (list SimAction * Z) :=
  let src_point := viewIndex ob in
  let trg_point := c_pointId select_candidate in
  let src_level := (src_point `div` 12)%Z in
  let trg_level := (trg_point `div` 12)%Z in
  '(ups, src_level) ← tune_up fuel src_level trg_level;
  '(downs, src_level) ← tune_down fuel src_level trg_level;
  Some (ups ++ downs, src_level).

(** * Concrete scenarios

    Small closed inputs on which the definitions above are evaluated. *)

(** ** A small concrete world

    The simulator counts the moves made: the observations after [s] moves
    are [obs_at s]. The transformer answers with [logits_for] the
    observations it is shown, every move succeeds, the nDTW score is 0. *)

Definition demo_world (obs_at : nat -> list Obs)
  (logits_for : list Obs -> list (list xlogit)) : World :=
  {| Hidden := unit; LangFeat := unit; Aux := unit; Score := unit; Sim := nat;
     env_reset := fun _ => (0, obs_at 0);
     env_get_obs := obs_at;
     sim_move := fun s _ _ c => Ok (S s, (c_viewpointId c, 0%Q, 0%Q));
     sort_batch := fun obs => Ok (seq 0 (length obs));
     ndtw := fun _ _ _ => 0%Q;
     bert_language := fun _ _ _ => (tt, tt);
     bert_visual := fun _ _ _ _ obs => (tt, logits_for obs, tt);
     cat_state := fun _ _ => tt;
     critic_net := fun _ => [];
     confidence_of := fun l => match l with
                               | [] => []
                               | m :: _ => (fun _ => tt) <$> m
                               end;
     args_ignoreid := (-100)%Z;
     args_normalize_loss := "total";
     numpy_weak_promotion := true |}.

(** A network in evaluation mode, as [test] leaves it before a rollout. *)
Definition eval_torch : Torch :=
  {| net := set_training false (VLNBERT_init []);
     grad_enabled := true;
     passes := [] |}.

Definition demo_agent (W : World) (fb : string) (len : nat) (s : Sim W) : Agent W :=
  {| feedback := fb; episode_len := len; env := s; torch := eval_torch;
     critic_calls := 0; loss := mkLoss PyInt []; losses := 0; logs := [] |}.

(** Candidates [A] and [B], the agent at [current], the oracle's next
    viewpoint [oracle]. *)
Definition obs_AB (current oracle : string) : Obs :=
  {| instr_id := "i0"; scan := "s"; viewpoint := current; viewIndex := 0;
     heading := 0; elevation := 0;
     candidate := [mkCandidate "A" 0 0; mkCandidate "B" 1 1];
     teacher := oracle; gt_path := []; distance := 0 |}.

(** An observation at viewpoint [vp], [d] away from the goal, whose oracle
    says to stay. *)
Definition scene_obs (id vp : string) (d : Q) (cands : list Candidate) : Obs :=
  {| instr_id := id; scan := "s"; viewpoint := vp; viewIndex := 0;
     heading := 0; elevation := 0; candidate := cands;
     teacher := vp; gt_path := []; distance := d |}.

(** Logits that favour the first slot of every instance. *)
Definition prefer_first (obs : list Obs) : list (list xlogit) :=
  (fun _ => [Fin 5; Fin 0]) <$> obs.

(** One instance that walks from [A] to [B]; both are 5 away from the goal. *)
Definition still_walk (s : nat) : list Obs :=
  match s with
  | O => [scene_obs "i0" "A" 5 [mkCandidate "B" 0 0]]
  | _ => [scene_obs "i0" "B" 5 [mkCandidate "A" 0 0]]
  end.

Definition still_world : World := demo_world still_walk prefer_first.

(** One instance that walks from [A], 4 away from the goal, to [B], 2.5
    away. *)
Definition closer_walk (s : nat) : list Obs :=
  match s with
  | O => [scene_obs "i0" "A" 4 [mkCandidate "B" 0 0]]
  | _ => [scene_obs "i0" "B" (5 # 2) [mkCandidate "A" 0 0]]
  end.

Definition closer_world : World := demo_world closer_walk prefer_first.

(** Two instances: the first has one candidate (candidate count 2 with
    the stop slot), the second has two (count 3). The logits have three
    columns; the third slot of the first row is padding, and the
    transformer scores that padding slot highest. *)
Definition pad_obs : list Obs :=
  [scene_obs "i0" "A" 5 [mkCandidate "B" 0 0];
   scene_obs "i1" "C" 5 [mkCandidate "D" 0 0; mkCandidate "E" 1 1]].

Definition pad_world : World :=
  demo_world (fun _ => pad_obs)
    (fun _ => [[Fin 0; Fin 1; Fin 5]; [Fin 5; Fin 0; Fin 0]]).

(** Two instances without candidates: the only slot of each is the stop
    slot, so both stop at the first step whatever the logits. *)
Definition stop_obs : list Obs :=
  [scene_obs "i0" "A" 5 []; scene_obs "i1" "C" 2 []].

Definition stop_world : World :=
  demo_world (fun _ => stop_obs) (fun _ => [[Fin 0]; [Fin 0]]).

(** One instance without candidates, 2.99999999 away from the goal: it
    stops at the first step. *)
Definition near_obs : list Obs :=
  [scene_obs "i0" "A" (299999999 # 100000000) []].

Definition near_world : World :=
  demo_world (fun _ => near_obs) (fun _ => [[Fin 0]]).

(** An ensemble of two passes over one instance with two candidates. *)
Definition two_pass_logits : list (list (list R)) :=
  [[[1; 2]]; [[3; 4]]]%R.

(** * Properties *)

(** ** Generic facts about the Python layer *)

Lemma getitem_Ok {A : Type} (l : list A) (i : nat) (x : A) :
  getitem l i = Ok x <-> l !! i = Some x.
Proof.
  unfold getitem. destruct (l !! i); split; intros H; congruence.
Qed.

Lemma getitem_lt {A : Type} (l : list A) (i : nat) :
  i < length l -> exists x, getitem l i = Ok x /\ l !! i = Some x.
Proof.
  intros Hlt. destruct (lookup_lt_is_Some_2 l i Hlt) as [x Hx].
  exists x. split; [by apply getitem_Ok | done].
Qed.

Lemma setitem_Ok {A : Type} (l l' : list A) (i : nat) (v : A) :
  setitem l i v = Ok l' <-> i < length l /\ l' = <[i := v]> l.
Proof.
  unfold setitem. case_bool_decide; split.
  - intros [= <-]. done.
  - intros [_ ->]. done.
  - intros [=].
  - intros [? _]. lia.
Qed.

Lemma bind_Ok {A B : Type} (r : result A) (k : A -> result B) (b : B) :
  (r ≫= k) = Ok b <-> exists a, r = Ok a /\ k a = Ok b.
Proof.
  destruct r as [a|e]; simpl; split.
  - intros H. by exists a.
  - intros (a' & [= <-] & H). done.
  - intros [=].
  - intros (a' & [=] & _).
Qed.

(** ** The teacher resolver *)

Section TeacherFacts.

Variable ignoreid : Z.

Lemma scan_candidates_Some k cands target n :
  scan_candidates k cands target = Some n ->
  exists j c, n = k + j /\ cands !! j = Some c /\ c_viewpointId c = target /\
    forall j' c', j' < j -> cands !! j' = Some c' -> c_viewpointId c' <> target.
Proof.
  revert k. induction cands as [|c0 rest IH]; intros k; simpl; [done|].
  destruct (String.eqb_spec (c_viewpointId c0) target) as [Heq|Hne].
  - intros [= <-]. exists 0, c0. repeat split; [lia | done | lia].
  - intros H. destruct (IH _ H) as (j & c & -> & Hj & Hc & Hfirst).
    exists (S j), c. repeat split; [lia | done | done |].
    intros [|j'] c' Hlt; simpl.
    + intros [= <-]. done.
    + apply Hfirst. lia.
Qed.

Lemma scan_candidates_None k cands target :
  scan_candidates k cands target = None <->
  forall c, c ∈ cands -> c_viewpointId c <> target.
Proof.
  revert k. induction cands as [|c0 rest IH]; intros k; simpl.
  - split; [|done]. intros _ c Hc. by apply not_elem_of_nil in Hc.
  - destruct (String.eqb_spec (c_viewpointId c0) target) as [Heq|Hne].
    + split; [done|]. intros H. exfalso. apply (H c0); [left | done].
    + rewrite IH. split.
      * intros H c Hc. apply elem_of_cons in Hc as [->|Hc]; auto.
      * intros H c Hc. apply H. by right.
Qed.

(** The first match decides the label: a candidate that matches and has
    no match before it is where the scan stops. *)
Lemma scan_candidates_first cands target k c :
  cands !! k = Some c -> c_viewpointId c = target ->
  (forall j c', j < k -> cands !! j = Some c' -> c_viewpointId c' <> target) ->
  scan_candidates 0 cands target = Some k.
Proof.
  intros Hk Hc Hfirst.
  destruct (scan_candidates 0 cands target) as [n|] eqn:Hscan.
  - apply scan_candidates_Some in Hscan as (j & c1 & -> & Hj & Hc1 & Hmin).
    simpl. f_equal.
    destruct (Nat.lt_trichotomy j k) as [Hlt|[->|Hgt]]; [|done|].
    + exfalso. by apply (Hfirst j c1).
    + exfalso. by apply (Hmin k c).
  - exfalso. rewrite scan_candidates_None in Hscan.
    apply (Hscan c); [|done]. by eapply list_elem_of_lookup_2.
Qed.

Lemma teacher_label_raise ob e x :
  teacher_label ignoreid ob e = Raise x ->
  x = AssertionError /\ e = false /\
  (forall c, c ∈ candidate ob -> c_viewpointId c <> teacher ob) /\
  teacher ob <> viewpoint ob.
Proof.
  unfold teacher_label. destruct e; [done|].
  destruct (scan_candidates 0 (candidate ob) (teacher ob)) eqn:Hscan; [done|].
  destruct (String.eqb_spec (teacher ob) (viewpoint ob)); [done|].
  intros [= <-]. repeat split; [|done].
  by apply (scan_candidates_None 0).
Qed.

(** The loop writes, at every index it visits, the label of that
    instance, and leaves the entries before its start alone. *)
Lemma teacher_loop_Ok ended obs : forall i a a',
  teacher_loop ignoreid i obs ended a = Ok a' ->
  i + length obs <= length a ->
  length a' = length a /\
  (forall j, j < i -> a' !! j = a !! j) /\
  (forall j ob, obs !! j = Some ob ->
     exists e, ended !! (i + j) = Some e /\
               (teacher_label ignoreid ob e ≫= fun v => Ok (Some v)) = Ok (a' !! (i + j))).
Proof.
  induction obs as [|ob0 rest IH]; intros i a a'; simpl.
  - intros [= <-] _. split; [done|]. split; [done|].
    intros j ob. by rewrite lookup_nil.
  - intros Hrun Hlen.
    apply bind_Ok in Hrun as (e & He & Hrun).
    apply bind_Ok in Hrun as (v & Hv & Hrun).
    apply IH in Hrun as (Hlen' & Hbefore & Hat);
      [|rewrite length_insert; lia].
    rewrite length_insert in Hlen'.
    split; [done|]. split.
    + intros j Hj. rewrite Hbefore by lia.
      apply list_lookup_insert_ne. lia.
    + intros [|j] ob; simpl.
      * intros [= <-]. exists e. split.
        { rewrite Nat.add_0_r. by apply getitem_Ok. }
        rewrite Hv. simpl. rewrite Nat.add_0_r, Hbefore by lia.
        rewrite list_lookup_insert_eq by lia. done.
      * intros Hj. destruct (Hat j ob Hj) as (e' & He' & Hlab).
        exists e'. by rewrite <- Nat.add_succ_comm.
Qed.

(** The loop fails only on an index outside [ended] or at an instance
    whose label is the failed assertion. *)
Lemma teacher_loop_total ended obs : forall i a,
  i + length obs <= length ended ->
  (forall j ob, obs !! j = Some ob -> ended !! (i + j) = Some false ->
     (forall c, c ∈ candidate ob -> c_viewpointId c <> teacher ob) ->
     teacher ob = viewpoint ob) ->
  exists a', teacher_loop ignoreid i obs ended a = Ok a'.
Proof.
  induction obs as [|ob0 rest IH]; intros i a; simpl; [by eexists|].
  intros Hlen Hok.
  destruct (getitem_lt ended i) as (e & -> & He); [lia|]. simpl.
  destruct (teacher_label ignoreid ob0 e) as [v|x] eqn:Hlab; simpl.
  - apply IH; [lia|]. intros j ob Hj Hej. apply (Hok (S j) ob Hj).
    by rewrite Nat.add_succ_r.
  - exfalso. apply teacher_label_raise in Hlab as (_ & -> & Hno & Hne).
    apply Hne, (Hok 0 ob0); [done | by rewrite Nat.add_0_r | done].
Qed.

Lemma teacher_loop_Raise ended obs : forall i a,
  i + length obs <= length ended ->
  (exists j ob, obs !! j = Some ob /\ ended !! (i + j) = Some false /\
     (forall c, c ∈ candidate ob -> c_viewpointId c <> teacher ob) /\
     teacher ob <> viewpoint ob) ->
  teacher_loop ignoreid i obs ended a = Raise AssertionError.
Proof.
  induction obs as [|ob0 rest IH]; intros i a; simpl.
  - intros _ (j & ob & Hj & _). by rewrite lookup_nil in Hj.
  - intros Hlen (j & ob & Hj & Hej & Hno & Hne).
    destruct (getitem_lt ended i) as (e & -> & He); [lia|]. simpl.
    destruct (teacher_label ignoreid ob0 e) as [v|x] eqn:Hlab; simpl.
    + destruct j as [|j].
      * exfalso. simpl in Hj. injection Hj as <-.
        rewrite Nat.add_0_r, He in Hej. injection Hej as ->.
        unfold teacher_label in Hlab.
        apply (scan_candidates_None 0) in Hno. rewrite Hno in Hlab.
        destruct (String.eqb_spec (teacher ob0) (viewpoint ob0)); done.
      * apply IH; [lia|]. exists j, ob. repeat split; try done.
        by rewrite Nat.add_succ_comm.
    + apply teacher_label_raise in Hlab as (-> & _). done.
Qed.

End TeacherFacts.

(** C7. The teacher resolver labels a batch as follows, for observations
    [obs] and flags [ended] (one flag per observation). If some instance
    that has not ended has no candidate at the oracle's next viewpoint and
    the oracle's viewpoint differs from the current one, the call fails its
    assertion. Otherwise it returns one label per instance: the ignore
    label for an ended instance; for an instance that has not ended, the
    index of the first candidate whose viewpoint is the oracle's, and the
    number of candidates (the stop slot) when no candidate matches, in
    which case the oracle's viewpoint is the current one. *)
Theorem teacher_action_labels (ignoreid : Z) (obs : list Obs) (ended : list bool) :
  length ended = length obs ->
  ((exists i ob, obs !! i = Some ob /\ ended !! i = Some false /\
      (forall c, c ∈ candidate ob -> c_viewpointId c <> teacher ob) /\
      teacher ob <> viewpoint ob) ->
   _teacher_action ignoreid obs ended = Raise AssertionError) /\
  ((forall i ob, obs !! i = Some ob -> ended !! i = Some false ->
      (forall c, c ∈ candidate ob -> c_viewpointId c <> teacher ob) ->
      teacher ob = viewpoint ob) ->
   exists a, _teacher_action ignoreid obs ended = Ok a /\
     length a = length obs /\
     forall i ob, obs !! i = Some ob ->
       (ended !! i = Some true -> a !! i = Some ignoreid) /\
       (ended !! i = Some false ->
          (forall k c, candidate ob !! k = Some c ->
             c_viewpointId c = teacher ob ->
             (forall j c', j < k -> candidate ob !! j = Some c' ->
                           c_viewpointId c' <> teacher ob) ->
             a !! i = Some (Z.of_nat k)) /\
          ((forall c, c ∈ candidate ob -> c_viewpointId c <> teacher ob) ->
             teacher ob = viewpoint ob /\
             a !! i = Some (Z.of_nat (length (candidate ob)))))).
Proof.
  intros Hlen. unfold _teacher_action. split.
  - intros Hbad. apply teacher_loop_Raise; [simpl; lia|]. exact Hbad.
  - intros Hok.
    destruct (teacher_loop_total ignoreid ended obs 0 (replicate (length obs) 0%Z))
      as [a Ha]; [simpl; lia | exact Hok |].
    exists a. split; [done|].
    apply teacher_loop_Ok in Ha as (Hla & _ & Hat);
      [|rewrite length_replicate; simpl; lia].
    rewrite length_replicate in Hla. split; [done|].
    intros i ob Hi. destruct (Hat i ob Hi) as (e & He & Hlab). simpl in He, Hlab.
    split.
    + intros Hended. rewrite He in Hended. injection Hended as ->.
      simpl in Hlab. congruence.
    + intros Hactive. rewrite He in Hactive. injection Hactive as ->.
      unfold teacher_label in Hlab. split.
      * intros k c Hk Hc Hfirst.
        rewrite (scan_candidates_first _ _ k c Hk Hc Hfirst) in Hlab.
        simpl in Hlab. congruence.
      * intros Hno. pose proof Hno as Hscan.
        apply (scan_candidates_None 0) in Hscan. rewrite Hscan in Hlab.
        destruct (String.eqb_spec (teacher ob) (viewpoint ob)) as [Heq|Hne];
          simpl in Hlab; [split; congruence | done].
Qed.

(** The third example of the specification: the oracle's viewpoint is
    neither among the candidates nor the current one. *)
Example teacher_action_mismatch :
  _teacher_action (-100) [obs_AB "C" "D"] [false] = Raise AssertionError.
Proof. reflexivity. Qed.

Lemma teacher_action_labels_witness :
  exists a, _teacher_action (-100) [obs_AB "C" "B"; obs_AB "C" "C"; obs_AB "C" "A"]
              [false; false; true] = Ok a /\
            a = [1; 2; -100]%Z.
Proof.
  destruct (teacher_action_labels (-100)
              [obs_AB "C" "B"; obs_AB "C" "C"; obs_AB "C" "A"]
              [false; false; true] eq_refl) as [_ H].
  destruct H as (a & Ha & _).
  - intros [|[|[|i]]] ob; simpl; intros [= <-] Hactive Hno;
      try discriminate; [|reflexivity].
    exfalso. apply (Hno (mkCandidate "B" 1 1)); [right; left | reflexivity].
  - exists a. split; [exact Ha|].
    vm_compute in Ha. congruence.
Defined.

(** ** The encoder wrapper *)

Section ModelFacts.

Context (W : World).

Lemma enable_dropout_active (m : VLNBERT) :
  existsb is_dropout (modules m) = true ->
  dropout_active (enable_dropout m) = true.
Proof.
  unfold dropout_active, enable_dropout. simpl.
  induction (modules m) as [|md rest IH]; simpl; [done|].
  destruct (is_dropout md) eqn:Hd; simpl.
  - intros _. by rewrite ?Hd.
  - intros H. rewrite ?Hd. simpl. by apply IH.
Qed.

Lemma enable_dropout_idem (m : VLNBERT) :
  enable_dropout (enable_dropout m) = enable_dropout m.
Proof.
  unfold enable_dropout. simpl. f_equal.
  rewrite <- list_fmap_compose. apply list_fmap_ext.
  intros _ md _. simpl. destruct (is_dropout md) eqn:Hd; simpl; by rewrite ?Hd.
Qed.

(** A visual pass on proper inputs returns a triple and records itself. *)
Lemma forward_visual (tc : Torch) (h : Hidden W) (lang : LangFeat W) (obs : list Obs) :
  exists sp logit c,
    forward tc "visual" (mkInputs (Some (h, lang)) obs) =
      (record_pass "visual" tc
         (if mc_dropout (net tc) then enable_dropout (net tc) else net tc),
       Ok (VisualOutput sp logit c)) /\
    (sp, logit, c) =
      bert_visual W
        (modules (if mc_dropout (net tc) then enable_dropout (net tc) else net tc))
        (length (passes tc)) h lang obs.
Proof.
  unfold forward. simpl.
  destruct (bert_visual W _ _ h lang obs) as [[sp logit] c] eqn:Hb.
  exists sp, logit, c. split; [done|]. by rewrite <- Hb.
Qed.

(** The sampling loop under the flag [mc_dropout]: every pass succeeds,
    runs with the gradient mode it found and with dropout enabled. *)
Lemma mc_passes_visual (h : Hidden W) (lang : LangFeat W) (obs : list Obs) :
  forall n tc outputs,
    mc_dropout (net tc) = true ->
    n <> 0 ->
    exists tc' new news,
      mc_passes (W:=W) n tc "visual" (mkInputs (Some (h, lang)) obs) outputs =
        (tc', Ok (outputs ++ new)) /\
      length new = n /\
      net tc' = enable_dropout (net tc) /\
      grad_enabled tc' = grad_enabled tc /\
      passes tc' = news ++ passes tc /\
      length news = n /\
      Forall (fun p => p_mode p = "visual" /\ p_grad p = grad_enabled tc /\
                       p_stochastic p = dropout_active (enable_dropout (net tc)))
             news.
Proof.
  induction n as [|n IH]; intros tc outputs Hmc Hn; [done|]. simpl.
  destruct (forward_visual tc h lang obs) as (sp & logit & c & -> & _).
  rewrite Hmc.
  set (tc1 := record_pass "visual" tc (enable_dropout (net tc))).
  destruct n as [|n].
  - simpl. exists tc1, [VisualOutput sp logit c], [mkPass "visual" (grad_enabled tc)
                     (dropout_active (enable_dropout (net tc)))].
    repeat split; try done. by repeat constructor.
  - destruct (IH tc1 (outputs ++ [VisualOutput sp logit c]))
      as (tc' & new & news & Hrun & Hlen & Hnet & Hgrad & Hpasses & Hlen' & Hall);
      [done | done |].
    rewrite Hrun. exists tc', (VisualOutput sp logit c :: new),
      (news ++ [mkPass "visual" (grad_enabled tc)
                  (dropout_active (enable_dropout (net tc)))]).
    split; [by rewrite <- app_assoc|].
    split; [simpl; lia|].
    split; [by rewrite Hnet; simpl; rewrite enable_dropout_idem|].
    split; [done|].
    split; [by rewrite Hpasses, <- app_assoc|].
    split; [rewrite length_app; simpl; lia|].
    apply Forall_app. split.
    + simpl in Hall. rewrite enable_dropout_idem in Hall. exact Hall.
    + by repeat constructor.
Qed.

End ModelFacts.

Lemma eval_mode_inactive (m : VLNBERT) :
  dropout_active (set_training false m) = false.
Proof.
  unfold dropout_active, set_training. simpl.
  induction (modules m) as [|md rest IH]; simpl; [done|].
  by rewrite andb_false_r.
Qed.

Lemma init_has_dropout (inner : list Module) (mode : bool) :
  existsb is_dropout (modules (set_training mode (VLNBERT_init inner))) = true.
Proof.
  unfold set_training, VLNBERT_init. simpl.
  rewrite fmap_app. change (@fmap list _) with (@map) at 1.
  induction inner as [|md rest IH]; simpl.
  - done.
  - destruct (is_dropout md); simpl; [done|]. exact IH.
Qed.

(** C4. What the Monte Carlo pass does to a network that is in evaluation
    mode (every sub-module, the dropout layers included, has
    [training = False]): it runs [mc_dropout_samples = 10] visual passes,
    more than one, every one of them with gradient tracking off and dropout
    stochastic; on return gradient tracking is as it was and the flag
    [mc_dropout] is [False] again; but the dropout layers are still in
    training mode, and the canonical forward pass that follows runs
    stochastically. *)
Theorem monte_carlo_forward_keeps_dropout_on (W : World) (inner : list Module)
  (g : bool) (ps : list Pass) (h : Hidden W) (lang : LangFeat W) (obs : list Obs) :
  let tc := mkTorch (set_training false (VLNBERT_init inner)) g ps in
  let inp := mkInputs (Some (h, lang)) obs in
  dropout_active (net tc) = false /\
  exists tc' outputs news,
    monte_carlo_forward (W:=W) tc "visual" inp = (tc', Ok outputs) /\
    length outputs = 10 /\ 1 < length outputs /\
    passes tc' = news ++ ps /\ length news = 10 /\
    Forall (fun p => p_grad p = false /\ p_stochastic p = true) news /\
    grad_enabled tc' = g /\
    mc_dropout (net tc') = false /\
    dropout_active (net tc') = true /\
    exists tc'' out,
      forward (W:=W) tc' "visual" inp = (tc'', Ok out) /\
      head (passes tc'') = Some (mkPass "visual" g true).
Proof.
  intros tc inp. split; [apply eval_mode_inactive|].
  unfold monte_carlo_forward.
  set (tc1 := set_net (enable_dropout (set_mc_dropout true (net tc))) tc).
  destruct (mc_passes_visual W h lang obs 10 (set_grad false tc1) [])
    as (tc2 & new & news & Hrun & Hlen & Hnet & Hgrad & Hpasses & Hlen' & Hall);
    [done | done |].
  change (mc_dropout_samples (net tc1)) with 10.
  fold inp in Hrun. rewrite Hrun. simpl in Hrun, Hnet, Hgrad, Hpasses, Hall.
  assert (Hactive : dropout_active (net tc2) = true).
  { rewrite Hnet. rewrite enable_dropout_idem.
    apply enable_dropout_active. simpl. apply (init_has_dropout inner false). }
  eexists _, new, news. split; [reflexivity|].
  split; [done|]. split; [lia|]. split; [done|]. split; [done|].
  split.
  { eapply Forall_impl; [exact Hall|]. intros p (_ & Hg & Hs). split; [done|].
    rewrite Hs, <- Hnet. exact Hactive. }
  split; [done|]. split; [done|]. split; [exact Hactive|].
  match goal with |- context [forward ?t _ _] => set (tc3 := t) end.
  destruct (forward_visual W tc3 h lang obs) as (sp & logit & c & Hf & _).
  fold inp in Hf. rewrite Hf. eexists _, _. split; [reflexivity|].
  simpl. f_equal. f_equal. exact Hactive.
Qed.

(** C9. A call of [forward] with a mode tag other than ['language'] and
    ['visual'] does not raise: it returns [None]. *)
Theorem forward_unsupported_mode_returns_None (W : World) (tc : Torch)
  (mode : string) (inp : Inputs W) :
  mode <> "language" -> mode <> "visual" ->
  (forward tc mode inp).2 = Ok PyNone.
Proof.
  intros Hl Hv. unfold forward.
  destruct (String.eqb_spec mode "language"); [done|].
  destruct (String.eqb_spec mode "visual"); [done|].
  reflexivity.
Qed.

Lemma forward_unsupported_mode_returns_None_witness :
  (forward (W:=demo_world (fun _ => []) (fun _ => [])) eval_torch "panoramic"
     (mkInputs None [])).2 = Ok PyNone.
Proof.
  apply forward_unsupported_mode_returns_None; discriminate.
Defined.

(** ** Floating point numbers *)

Section FloatFacts.

Local Open Scope Q_scope.

Lemma two_neq_0 : ~ 2 == 0.
Proof. discriminate. Qed.

Lemma pow2_pos (e : Z) : 0 < 2 ^ e.
Proof. apply Qpower_0_lt. reflexivity. Qed.

Lemma pow2_Z (e : Z) : (0 <= e)%Z -> 2 ^ e == inject_Z (2 ^ e).
Proof. intros He. symmetry. apply (Zpower_Qpower 2 e He). Qed.

Lemma pow2_succ (e : Z) : 2 ^ (e + 1) == 2 * 2 ^ e.
Proof. rewrite Qpower_plus by apply two_neq_0. change (2 ^ 1) with 2. ring. Qed.

Lemma pow2_lt_inv (a b : Z) : 2 ^ a < 2 ^ b -> (a < b)%Z.
Proof. intros H. apply (Qpower_lt_compat_l_inv 2); [exact H | reflexivity]. Qed.

Lemma pow2_le (a b : Z) : (a <= b)%Z -> 2 ^ a <= 2 ^ b.
Proof. intros H. apply Qpower_le_compat_l; [exact H | discriminate]. Qed.

Lemma pow2_lt (a b : Z) : (a < b)%Z -> 2 ^ a < 2 ^ b.
Proof. intros H. apply Qpower_lt_compat_l; [exact H | reflexivity]. Qed.

(** The binade of [q] is the one power of two range that holds [|q|]. *)
Lemma binade_spec (q : Q) :
  ~ q == 0 -> 2 ^ binade q <= Qabs q /\ Qabs q < 2 ^ (binade q + 1).
Proof.
  intros Hq. unfold binade.
  set (e := (Z.log2 (Z.abs (Qnum q)) - Z.log2 (Z.pos (Qden q)))%Z).
  assert (Hup : Qabs q < 2 ^ (e + 1) /\ 2 ^ (e - 1) <= Qabs q).
  { destruct q as [n d]. unfold e. cbn [Qnum Qden Qabs].
    assert (Hn : (0 < Z.abs n)%Z).
    { assert (n <> 0%Z); [|lia]. intros ->. apply Hq. reflexivity. }
    pose proof (Z.log2_spec _ Hn) as [Hn1 Hn2].
    assert (Hd : (0 < Z.pos d)%Z) by lia.
    pose proof (Z.log2_spec _ Hd) as [Hd1 Hd2].
    pose proof (Z.log2_nonneg (Z.abs n)) as Hln.
    pose proof (Z.log2_nonneg (Z.pos d)) as Hld.
    set (ln := Z.log2 (Z.abs n)) in *. set (ld := Z.log2 (Z.pos d)) in *.
    rewrite Qmake_Qdiv.
    replace (ln - ld + 1)%Z with ((ln + 1) - ld)%Z by lia.
    replace (ln - ld - 1)%Z with (ln - (ld + 1))%Z by lia.
    rewrite !Qpower_minus by apply two_neq_0.
    rewrite (pow2_Z (ln + 1)), (pow2_Z ld), (pow2_Z ln), (pow2_Z (ld + 1)) by lia.
    unfold Z.succ in *.
    assert (P1 : (0 < 2 ^ ld)%Z) by (apply Z.pow_pos_nonneg; lia).
    assert (P2 : (0 < 2 ^ (ld + 1))%Z) by (apply Z.pow_pos_nonneg; lia).
    assert (Q1 : 0 < inject_Z (2 ^ ld)).
    { change 0 with (inject_Z 0). rewrite <- Zlt_Qlt. lia. }
    assert (Q2 : 0 < inject_Z (2 ^ (ld + 1))).
    { change 0 with (inject_Z 0). rewrite <- Zlt_Qlt. lia. }
    assert (Q3 : 0 < inject_Z (Z.pos d)).
    { change 0 with (inject_Z 0). rewrite <- Zlt_Qlt. lia. }
    split.
    - apply Qlt_shift_div_l; [exact Q1|].
      unfold Qdiv. rewrite <- Qmult_assoc, (Qmult_comm (/ _)), Qmult_assoc.
      apply Qlt_shift_div_r; [exact Q3|].
      rewrite <- !inject_Z_mult, <- Zlt_Qlt. nia.
    - apply Qle_shift_div_l; [exact Q3|].
      unfold Qdiv. rewrite <- Qmult_assoc, (Qmult_comm (/ _)), Qmult_assoc.
      apply Qle_shift_div_r; [exact Q2|].
      rewrite <- !inject_Z_mult, <- Zle_Qle. nia. }
  destruct Hup as [Hup Hlow].
  destruct (Qle_bool (2 ^ e) (Qabs q)) eqn:Hle.
  - apply Qle_bool_iff in Hle. split; assumption.
  - assert (Hlt : Qabs q < 2 ^ e).
    { apply Qnot_le_lt. intros H. apply Qle_bool_iff in H. congruence. }
    replace (e - 1 + 1)%Z with e by lia. split; assumption.
Qed.

Lemma binade_unique (q : Q) (e : Z) :
  2 ^ e <= Qabs q -> Qabs q < 2 ^ (e + 1) -> binade q = e.
Proof.
  intros H1 H2.
  assert (Hq : ~ q == 0).
  { intros H0. rewrite H0 in H1. change (Qabs 0) with 0 in H1.
    pose proof (pow2_pos e). lra. }
  destruct (binade_spec q Hq) as [B1 B2].
  assert (binade q < e + 1)%Z by (apply pow2_lt_inv; lra).
  assert (e < binade q + 1)%Z by (apply pow2_lt_inv; lra).
  lia.
Qed.

Lemma rint_comp (x y : Q) : x == y -> rint x = rint y.
Proof.
  intros H. unfold rint. rewrite (Qfloor_comp _ _ H).
  assert (Hc : Qcompare (x - inject_Z (Qfloor y)) (1 # 2)
               = Qcompare (y - inject_Z (Qfloor y)) (1 # 2)).
  { apply Qcompare_comp; [by rewrite H | reflexivity]. }
  by rewrite Hc.
Qed.

Lemma rint_Z (k : Z) : rint (inject_Z k) = k.
Proof.
  unfold rint. rewrite Qfloor_Z.
  assert (H : Qcompare (inject_Z k - inject_Z k) (1 # 2) = Lt).
  { apply (proj1 (Qlt_alt _ _)). generalize (inject_Z k). intros x. lra. }
  by rewrite H.
Qed.

Lemma rint_cases (x : Q) :
  rint x = Qfloor x /\ x - inject_Z (Qfloor x) <= 1 # 2 \/
  rint x = (Qfloor x + 1)%Z /\ 1 # 2 <= x - inject_Z (Qfloor x).
Proof.
  unfold rint.
  destruct (Qcompare (x - inject_Z (Qfloor x)) (1 # 2)) eqn:Hc.
  - apply (proj2 (Qeq_alt _ _)) in Hc. destruct (Z.even (Qfloor x)); [left|right]; (split; [reflexivity | lra]).
  - apply (proj2 (Qlt_alt _ _)) in Hc. left. split; [reflexivity | lra].
  - apply (proj2 (Qgt_alt _ _)) in Hc. right. split; [reflexivity | lra].
Qed.

Lemma rint_le (x : Q) (N : Z) : x <= inject_Z N -> (rint x <= N)%Z.
Proof.
  intros H. pose proof (Qfloor_le x) as Hf.
  assert (Hfn : (Qfloor x <= N)%Z).
  { rewrite Zle_Qle. lra. }
  destruct (rint_cases x) as [[-> _]|[-> Hhalf]]; [done|].
  destruct (Z.eq_dec (Qfloor x) N) as [Heq|Hne]; [|lia].
  rewrite Heq in Hhalf. lra.
Qed.

Lemma rint_ge (x : Q) (N : Z) : inject_Z N <= x -> (N <= rint x)%Z.
Proof.
  intros H. apply Qfloor_resp_le in H. rewrite Qfloor_Z in H.
  destruct (rint_cases x) as [[-> _]|[-> _]]; lia.
Qed.

Lemma Qred_idem (q : Q) : Qred (Qred q) = Qred q.
Proof. apply Qred_complete, Qred_correct. Qed.

Section Format.

Variables prec emin : Z.
Hypothesis prec_pos : (0 < prec)%Z.


Lemma round_binary_0 (x : Q) : x == 0 -> round_binary prec emin x = 0.
Proof.
  intros H. unfold round_binary. rewrite (Qred_complete _ _ H). reflexivity.
Qed.

(** What [round_binary] returns: an integer of at most [prec] binary
    digits, or [2 ^ prec], times a power of two that is at least
    [2 ^ emin]. *)
Lemma round_binary_format (q : Q) :
  exists (k ex : Z),
    round_binary prec emin q = Qred (inject_Z k * 2 ^ ex) /\
    (emin <= ex)%Z /\ (Z.abs k <= 2 ^ prec)%Z /\
    (~ q == 0 ->
       ex = Z.max (binade (Qred q) - (prec - 1)) emin /\
       k = rint (q / 2 ^ ex)).
Proof using prec_pos.
  unfold round_binary.
  destruct (Qeq_bool (Qred q) 0) eqn:Hz.
  - apply Qeq_bool_iff in Hz. rewrite Qred_correct in Hz.
    exists 0%Z, emin. split.
    + symmetry. apply (Qred_complete _ 0). ring.
    + split; [lia|]. split; [|done].
      pose proof (Z.pow_nonneg 2 prec). simpl. lia.
  - assert (Hq : ~ Qred q == 0).
    { intros H. apply Qeq_bool_iff in H. congruence. }
    set (e := binade (Qred q)).
    set (ex := Z.max (e - (prec - 1)) emin).
    exists (rint (Qred q / 2 ^ ex)), ex.
    split; [done|]. split; [lia|]. split.
    + destruct (binade_spec _ Hq) as [_ Hup]. fold e in Hup.
      assert (Hb : Qabs (Qred q / 2 ^ ex) <= inject_Z (2 ^ prec)).
      { unfold Qdiv. rewrite Qabs_Qmult, Qabs_Qinv.
        rewrite (Qabs_pos (2 ^ ex)) by (apply Qlt_le_weak, pow2_pos).
        apply Qle_shift_div_r; [apply pow2_pos|].
        rewrite <- pow2_Z by lia.
        rewrite <- Qpower_plus by apply two_neq_0.
        apply Qlt_le_weak. eapply Qlt_le_trans; [exact Hup|].
        apply pow2_le. lia. }
      apply Qabs_Qle_condition in Hb as [Hb1 Hb2].
      apply rint_le in Hb2.
      assert (Hb1' : inject_Z (- 2 ^ prec) <= Qred q / 2 ^ ex).
      { rewrite inject_Z_opp. exact Hb1. }
      apply rint_ge in Hb1'. lia.
    + intros _. split; [done|].
      apply rint_comp. by rewrite Qred_correct.
Qed.

(** A stored number stays as it is when it is stored again. *)
Lemma round_binary_idempotent (q : Q) :
  round_binary prec emin (round_binary prec emin q) = round_binary prec emin q.
Proof using prec_pos.
  destruct (round_binary_format q) as (k & ex & Hy & Hex & Hk & _).
  rewrite Hy. set (y := Qred (inject_Z k * 2 ^ ex)).
  destruct (Z.eq_dec k 0%Z) as [->|Hk0].
  { assert (Hy0 : y = 0) by (apply (Qred_complete _ 0); ring).
    rewrite Hy0. by apply round_binary_0. }
  assert (Hyv : y == inject_Z k * 2 ^ ex) by apply Qred_correct.
  assert (Hyn : ~ y == 0).
  { rewrite Hyv. intros H. apply Qmult_integral in H as [H|H].
    - apply Hk0. apply inject_Z_injective. exact H.
    - pose proof (pow2_pos ex). lra. }
  assert (Hyy : Qred y = y) by apply Qred_idem.
  unfold round_binary. rewrite Hyy.
  destruct (Qeq_bool y 0) eqn:Hz.
  { apply Qeq_bool_iff in Hz. done. }
  set (L := Z.log2 (Z.abs k)).
  assert (Hka : (0 < Z.abs k)%Z) by lia.
  pose proof (Z.log2_spec _ Hka) as [HL1 HL2]. fold L in HL1, HL2.
  pose proof (Z.log2_nonneg (Z.abs k)) as HL0. fold L in HL0.
  assert (Habs : Qabs y == inject_Z (Z.abs k) * 2 ^ ex).
  { rewrite Hyv, Qabs_Qmult.
    rewrite (Qabs_pos (2 ^ ex)) by (apply Qlt_le_weak, pow2_pos).
    apply Qmult_comp; [|reflexivity].
    unfold inject_Z. symmetry. apply Zabs_Qabs. }
  assert (He : binade y = (L + ex)%Z).
  { apply binade_unique; rewrite Habs.
    - rewrite Qpower_plus by apply two_neq_0.
      apply Qmult_le_compat_r; [|apply Qlt_le_weak, pow2_pos].
      rewrite pow2_Z by lia. rewrite <- Zle_Qle. lia.
    - replace (L + ex + 1)%Z with ((L + 1) + ex)%Z by lia.
      rewrite Qpower_plus by apply two_neq_0.
      apply Qmult_lt_compat_r; [apply pow2_pos|].
      rewrite pow2_Z by lia. rewrite <- Zlt_Qlt. unfold Z.succ in HL2. lia. }
  rewrite He. apply Qred_complete.
  set (ex' := Z.max (L + ex - (prec - 1)) emin).
  assert (Hint : exists m : Z, y / 2 ^ ex' == inject_Z m).
  { destruct (Z.eq_dec (Z.abs k) (2 ^ prec)%Z) as [Hmax|Hlt].
    - assert (HLp : L = prec).
      { unfold L. rewrite Hmax. apply Z.log2_pow2. lia. }
      assert (Hex' : ex' = (ex + 1)%Z) by (unfold ex'; lia).
      assert (Heven : exists k2, k = (2 * k2)%Z).
      { assert (Hp : (2 ^ prec = 2 * 2 ^ (prec - 1))%Z).
        { rewrite <- Z.pow_succ_r by lia. f_equal. lia. }
        destruct (Z.abs_spec k) as [[_ Ha]|[_ Ha]].
        - exists (2 ^ (prec - 1))%Z. lia.
        - exists (- 2 ^ (prec - 1))%Z. lia. }
      destruct Heven as [k2 ->]. exists k2.
      rewrite Hyv, Hex', pow2_succ, inject_Z_mult.
      pose proof (pow2_pos ex). field. lra.
    - assert (HLp : (L < prec)%Z).
      { apply Z.log2_lt_pow2; [done|]. lia. }
      assert (Hex' : (ex' <= ex)%Z) by (unfold ex'; lia).
      exists (k * 2 ^ (ex - ex'))%Z.
      rewrite Hyv, inject_Z_mult, <- pow2_Z by lia.
      rewrite Qpower_minus by apply two_neq_0.
      pose proof (pow2_pos ex). pose proof (pow2_pos ex'). field. lra. }
  destruct Hint as [m Hm].
  rewrite (rint_comp _ _ Hm), rint_Z, <- Hm, <- Hyv.
  pose proof (pow2_pos ex') as Hp. clearbody y.
  generalize dependent (2 ^ ex'). intros u _ Hu. field. lra.
Qed.

Lemma round_binary_nonneg (q : Q) : 0 <= q -> 0 <= round_binary prec emin q.
Proof using prec_pos.
  intros Hq. destruct (Qeq_dec q 0) as [H0|Hn].
  { rewrite round_binary_0 by done. lra. }
  destruct (round_binary_format q) as (k & ex & -> & _ & _ & Hk).
  destruct (Hk Hn) as [_ ->]. rewrite Qred_correct.
  apply Qmult_le_0_compat; [|apply Qlt_le_weak, pow2_pos].
  change 0 with (inject_Z 0). rewrite <- Zle_Qle. apply rint_ge.
  apply Qle_shift_div_l; [apply pow2_pos|].
  change (inject_Z 0) with 0. lra.
Qed.

Lemma round_binary_nonpos (q : Q) : q <= 0 -> round_binary prec emin q <= 0.
Proof using prec_pos.
  intros Hq. destruct (Qeq_dec q 0) as [H0|Hn].
  { rewrite round_binary_0 by done. lra. }
  destruct (round_binary_format q) as (k & ex & -> & _ & _ & Hk).
  destruct (Hk Hn) as [_ ->]. rewrite Qred_correct.
  assert (Hr : (rint (q / 2 ^ ex) <= 0)%Z).
  { apply rint_le. apply Qle_shift_div_r; [apply pow2_pos|].
    change (inject_Z 0) with 0. lra. }
  rewrite Zle_Qle in Hr. change (inject_Z 0) with 0 in Hr.
  pose proof (pow2_pos ex). nra.
Qed.

(** A multiple of [2 ^ emin] does not vanish when it is rounded, unless
    it is 0. *)
Lemma round_binary_nonzero (q : Q) (m : Z) :
  q == inject_Z m * 2 ^ emin -> ~ q == 0 -> ~ round_binary prec emin q == 0.
Proof using prec_pos.
  intros Hm Hn.
  destruct (round_binary_format q) as (k & ex & -> & _ & _ & Hk).
  destruct (Hk Hn) as [Hex ->]. rewrite Qred_correct.
  assert (Hqr : ~ Qred q == 0) by (by rewrite Qred_correct).
  destruct (binade_spec _ Hqr) as [Hlow Hup].
  set (e := binade (Qred q)) in *.
  assert (Hqa : Qabs (Qred q) == Qabs q) by apply Qabs_wd, Qred_correct.
  rewrite Hqa in Hlow, Hup.
  assert (Hm0 : m <> 0%Z).
  { intros ->. apply Hn. rewrite Hm. ring. }
  assert (Hmin : 2 ^ emin <= Qabs q).
  { rewrite Hm, Qabs_Qmult.
    rewrite (Qabs_pos (2 ^ emin)) by (apply Qlt_le_weak, pow2_pos).
    assert (H1 : 1 <= Qabs (inject_Z m)).
    { unfold inject_Z. rewrite <- Zabs_Qabs.
      change 1 with (inject_Z 1). fold (inject_Z (Z.abs m)).
      rewrite <- Zle_Qle. lia. }
    pose proof (pow2_pos emin). nra. }
  assert (He : (emin <= e)%Z).
  { assert (emin < e + 1)%Z; [|lia]. apply pow2_lt_inv. lra. }
  assert (Hexe : (ex <= e)%Z) by lia.
  assert (Hone : 1 <= Qabs (q / 2 ^ ex)).
  { unfold Qdiv. rewrite Qabs_Qmult, Qabs_Qinv.
    rewrite (Qabs_pos (2 ^ ex)) by (apply Qlt_le_weak, pow2_pos).
    apply Qle_shift_div_l; [apply pow2_pos|].
    pose proof (pow2_le ex e Hexe). lra. }
  intros H. pose proof (pow2_pos ex) as Hp.
  apply Qmult_integral in H as [H|H]; [|lra].
  assert (Hr0 : rint (q / 2 ^ ex) = 0%Z) by (apply inject_Z_injective; exact H).
  revert Hone. apply Qabs_case; intros Hs Hone.
  - assert (Hr : (1 <= rint (q / 2 ^ ex))%Z) by (by apply rint_ge).
    lia.
  - assert (Hr : (rint (q / 2 ^ ex) <= -1)%Z).
    { apply rint_le. change (inject_Z (-1)) with (- (1)). lra. }
    lia.
Qed.

(** Every stored number is a multiple of [2 ^ emin]. *)
Lemma round_binary_multiple (q : Q) :
  exists m : Z, round_binary prec emin q == inject_Z m * 2 ^ emin.
Proof using prec_pos.
  destruct (round_binary_format q) as (k & ex & -> & Hex & _).
  exists (k * 2 ^ (ex - emin))%Z. rewrite Qred_correct.
  rewrite inject_Z_mult, <- pow2_Z by lia.
  rewrite Qpower_minus by apply two_neq_0.
  pose proof (pow2_pos emin). field. lra.
Qed.

(** The difference of two stored numbers, stored: its sign is that of
    the exact difference. *)
Lemma round_binary_sub_sign (x y : Q) :
  let a := round_binary prec emin x in
  let b := round_binary prec emin y in
  (a < b <-> round_binary prec emin (a - b) < 0) /\
  (b < a <-> 0 < round_binary prec emin (a - b)) /\
  (a == b <-> round_binary prec emin (a - b) == 0).
Proof using prec_pos.
  intros a b.
  destruct (round_binary_multiple x) as [mx Hx].
  destruct (round_binary_multiple y) as [my Hy].
  fold a in Hx. fold b in Hy.
  assert (Hm : a - b == inject_Z (mx - my) * 2 ^ emin).
  { rewrite Hx, Hy. unfold Zminus. rewrite inject_Z_plus, inject_Z_opp. ring. }
  pose proof (round_binary_nonzero (a - b) _ Hm) as Hnz.
  pose proof (round_binary_nonneg (a - b)) as Hpos.
  pose proof (round_binary_nonpos (a - b)) as Hneg.
  pose proof (round_binary_0 (a - b)) as Hzero.
  set (r := round_binary prec emin (a - b)) in *.
  destruct (Q_dec a b) as [[Hlt|Hgt]|Heq].
  - assert (r <= 0) by (apply Hneg; lra).
    assert (~ r == 0) by (apply Hnz; lra).
    repeat split; intros; lra.
  - assert (0 <= r) by (apply Hpos; lra).
    assert (~ r == 0) by (apply Hnz; lra).
    repeat split; intros; lra.
  - assert (Hr : r = 0) by (apply Hzero; lra).
    rewrite Hr. repeat split; intros; lra.
Qed.

End Format.


(** Reading a float32 back from an array changes nothing. *)
Lemma f32_idempotent (q : Q) : f32 (f32 q) = f32 q.
Proof. apply round_binary_idempotent. lia. Qed.


(** The float32 difference of two float32 numbers has the sign of their
    exact difference: it cannot underflow to 0. *)
Lemma sub32_sign (x y : Q) :
  (f32 x < f32 y <-> sub32 (f32 x) (f32 y) < 0) /\
  (f32 y < f32 x <-> 0 < sub32 (f32 x) (f32 y)) /\
  (f32 x == f32 y <-> sub32 (f32 x) (f32 y) == 0).
Proof. apply (round_binary_sub_sign 24 (-149)). lia. Qed.

End FloatFacts.

(** ** The reward shaper *)

Lemma Qltb_lt (x y : Q) : Qltb x y = true <-> (x < y)%Q.
Proof.
  unfold Qltb. rewrite negb_true_iff, <- not_true_iff_false, Qle_bool_iff.
  split; [apply Qnot_le_lt | apply Qlt_not_le].
Qed.

Lemma Qltb_ge (x y : Q) : Qltb x y = false <-> (y <= x)%Q.
Proof.
  unfold Qltb. rewrite negb_false_iff, Qle_bool_iff. done.
Qed.

#[local] Arguments f32 : simpl never.
#[local] Arguments f64 : simpl never.
#[local] Arguments sub32 : simpl never.
#[local] Arguments mixed : simpl never.

(** The reward of an instance that has not ended, case by case. *)
Lemma reward_instance_active (weak : bool) (a : Z) (d n ld ln : Q) :
  (a = stop_action ->
     ((d < 3)%Q ->
        reward_instance weak false a d n ld ln
        = Ok (f32 (mixed weak (2 + mixed weak (n * 2))), 1)%Q) /\
     ((3 <= d)%Q -> reward_instance weak false a d n ld ln = Ok (- 2, 1)%Q)) /\
  (a <> stop_action ->
     let up := f32 (mixed weak (1 + sub32 n ln)) in
     let down := f32 (mixed weak (- 1 + sub32 n ln)) in
     ((sub32 d ld < 0)%Q ->
        reward_instance weak false a d n ld ln = Ok (up, 1%Q)) /\
     ((0 < sub32 d ld)%Q -> (1 < ld)%Q ->
        reward_instance weak false a d n ld ln = Ok (down, 1%Q)) /\
     ((0 < sub32 d ld)%Q -> (ld <= 1)%Q ->
        reward_instance weak false a d n ld ln =
          Ok (f32 (mixed weak (down - mixed weak (mixed weak (1 - ld) * 2))),
              1)%Q) /\
     ((sub32 d ld == 0)%Q ->
        reward_instance weak false a d n ld ln =
          Raise (NameError "The action doesn't change the move"))).
Proof.
  unfold reward_instance. split.
  - intros ->. simpl. split; intros Hd.
    + apply Qltb_lt in Hd. by rewrite Hd.
    + apply Qltb_ge in Hd. by rewrite Hd.
  - intros Ha. apply Z.eqb_neq in Ha. rewrite Ha.
    generalize (sub32 d ld). intros delta.
    split; [|split; [|split]].
    + intros Hd.
      assert (H1 : Qltb 0 (- delta) = true) by (apply Qltb_lt; lra).
      assert (H2 : Qltb 0 delta = false) by (apply Qltb_ge; lra).
      rewrite H1, H2. cbn [mbind result_bind]. by rewrite andb_false_r.
    + intros Hd Hld.
      assert (H1 : Qltb 0 (- delta) = false) by (apply Qltb_ge; lra).
      assert (H2 : Qltb (- delta) 0 = true) by (apply Qltb_lt; lra).
      assert (H3 : Qle_bool ld 1 = false).
      { apply not_true_iff_false. rewrite Qle_bool_iff. lra. }
      rewrite H1, H2, H3. reflexivity.
    + intros Hd Hld.
      assert (H1 : Qltb 0 (- delta) = false) by (apply Qltb_ge; lra).
      assert (H2 : Qltb (- delta) 0 = true) by (apply Qltb_lt; lra).
      assert (H3 : Qle_bool ld 1 = true) by (by apply Qle_bool_iff).
      assert (H4 : Qltb 0 delta = true) by (apply Qltb_lt; lra).
      rewrite H1, H2, H3, H4. reflexivity.
    + intros Hd.
      assert (H1 : Qltb 0 (- delta) = false) by (apply Qltb_ge; lra).
      assert (H2 : Qltb (- delta) 0 = false) by (apply Qltb_ge; lra).
      rewrite H1, H2. reflexivity.
Qed.

Lemma setitem32_Ok (l l' : list Q) (i : nat) (v : Q) :
  setitem32 l i v = Ok l' <-> i < length l /\ l' = <[i := f32 v]> l.
Proof. apply setitem_Ok. Qed.

Lemma getitem32_Ok (l : list Q) (i : nat) (y : Q) :
  getitem32 l i = Ok y <-> exists x, l !! i = Some x /\ y = f32 x.
Proof.
  unfold getitem32, getitem. destruct (l !! i) as [x|]; simpl; split.
  - intros [= <-]. by exists x.
  - intros (x' & [= <-] & ->). done.
  - done.
  - intros (x' & [=] & _).
Qed.

(** ** The rollout, step by step *)

#[local] Arguments reward_instance : simpl never.
#[local] Arguments take_perm : simpl never.

(** Splits a successful run of binds into the successful runs of its parts. *)
Ltac split_pairs :=
  repeat match goal with
  | x : (_ * _)%type |- _ => destruct x
  end.

Ltac inv_bind H :=
  repeat (match type of H with
          | (?r ≫= ?k) = Ok ?b =>
              let x := fresh "x" in
              let Hx := fresh "Hrun" in
              apply bind_Ok in H as (x & Hx & H)
          end; split_pairs; cbv beta iota in H).

(** Turns successful array reads and writes into facts about lookups. *)
Ltac norm_items :=
  repeat match goal with
  | H : getitem _ _ = Ok _ |- _ => apply getitem_Ok in H
  | H : setitem _ _ _ = Ok _ |- _ => apply setitem_Ok in H as [? ->]
  | H : getitem32 _ _ = Ok _ |- _ => apply getitem32_Ok in H as (? & ? & ->)
  | H : setitem32 _ _ _ = Ok _ |- _ => apply setitem32_Ok in H as [? ->]
  | H : mret _ = Ok _ |- _ =>
      unfold mret, result_ret in H; first [injection H as <- | injection H as ?]
  end.

Section RolloutFacts.

Context (W : World).

Lemma act_phase_inv (t0 : nat) (self : Agent W) (loc : Locals W) (act : Acted W) :
  act_phase t0 self loc = Ok act ->
  exists traj1,
    select_action t0 self loc = Ok (a_sel act) /\
    store_confidence 0 (perm_obs loc) (ended loc)
      (s_combined_confidence (a_sel act)) (traj loc) = Ok traj1 /\
    env_action (W:=W) 0 (s_a_t (a_sel act)) (s_candidate_leng (a_sel act))
      (ended loc) = Ok (a_cpu act) /\
    make_equiv_action 0 (perm_idx loc) (a_cpu act) (perm_obs loc)
      (env self) traj1 = Ok (a_sim act, a_traj act) /\
    take_perm (env_get_obs W (a_sim act)) (perm_idx loc) = Ok (a_obs act).
Proof.
  unfold act_phase. intros H. inv_bind H.
  simpl in H. injection H as <-. simpl. by eexists.
Qed.

(** What one successful iteration did. *)
Lemma step_inv (t0 : nat) (self self' : Agent W) (loc loc' : Locals W) :
  step t0 self loc = Ok (self', loc') ->
  exists act,
    act_phase t0 self loc = Ok act /\
    a_cpu act = cpu_a_t loc' /\ a_traj act = traj loc' /\
    a_obs act = perm_obs loc' /\ a_sim act = env self' /\
    (if train_rl loc then
       exists arr,
         reward_phase (batch_size loc) (perm_obs loc') (traj loc') (ended loc)
           (cpu_a_t loc') (last_dist loc) (last_ndtw loc) = Ok arr /\
         rewards loc' = rewards loc ++ [reward arr] /\
         masks loc' = masks loc ++ [mask arr] /\
         last_dist loc' = dist arr /\ last_ndtw loc' = ndtw_score arr
     else
       rewards loc' = rewards loc /\ masks loc' = masks loc /\
       last_dist loc' = last_dist loc /\ last_ndtw loc' = last_ndtw loc) /\
    update_ended (ended loc) (cpu_a_t loc') = Ok (ended loc') /\
    self' = {| feedback := feedback self; episode_len := episode_len self;
               env := env self'; torch := s_torch (a_sel act);
               critic_calls := critic_calls self; loss := loss self;
               losses := losses self; logs := logs self |} /\
    t loc' = Some t0 /\ train_rl loc' = train_rl loc /\
    batch_size loc' = batch_size loc /\ perm_idx loc' = perm_idx loc /\
    ml_loss loc' = s_ml_loss (a_sel act) /\
    hidden_states loc' = s_hidden_states (a_sel act) /\
    policy_log_probs loc' = s_policy_log_probs (a_sel act) /\
    candidate_leng loc' = s_candidate_leng (a_sel act).
Proof.
  unfold step. intros H. inv_bind H.
  simpl in H. injection H as <- <-. simpl.
  eexists. repeat (split; [done|]).
  split; [|done].
  destruct (train_rl loc).
  - match goal with
    | Hr : (_ ≫= _) = Ok _ |- _ =>
        inv_bind Hr; simpl in Hr; injection Hr as <- <- <- <-
    end.
    by eexists.
  - match goal with
    | Hr : Ok _ = Ok _ |- _ => by injection Hr as <- <- <- <-
    end.
Qed.

(** The reward loop stores, for every observation it visits, the reward
    and the mask that [reward_instance] computes from the new distance
    and nDTW score and the baselines of the previous step. *)
Lemma reward_loop_spec traj ended cpu last_dist last_ndtw obs :
  forall i arr arr',
    reward_loop i obs traj ended cpu last_dist last_ndtw arr = Ok arr' ->
    (forall j, j < i ->
       reward arr' !! j = reward arr !! j /\ mask arr' !! j = mask arr !! j) /\
    (forall j ob, obs !! j = Some ob ->
       exists (tr : Traj W) e r m,
         traj !! (i + j) = Some tr /\ ended !! (i + j) = Some e /\
         reward arr' !! (i + j) = Some r /\ mask arr' !! (i + j) = Some m /\
         if e : bool then r = 0%Q /\ m = 0%Q
         else exists a ld ln,
           cpu !! (i + j) = Some a /\ last_dist !! (i + j) = Some ld /\
           last_ndtw !! (i + j) = Some ln /\
           reward_instance (numpy_weak_promotion W) false a
             (f32 (distance ob))
             (f32 (ndtw W (scan ob) (path_act tr) (gt_path ob)))
             (f32 ld) (f32 ln) = Ok (r, m)).
Proof.
  induction obs as [|ob0 rest IH]; intros i arr arr'; simpl.
  - intros [= <-]. split; [done|]. intros j ob. by rewrite lookup_nil.
  - intros H. inv_bind H. norm_items.
    apply IH in H as [Hbefore Hat]. simpl in Hbefore. split.
    + intros j Hj. destruct (Hbefore j) as [-> ->]; [lia|].
      rewrite !list_lookup_insert_ne by lia. done.
    + intros [|j] ob; simpl.
      * intros [= <-]. rewrite Nat.add_0_r.
        destruct (Hbefore i) as [-> ->]; [lia|].
        rewrite !list_lookup_insert_eq by done.
        match goal with
        | Ht : traj !! i = Some ?tr, He : ended !! i = Some ?e |- _ =>
            exists tr, e; destruct e
        end; eexists _, _; repeat (split; [done|]).
        { match goal with
          | Hr : reward_instance _ true _ _ _ _ _ = Ok _ |- _ =>
              by injection Hr as <- <-
          end. }
        match goal with
        | Hr : (_ ≫= _) = Ok _ |- _ => inv_bind Hr; norm_items
        end.
        repeat match goal with
        | Hl : <[i := _]> _ !! i = Some _ |- _ =>
            rewrite list_lookup_insert_eq in Hl by done; injection Hl as <-
        end.
        rewrite !f32_idempotent in *.
        eexists _, _, _. repeat (split; [done|]). done.
      * intros Hj. rewrite <- Nat.add_succ_comm. by apply Hat.
Qed.




Lemma getitem32_lt (l : list Q) (i : nat) :
  i < length l -> exists x, getitem32 l i = Ok (f32 x) /\ l !! i = Some x.
Proof.
  intros Hlt. destruct (lookup_lt_is_Some_2 l i Hlt) as [x Hx].
  exists x. split; [|done]. apply getitem32_Ok. by exists x.
Qed.


End RolloutFacts.

(** C6, as stated, fails: the shaper compares and adds the float32
    numbers that the arrays hold, not the distances and scores themselves.
    An instance that has not ended and stops 2.99999999 away from the
    goal, which is below 3.0, has its distance stored as 3.0 and earns
    -2.0, where the claim promises 2.0 + 2.0 * nDTW = 2.0. *)
Lemma stop_below_threshold_is_penalised :
  exists self0 loc0 s1 ob,
    rollout_init (demo_agent near_world "sample" 3 0) true true
      = Ok (self0, loc0) /\
    step 0 self0 loc0 = Ok s1 /\
    train_rl loc0 = true /\
    ended loc0 !! 0 = Some false /\
    cpu_a_t s1.2 !! 0 = Some stop_action /\
    perm_obs s1.2 !! 0 = Some ob /\
    (distance ob < 3)%Q /\
    (forall path gt, ndtw near_world (scan ob) path gt = 0%Q) /\
    rewards s1.2 = [[(- 2)%Q]] /\
    ~ (- 2 == 2 + 2 * 0)%Q.
Proof.
  eexists _, _, (_, _), _.
  split; [vm_compute; reflexivity|].
  split; [vm_compute; reflexivity|].
  repeat split; try discriminate; vm_compute; reflexivity.
Qed.

(** C6, amended. At a step where RL is enabled, the step appends one
    reward vector and one mask vector. For every instance [i], with [d]
    the distance to goal and [n] the nDTW score after the step, [ld] and
    [ln] the baselines of the previous step, all four as the float32
    numbers that the arrays hold: an ended instance has reward 0 and
    mask 0; an instance that has not ended has mask 1, and as long as the
    numbers stay in the range of float32 its reward is
    [2 + 2 n] for a stop with [d < 3] and [-2] for a stop with [d >= 3];
    for a movement the distance did change, and the reward is
    [1 + (n - ln)] when the instance came closer, [-1 + (n - ln)] when it
    moved away, minus [2 (1 - ld)] when it moved away from within
    [ld <= 1]. Every difference of two array entries is rounded to
    float32, every operation with a Python float is carried out in
    float32 or in float64 as the installed numpy has it, and the value
    stored as the reward is rounded to float32. With [ld = 4], [d = 2.5]
    and nDTW going from 0.5 to 0.7 a movement earns the float32 nearest to
    1.2, which is 1.2000000476837158, with either numpy. *)
Theorem reward_shaper_step (W : World) (t0 : nat) (self self' : Agent W)
  (loc loc' : Locals W) :
  step t0 self loc = Ok (self', loc') ->
  train_rl loc = true ->
  (exists reward mask,
     rewards loc' = rewards loc ++ [reward] /\
     masks loc' = masks loc ++ [mask] /\
     forall i ob, perm_obs loc' !! i = Some ob ->
       exists e (tr : Traj W) r m,
         ended loc !! i = Some e /\ traj loc' !! i = Some tr /\
         reward !! i = Some r /\ mask !! i = Some m /\
         if e : bool then r = 0%Q /\ m = 0%Q
         else
           m = 1%Q /\
           exists a ld0 ln0,
             cpu_a_t loc' !! i = Some a /\
             last_dist loc !! i = Some ld0 /\ last_ndtw loc !! i = Some ln0 /\
             let weak := numpy_weak_promotion W in
             let n0 := ndtw W (scan ob) (path_act tr) (gt_path ob) in
             let d := f32 (distance ob) in
             let n := f32 n0 in
             let ld := f32 ld0 in
             let ln := f32 ln0 in
             let up := f32 (mixed weak (1 + sub32 n ln)) in
             let down := f32 (mixed weak (- 1 + sub32 n ln)) in
             in_float32_range (distance ob) -> in_float32_range n0 ->
             in_float32_range ld0 -> in_float32_range ln0 ->
             (a = stop_action ->
                ((d < 3)%Q -> r = f32 (mixed weak (2 + mixed weak (n * 2)))) /\
                (~ (d < 3)%Q -> r = (- 2)%Q)) /\
             (a <> stop_action ->
                ~ (d == ld)%Q /\
                ((d < ld)%Q -> r = up) /\
                ((ld < d)%Q -> ~ (ld <= 1)%Q -> r = down) /\
                ((ld < d)%Q -> (ld <= 1)%Q ->
                   r = f32 (mixed weak
                              (down - mixed weak (mixed weak (1 - ld) * 2)))))) /\
  (forall weak a, a <> stop_action ->
     reward_instance weak false a (f32 (5 # 2)) (f32 (7 # 10)) (f32 4)
       (f32 (1 # 2)) = Ok (5033165 # 4194304, 1)%Q) /\
  f32 (12 # 10) = (5033165 # 4194304)%Q /\ ~ (5033165 # 4194304 == 12 # 10)%Q.
Proof.
  intros Hstep Hrl. split; [|split; [|split]].
  - apply step_inv in Hstep as (act & _ & _ & _ & _ & _ & Hrew & _).
    rewrite Hrl in Hrew. destruct Hrew as (arr & Hphase & Hr & Hm & _).
    exists (reward arr), (mask arr). split; [done|]. split; [done|].
    intros i ob Hi. unfold reward_phase in Hphase.
    apply reward_loop_spec in Hphase as [_ Hat].
    destruct (Hat i ob Hi) as (tr & e & r & m & Htr & He & Hri & Hmi & Hcase).
    simpl in Htr, He, Hri, Hmi, Hcase.
    exists e, tr, r, m. repeat (split; [done|]).
    destruct e; [done|].
    destruct Hcase as (a & ld & ln & Ha & Hld & Hln & Hinst).
    set (weak := numpy_weak_promotion W) in *.
    set (n0 := ndtw W (scan ob) (path_act tr) (gt_path ob)) in *.
    pose proof (reward_instance_active weak a (f32 (distance ob)) (f32 n0)
                  (f32 ld) (f32 ln)) as [Hstop Hmove].
    destruct (sub32_sign (distance ob) ld) as (Hlt & Hgt & Heq).
    assert (Hm1 : m = 1%Q).
    { destruct (Z.eq_dec a stop_action) as [Hs|Hne].
      - destruct (Hstop Hs) as [H1 H2].
        destruct (Qlt_le_dec (f32 (distance ob)) 3) as [Hd|Hd].
        + rewrite (H1 Hd) in Hinst. by injection Hinst as _ <-.
        + rewrite (H2 Hd) in Hinst. by injection Hinst as _ <-.
      - destruct (Hmove Hne) as (H1 & H2 & H3 & H4).
        destruct (Q_dec (sub32 (f32 (distance ob)) (f32 ld)) 0) as [[Hd|Hd]|Hd].
        + rewrite (H1 Hd) in Hinst. by injection Hinst as _ <-.
        + destruct (Qlt_le_dec 1 (f32 ld)) as [Hl|Hl].
          * rewrite (H2 Hd Hl) in Hinst. by injection Hinst as _ <-.
          * rewrite (H3 Hd Hl) in Hinst. by injection Hinst as _ <-.
        + rewrite (H4 Hd) in Hinst. done. }
    split; [done|]. exists a, ld, ln. repeat (split; [done|]).
    cbv zeta. intros _ _ _ _. split.
    + intros Hs. destruct (Hstop Hs) as [H1 H2]. split; intros Hd.
      * rewrite (H1 Hd) in Hinst. by injection Hinst as <- _.
      * rewrite H2 in Hinst by lra. by injection Hinst as <- _.
    + intros Hne. destruct (Hmove Hne) as (H1 & H2 & H3 & H4).
      split; [|split; [|split]].
      * intros Hd. apply Heq in Hd. rewrite (H4 Hd) in Hinst. done.
      * intros Hd. apply Hlt in Hd. rewrite (H1 Hd) in Hinst.
        by injection Hinst as <- _.
      * intros Hd Hl. apply Hgt in Hd. rewrite H2 in Hinst by (done || lra).
        by injection Hinst as <- _.
      * intros Hd Hl. apply Hgt in Hd. rewrite (H3 Hd Hl) in Hinst.
        by injection Hinst as <- _.
  - intros weak a Ha. unfold reward_instance.
    apply Z.eqb_neq in Ha. rewrite Ha. destruct weak; vm_compute; reflexivity.
  - vm_compute. reflexivity.
  - vm_compute. discriminate.
Qed.

Lemma reward_shaper_step_witness :
  exists self0 loc0 s1 reward mask,
    rollout_init (demo_agent closer_world "sample" 3 0) true true = Ok (self0, loc0) /\
    step 0 self0 loc0 = Ok s1 /\
    train_rl loc0 = true /\
    rewards s1.2 = rewards loc0 ++ [reward] /\
    masks s1.2 = masks loc0 ++ [mask].
Proof.
  eexists _, _, (_, _).
  match goal with
  | |- exists reward mask, _ = _ /\ step 0 ?self0 ?loc0 = Ok (?self1, ?loc1) /\ _ =>
      assert (Hinit : rollout_init (demo_agent closer_world "sample" 3 0) true true
                      = Ok (self0, loc0)) by (vm_compute; reflexivity);
      assert (Hstep : step 0 self0 loc0 = Ok (self1, loc1))
        by (vm_compute; reflexivity);
      assert (Hrl : train_rl loc0 = true) by reflexivity;
      destruct (reward_shaper_step closer_world 0 self0 self1 loc0 loc1 Hstep Hrl)
        as [(reward & mask & Hr & Hm & _) _];
      exists reward, mask
  end.
  repeat split; assumption.
Defined.




(** ** Masking and the argmax *)

Lemma xlt_NegInf (a : xlogit) : xlt a NegInf = false.
Proof. by destruct a. Qed.

(** The scan never moves its best index to a slot that holds [-inf]. *)
Lemma argmax_from_lt (k : nat) (row : list xlogit) :
  forall best best_i i,
    best_i < k ->
    (forall p x, row !! p = Some x -> k <= i + p -> x = NegInf) ->
    argmax_from best best_i i row < k.
Proof.
  induction row as [|x rest IH]; intros best best_i i Hb Hmask; simpl; [done|].
  destruct (xlt best x) eqn:Hlt.
  - apply IH.
    + destruct (decide (k <= i)) as [Hk|Hk]; [|lia].
      rewrite (Hmask 0 x) in Hlt; [|done|lia]. by rewrite xlt_NegInf in Hlt.
    + intros p y Hp Hk. apply (Hmask (S p) y); [done|lia].
  - apply IH; [done|].
    intros p y Hp Hk. apply (Hmask (S p) y); [done|lia].
Qed.

(** With the slots from [k] on filled with [-inf], the argmax of a row is
    below [k]: this is what the ['argmax'] branch computes. *)
Lemma masked_argmax_lt (k : nat) (row : list xlogit) :
  1 <= k -> k <= length row ->
  exists j,
    argmax (fill_row row ((fun j => bool_decide (k <= j)) <$> seq 0 (length row)))
      = Ok j /\ j < k.
Proof.
  intros Hk Hlen. destruct row as [|x rest]; [simpl in Hlen; lia|].
  cbn [length seq fmap list_fmap fill_row zip_with argmax].
  eexists. split; [reflexivity|].
  apply argmax_from_lt; [lia|].
  intros p y Hp Hkp.
  apply lookup_zip_with_Some in Hp as (y0 & m & -> & _ & Hm).
  rewrite <- fmap_S_seq, <- list_fmap_compose in Hm.
  apply list_lookup_fmap_Some in Hm as (q & -> & Hq).
  apply lookup_seq in Hq as [-> _]. simpl.
  rewrite bool_decide_true by lia. done.
Qed.

(** C1. The batch [pad_obs]: candidate counts (with the stop slot) 2 and 3,
    logits [[0, 1, 5], [5, 0, 0]]. In ['teacher'] and in ['sample'] feedback
    the logits reach the argmax unmasked: the action chosen for the first
    instance is 2, not below its count 2, and the step fails when it
    indexes the candidate list at 2. In ['argmax'] feedback the same logits
    are masked first and the action is 1, the stop slot. *)
Theorem unmasked_logits_pick_invalid_slot :
  (exists self0 loc sel,
     rollout_init (demo_agent pad_world "teacher" 3 0) true true = Ok (self0, loc) /\
     select_action 0 self0 loc = Ok sel /\
     s_candidate_leng sel = [2; 3] /\ s_a_t sel = [2; 0]%Z /\
     step 0 self0 loc = Raise IndexError) /\
  (exists self0 loc sel,
     rollout_init (demo_agent pad_world "sample" 3 0) true true = Ok (self0, loc) /\
     select_action 0 self0 loc = Ok sel /\
     s_candidate_leng sel = [2; 3] /\ s_a_t sel = [2; 0]%Z /\
     step 0 self0 loc = Raise IndexError) /\
  (exists self0 loc sel,
     rollout_init (demo_agent pad_world "argmax" 3 0) true true = Ok (self0, loc) /\
     select_action 0 self0 loc = Ok sel /\
     s_candidate_leng sel = [2; 3] /\ s_a_t sel = [1; 0]%Z).
Proof.
  split; [|split].
  - eexists _, _, _.
    split; [vm_compute; reflexivity|].
    split; [vm_compute; reflexivity|].
    repeat split; vm_compute; reflexivity.
  - eexists _, _, _.
    split; [vm_compute; reflexivity|].
    split; [vm_compute; reflexivity|].
    repeat split; vm_compute; reflexivity.
  - eexists _, _, _.
    split; [vm_compute; reflexivity|].
    split; [vm_compute; reflexivity|].
    split; reflexivity.
Qed.

(** ** The [ended] flags *)

Section EndedFacts.

Context (W : World).

Lemma store_confidence_ended ended cc obs :
  forall k (traj traj' : list (Traj W)),
    store_confidence k obs ended cc traj = Ok traj' ->
    length traj' = length traj /\
    forall i, ended !! i = Some true -> traj' !! i = traj !! i.
Proof.
  induction obs as [|ob rest IH]; intros k traj traj'; simpl.
  - by intros [= <-].
  - intros H. inv_bind H. norm_items.
    apply IH in H as [Hlen Hsame].
    match goal with He : ended !! k = Some ?e |- _ => destruct e end.
    + match goal with Hr : Ok _ = Ok _ |- _ => injection Hr as <- end. done.
    + match goal with Hr : (_ ≫= _) = Ok _ |- _ => inv_bind Hr end.
      norm_items. rewrite length_insert in Hlen. split; [done|].
      intros i Hi. rewrite Hsame by done.
      apply list_lookup_insert_ne. intros ->. congruence.
Qed.

Lemma env_action_one_ended leng_i next_id ended i a :
  env_action_one (W:=W) leng_i next_id ended i = Ok a ->
  ended !! i = Some true -> a = stop_action.
Proof.
  unfold env_action_one. intros H He.
  destruct (next_id =? Z.of_nat leng_i - 1)%Z; [by injection H as <-|].
  destruct (next_id =? args_ignoreid W)%Z; [by injection H as <-|].
  inv_bind H. norm_items.
  match goal with Hk : ended !! i = Some ?e |- _ =>
    rewrite He in Hk; by injection Hk as <- end.
Qed.

Lemma env_action_ended ended leng a_t :
  forall k cpu,
    env_action (W:=W) k a_t leng ended = Ok cpu ->
    length cpu = length a_t /\
    forall j a, cpu !! j = Some a -> ended !! (k + j) = Some true ->
                a = stop_action.
Proof.
  induction a_t as [|next_id rest IH]; intros k cpu; simpl.
  - intros [= <-]. split; [done|]. intros j a. by rewrite lookup_nil.
  - intros H. inv_bind H. simpl in H. injection H as <-.
    match goal with Hr : env_action _ rest _ _ = Ok _ |- _ =>
      apply IH in Hr as [Hlen Hstop] end.
    split; [simpl; lia|].
    intros [|j] a; simpl.
    + intros [= <-]. rewrite Nat.add_0_r. intros He.
      by eapply env_action_one_ended.
    + intros Hj He. apply (Hstop j a Hj). by rewrite Nat.add_succ_comm.
Qed.

(** [make_equiv_action] reads the action of every index it visits,
    leaves alone the trajectory of an instance whose action is the
    sentinel, and changes nothing when every action is the sentinel. *)
Lemma make_equiv_action_frozen a_t obs idxs :
  forall k (sim sim' : Sim W) (traj traj' : list (Traj W)),
    make_equiv_action k idxs a_t obs sim traj = Ok (sim', traj') ->
    length traj' = length traj /\
    (forall i, k <= i < k + length idxs -> is_Some (a_t !! i)) /\
    (forall i, (forall a, a_t !! i = Some a -> a = stop_action) ->
               traj' !! i = traj !! i) /\
    ((forall i, k <= i < k + length idxs -> a_t !! i = Some stop_action) ->
     sim' = sim /\ traj' = traj).
Proof.
  induction idxs as [|idx rest IH]; intros k sim sim' traj traj'; simpl.
  - intros [= <- <-]. split; [done|]. split; [intros i; lia|]. done.
  - intros H. inv_bind H. norm_items.
    match goal with Ha : a_t !! k = Some ?a |- _ =>
      rename Ha into Hk;
      destruct (Z.eqb_spec a stop_action) as [->|Hne]
    end.
    + apply IH in H as (Hlen & Hrange & Hsame & Hall).
      split; [done|]. split.
      { intros i Hi. destruct (decide (i = k)) as [->|]; [by eexists|].
        apply Hrange. lia. }
      split; [done|].
      intros Hstop. apply Hall. intros i Hi. apply Hstop. lia.
    + inv_bind H. norm_items.
      apply IH in H as (Hlen & Hrange & Hsame & Hall).
      rewrite length_insert in Hlen.
      split; [done|]. split.
      { intros i Hi. destruct (decide (i = k)) as [->|]; [by eexists|].
        apply Hrange. lia. }
      split.
      * intros i Hi. rewrite Hsame by done.
        apply list_lookup_insert_ne. intros ->.
        apply Hi in Hk. done.
      * intros Hstop. exfalso.
        rewrite Hstop in Hk by lia. by injection Hk as <-.
Qed.

Lemma update_ended_spec ended cpu ended' :
  update_ended ended cpu = Ok ended' ->
  length ended' = length ended /\
  (forall i, ended !! i = Some true -> ended' !! i = Some true) /\
  (length cpu = length ended ->
   forall i e a, ended !! i = Some e -> cpu !! i = Some a ->
                 ended' !! i = Some (e || (a =? stop_action)%Z)).
Proof.
  unfold update_ended. intros H. inv_bind H. simpl in H. injection H as <-.
  match goal with Hb : broadcast _ _ = Ok ?f |- _ =>
    assert (Hlen : length f = length ended);
    [unfold broadcast in Hb; case_bool_decide;
     [by injection Hb as <-|];
     destruct (_ <$> cpu) as [|? [|? ?]]; try done;
     injection Hb as <-; by rewrite length_replicate|]
  end.
  split; [rewrite length_zip_with; lia|]. split.
  - intros i Hi.
    destruct (lookup_lt_is_Some_2 x i) as [f Hf];
      [rewrite Hlen; by eapply lookup_lt_Some|].
    apply lookup_zip_with_Some. by exists true, f.
  - intros Hc i e a He Ha.
    match goal with Hb : broadcast _ _ = Ok _ |- _ =>
      unfold broadcast in Hb;
      rewrite length_fmap, bool_decide_true in Hb by done;
      injection Hb as <- end.
    apply lookup_zip_with_Some. exists e, (a =? stop_action)%Z.
    repeat split; [done|]. by rewrite list_lookup_fmap, Ha.
Qed.

(** One iteration, seen from an instance that has already ended. *)
Lemma step_keeps_ended t0 (self : Agent W) (loc : Locals W) s1 i :
  step t0 self loc = Ok s1 ->
  ended loc !! i = Some true ->
  ended s1.2 !! i = Some true /\
  traj s1.2 !! i = traj loc !! i /\
  (i < length (perm_idx loc) -> cpu_a_t s1.2 !! i = Some stop_action) /\
  (forall a, cpu_a_t s1.2 !! i = Some a -> a = stop_action).
Proof.
  destruct s1 as [self' loc']. intros Hstep He. simpl.
  apply step_inv in Hstep
    as (act & Hact & Hcpu & Htraj & _ & _ & _ & Hupd & _).
  apply act_phase_inv in Hact as (traj1 & _ & Hconf & Henv & Hmove & _).
  rewrite Hcpu, Htraj in *.
  apply store_confidence_ended in Hconf as [_ Hconf].
  apply env_action_ended in Henv as [_ Henv].
  apply make_equiv_action_frozen in Hmove as (_ & Hrange & Hfrozen & _).
  apply update_ended_spec in Hupd as (_ & Hupd & _).
  assert (Hstop : forall a, cpu_a_t loc' !! i = Some a -> a = stop_action).
  { intros a Ha. by apply (Henv i a). }
  split; [by apply Hupd|]. split; [|split; [|done]].
  - rewrite Hfrozen by done. by apply Hconf.
  - intros Hi. destruct (Hrange i) as [a Ha]; [simpl; lia|].
    rewrite Ha. f_equal. by apply Hstop.
Qed.

(** The step loop only passes through states that are [later] than the
    one it starts from. *)
Lemma rollout_loop_later ts : forall (self : Agent W) (loc : Locals W) s,
  rollout_loop ts self loc = Ok s -> later (self, loc) s.
Proof.
  induction ts as [|t0 rest IH]; intros self loc s; simpl.
  - intros [= <-]. constructor.
  - intros H. apply bind_Ok in H as ([self1 loc1] & Hstep & H).
    econstructor; [exact Hstep|].
    destruct (all_ended (ended loc1)).
    + injection H as <-. constructor.
    + by apply IH.
Qed.

End EndedFacts.

(** C2. Between any two states of a rollout that are zero or more
    completed iterations apart ([rollout_loop_later]: the step loop passes
    through nothing else): an instance whose [ended] flag is set in the
    earlier state has it set in the later one, and its trajectory (path
    and confidence scores) is the same in both; and in any further
    iteration the flag stays set, the environment action of the instance
    is the sentinel -1, and its trajectory is again unchanged, so no
    confidence score is appended and no move recorded. *)
Theorem ended_is_monotonic (W : World) (s1 s2 : Agent W * Locals W) (i : nat) :
  later s1 s2 ->
  ended s1.2 !! i = Some true ->
  ended s2.2 !! i = Some true /\
  traj s2.2 !! i = traj s1.2 !! i /\
  forall t0 s3, step t0 s2.1 s2.2 = Ok s3 ->
    ended s3.2 !! i = Some true /\
    (i < length (perm_idx s2.2) -> cpu_a_t s3.2 !! i = Some stop_action) /\
    (forall a, cpu_a_t s3.2 !! i = Some a -> a = stop_action) /\
    traj s3.2 !! i = traj s2.2 !! i.
Proof.
  intros Hlater. induction Hlater as [s|t0 self loc s1 s2 Hstep Hlater IH];
    intros He.
  - split; [done|]. split; [done|].
    intros t0 s3 Hstep. destruct s as [self loc]. simpl in *.
    destruct (step_keeps_ended W t0 self loc s3 i Hstep He) as (H1 & H2 & H3 & H4).
    done.
  - destruct (step_keeps_ended W t0 self loc s1 i Hstep He) as (H1 & H2 & _).
    destruct (IH H1) as (H3 & H4 & H5).
    split; [done|]. split; [|done].
    simpl. by rewrite H4.
Qed.

Lemma ended_is_monotonic_witness :
  exists self0 loc0 s1 s2,
    rollout_init (demo_agent pad_world "argmax" 3 0) true true = Ok (self0, loc0) /\
    step 0 self0 loc0 = Ok s1 /\
    step 1 s1.1 s1.2 = Ok s2 /\
    ended s1.2 !! 0 = Some true /\ ended s1.2 !! 1 = Some false /\
    ended s2.2 !! 0 = Some true /\ traj s2.2 !! 0 = traj s1.2 !! 0.
Proof.
  eexists _, _, (_, _), _.
  split; [vm_compute; reflexivity|].
  split; [vm_compute; reflexivity|].
  split; [vm_compute; reflexivity|].
  split; [vm_compute; reflexivity|].
  split; [vm_compute; reflexivity|].
  match goal with
  | |- ended ?s2.2 !! 0 = _ /\ traj _ !! 0 = traj ?s1.2 !! 0 =>
      assert (Hl : later s1 s2)
        by (apply (later_next 1 _ _ s2); [vm_compute; reflexivity | constructor]);
      assert (He : ended s1.2 !! 0 = Some true) by (vm_compute; reflexivity);
      destruct (ended_is_monotonic pad_world s1 s2 0 Hl He) as (H1 & H2 & _)
  end.
  split; assumption.
Defined.


(** ** What a rollout accumulates *)

Section LossFacts.

Context (W : World).

Lemma effective_train_rl_off (fb : string) (b : bool) :
  fb = "teacher" \/ fb = "argmax" -> effective_train_rl fb b = false.
Proof. by intros [-> | ->]. Qed.

Lemma select_action_ml_loss t0 (self : Agent W) (loc : Locals W) sel :
  select_action t0 self loc = Ok sel ->
  imitation_terms (terms (ml_loss loc)) ->
  imitation_terms (terms (s_ml_loss sel)).
Proof.
  unfold select_action. intros H Hterms. inv_bind H.
  destruct (String.eqb (feedback self) "argmax"); inv_bind H; norm_items;
    simpl; [|done].
  apply Forall_app. split; [done|]. repeat constructor. by eexists.
Qed.

Lemma mapM_result_length {A B : Type} (f : A -> result B) (l : list A) :
  forall k, mapM f l = Ok k -> length k = length l.
Proof.
  induction l as [|x rest IH]; intros k; simpl.
  - by intros [= <-].
  - intros H. inv_bind H. norm_items. simpl. f_equal. by apply IH.
Qed.

Lemma init_shaping_length obs : forall i (traj : list (Traj W)) ld ln ld' ln',
  init_shaping i obs traj ld ln = Ok (ld', ln') ->
  length ld' = length ld /\ length ln' = length ln.
Proof.
  induction obs as [|ob rest IH]; intros i traj ld ln ld' ln'; simpl.
  - by intros [= <- <-].
  - intros H. inv_bind H. norm_items.
    apply IH in H as [-> ->]. by rewrite !length_insert.
Qed.

Lemma get_input_feat_Ok (obs : list Obs) (leng : list nat) :
  get_input_feat obs = Ok leng ->
  leng = (fun ob => length (candidate ob) + 1) <$> obs.
Proof.
  unfold get_input_feat. intros H. inv_bind H. by norm_items.
Qed.

Lemma select_action_leng t0 (self : Agent W) (loc : Locals W) sel :
  select_action t0 self loc = Ok sel ->
  s_candidate_leng sel = (fun ob => length (candidate ob) + 1) <$> perm_obs loc.
Proof.
  unfold select_action. intros H. inv_bind H.
  match goal with Hg : get_input_feat _ = Ok _ |- _ =>
    apply get_input_feat_Ok in Hg as -> end.
  destruct (String.eqb (feedback self) "argmax"); inv_bind H; norm_items; done.
Qed.

Lemma rollout_init_inv (self self1 : Agent W) (loc : Locals W) b reset :
  rollout_init self b reset = Ok (self1, loc) ->
  train_rl loc = effective_train_rl (feedback self) b /\
  rewards loc = [] /\ masks loc = [] /\ terms (ml_loss loc) = [] /\
  ended loc = replicate (batch_size loc) false /\
  traj loc = init_traj <$> perm_obs loc /\
  feedback self1 = feedback self /\ episode_len self1 = episode_len self /\
  critic_calls self1 = critic_calls self /\ loss self1 = loss self /\
  length (last_dist loc) = batch_size loc /\
  length (last_ndtw loc) = batch_size loc /\
  length (perm_obs loc) = length (perm_idx loc).
Proof.
  unfold rollout_init. intros H.
  destruct (if reset then _ else _) as [sim obs]. inv_bind H. norm_items.
  subst. simpl.
  match goal with Hs : init_shaping _ _ _ _ _ = Ok _ |- _ =>
    apply init_shaping_length in Hs as [-> ->] end.
  match goal with Hp : take_perm _ _ = Ok _ |- _ =>
    apply mapM_result_length in Hp as -> end.
  rewrite !length_replicate. done.
Qed.

(** Iterations never run the critic nor touch [self.loss]; with RL off
    they append no reward and no mask; the imitation loss only gains
    cross-entropy terms. *)
Lemma later_accumulates (s1 s2 : Agent W * Locals W) :
  later s1 s2 ->
  feedback s2.1 = feedback s1.1 /\ episode_len s2.1 = episode_len s1.1 /\
  critic_calls s2.1 = critic_calls s1.1 /\ loss s2.1 = loss s1.1 /\
  train_rl s2.2 = train_rl s1.2 /\ batch_size s2.2 = batch_size s1.2 /\
  (train_rl s1.2 = false ->
     rewards s2.2 = rewards s1.2 /\ masks s2.2 = masks s1.2) /\
  (imitation_terms (terms (ml_loss s1.2)) ->
     imitation_terms (terms (ml_loss s2.2))).
Proof.
  induction 1 as [s|t0 self loc [self1 loc1] s2 Hstep Hlater IH]; [done|].
  simpl in *.
  apply step_inv in Hstep as (act & Hact & _ & _ & _ & _ & Hrew & _ & Hself
                              & _ & Hrl & Hbs & _ & Hml & _).
  apply act_phase_inv in Hact as (traj1 & Hsel & _).
  destruct IH as (H1 & H2 & H3 & H4 & H5 & H6 & H7 & H8).
  rewrite Hself in H1, H2, H3, H4. simpl in *.
  repeat (split; [congruence|]). split.
  - intros Hoff. rewrite Hoff in Hrew. destruct Hrew as (Hr & Hm & _).
    destruct H7 as [-> ->]; [congruence|]. done.
  - intros Hterms. apply H8. rewrite Hml.
    by eapply select_action_ml_loss.
Qed.

End LossFacts.

(** C10. With feedback ['teacher'] or ['argmax'] the argument [train_rl] of
    [rollout] has no effect: the call behaves as with [train_rl=False].
    At the end of the step loop the local [train_rl] is [False], no reward
    and no mask vector has been appended, the critic has not run and
    [self.loss] is untouched; and when the call returns, the critic has
    still not run and the only terms added to [self.loss] are cross-entropy
    terms of the imitation loss (none at all without [train_ml]). *)
Theorem teacher_argmax_disable_rl (W : World) (self : Agent W)
  (train_ml : option Q) (train_rl_arg reset : bool) :
  feedback self = "teacher" \/ feedback self = "argmax" ->
  rollout self train_ml train_rl_arg reset = rollout self train_ml false reset /\
  (forall self2 loc,
     rollout_steps self train_rl_arg reset = Ok (self2, loc) ->
     train_rl loc = false /\ rewards loc = [] /\ masks loc = [] /\
     critic_calls self2 = critic_calls self /\ loss self2 = loss self) /\
  (forall self' trajs,
     rollout self train_ml train_rl_arg reset = Ok (self', trajs) ->
     critic_calls self' = critic_calls self /\
     exists added,
       terms (loss self') = terms (loss self) ++ added /\
       imitation_terms added /\
       (train_ml = None -> added = [])).
Proof.
  intros Hfb.
  assert (Hsteps : forall self2 loc,
    rollout_steps self train_rl_arg reset = Ok (self2, loc) ->
    train_rl loc = false /\ rewards loc = [] /\ masks loc = [] /\
    critic_calls self2 = critic_calls self /\ loss self2 = loss self /\
    imitation_terms (terms (ml_loss loc))).
  { intros self2 loc H. unfold rollout_steps in H.
    apply bind_Ok in H as ([self1 loc1] & Hinit & Hloop).
    apply rollout_init_inv in Hinit
      as (Hrl & Hr & Hm & Hml & _ & _ & _ & _ & Hc & Hl & _).
    rewrite effective_train_rl_off in Hrl by done.
    apply rollout_loop_later, later_accumulates in Hloop
      as (_ & _ & Hc' & Hl' & Hrl' & _ & Hrew & Hterms).
    simpl in *. destruct (Hrew Hrl) as [-> ->].
    repeat (split; [congruence|]).
    apply Hterms. rewrite Hml. constructor. }
  split; [|split].
  - unfold rollout, rollout_steps, rollout_init.
    by rewrite !effective_train_rl_off.
  - intros self2 loc H. destruct (Hsteps self2 loc H) as (?&?&?&?&?&_). done.
  - intros self' trajs H. unfold rollout in H.
    apply bind_Ok in H as ([self2 loc] & Hrun & H).
    destruct (Hsteps self2 loc Hrun) as (Hrl & _ & _ & Hc & Hl & Hterms).
    rewrite Hrl in H. simpl in H.
    apply bind_Ok in H as (self4 & Hil & H).
    apply bind_Ok in H as (self5 & Hrec & H).
    injection H as <- <-.
    unfold record_loss in Hrec. apply bind_Ok in Hrec as (? & _ & Hrec).
    injection Hrec as <-. simpl.
    unfold add_imitation_loss in Hil. destruct train_ml as [w|].
    + apply bind_Ok in Hil as (? & _ & Hil).
      apply bind_Ok in Hil as (? & _ & Hil).
      injection Hil as <-. simpl. split; [done|].
      exists (terms (ml_loss loc)). rewrite Hl. done.
    + injection Hil as <-. split; [done|].
      exists []. rewrite Hl, app_nil_r. repeat split. constructor.
Qed.

Lemma teacher_argmax_disable_rl_witness :
  exists self' trajs,
    rollout (demo_agent pad_world "argmax" 3 0) (Some 1%Q) true true
      = Ok (self', trajs) /\
    critic_calls self' = 0 /\
    terms (loss self') = [CrossEntropy 0; CrossEntropy 1; CrossEntropy 2].
Proof.
  eexists _, _.
  match goal with
  | |- ?r = Ok (?s, ?trajs) /\ _ =>
      assert (Hrun : r = Ok (s, trajs)) by (vm_compute; reflexivity)
  end.
  split; [exact Hrun|].
  destruct (teacher_argmax_disable_rl pad_world
              (demo_agent pad_world "argmax" 3 0) (Some 1%Q) true true
              (or_intror eq_refl)) as (_ & _ & H).
  destruct (H _ _ Hrun) as [Hc _].
  split; [exact Hc | vm_compute; reflexivity].
Defined.

(** ** Two instances that stop at once *)

Section BothStop.

Context (W : World).

Lemma env_action_one_stop (n : nat) (ended : list bool) (i : nat) :
  env_action_one (W:=W) (n + 1) (Z.of_nat n) ended i = Ok stop_action.
Proof.
  unfold env_action_one.
  replace (Z.of_nat n =? Z.of_nat (n + 1) - 1)%Z with true; [done|].
  symmetry. apply Z.eqb_eq. lia.
Qed.

Lemma reward_instance_stop (weak : bool) (d n ld ln : Q) :
  exists r, reward_instance weak false stop_action d n ld ln = Ok (r, 1%Q).
Proof.
  unfold reward_instance. simpl. destruct (Qltb d 3); by eexists.
Qed.

(** The first iteration on a batch of two whose selected actions are
    both the stop slot. *)
Lemma step_both_stop (self1 : Agent W) (loc0 : Locals W) (sel : Selection W)
  (ob0 ob1 : Obs) (p0 p1 : nat) (obs1 : list Obs) :
  perm_obs loc0 = [ob0; ob1] -> batch_size loc0 = 2 ->
  perm_idx loc0 = [p0; p1] ->
  ended loc0 = [false; false] ->
  traj loc0 = [init_traj ob0; init_traj ob1] ->
  length (last_dist loc0) = 2 -> length (last_ndtw loc0) = 2 ->
  select_action 0 self1 loc0 = Ok sel ->
  s_a_t sel = [Z.of_nat (length (candidate ob0));
               Z.of_nat (length (candidate ob1))] ->
  (forall cc, s_combined_confidence sel = Some cc -> length cc = 2) ->
  take_perm (env_get_obs W (env self1)) (perm_idx loc0) = Ok obs1 ->
  exists self2 loc1 c0 c1,
    step 0 self1 loc0 = Ok (self2, loc1) /\
    t loc1 = Some 0 /\ ended loc1 = [true; true] /\
    traj loc1 = [append_confidence (init_traj ob0) c0;
                 append_confidence (init_traj ob1) c1] /\
    train_rl loc1 = train_rl loc0 /\ batch_size loc1 = 2 /\
    ml_loss loc1 = s_ml_loss sel /\
    loss self2 = loss self1 /\ episode_len self2 = episode_len self1.
Proof.
  intros Hobs Hbs Hperm Hended Htraj Hld Hln Hsel Hat Hcc Hfetch.
  pose proof (select_action_leng W _ _ _ _ Hsel) as Hleng.
  rewrite Hobs in Hleng. simpl in Hleng.
  assert (Hact : exists c0 c1,
    act_phase 0 self1 loc0 =
      Ok (mkActed sel [stop_action; stop_action] (env self1)
            [append_confidence (init_traj ob0) c0;
             append_confidence (init_traj ob1) c1] obs1)).
  { unfold act_phase. rewrite Hsel. simpl.
    rewrite Hobs, Hended, Htraj, Hat, Hleng, Hperm.
    destruct (s_combined_confidence sel) as [cc|] eqn:Hc.
    - specialize (Hcc cc eq_refl).
      destruct cc as [|c0 [|c1 [|? ?]]]; try done.
      simpl. rewrite !env_action_one_stop. simpl.
      rewrite Hperm in Hfetch. rewrite Hfetch. simpl. by eexists _, _.
    - simpl. rewrite !env_action_one_stop. simpl.
      rewrite Hperm in Hfetch. rewrite Hfetch. simpl. by eexists _, _. }
  destruct Hact as (c0 & c1 & Hact).
  assert (Hlen1 : length obs1 = 2).
  { apply mapM_result_length in Hfetch. by rewrite Hfetch, Hperm. }
  destruct obs1 as [|o0 [|o1 [|? ?]]]; try done.
  destruct (last_dist loc0) as [|d0 [|d1 [|? ?]]] eqn:Hd; try done.
  destruct (last_ndtw loc0) as [|n0 [|n1 [|? ?]]] eqn:Hn; try done.
  unfold step. rewrite Hact. simpl. rewrite Hended.
  destruct (train_rl loc0) eqn:Hrl.
  - unfold reward_phase. rewrite Hbs, Hd, Hn. simpl.
    repeat match goal with
    | |- context [reward_instance ?w false stop_action ?d ?n ?ld ?ln] =>
        destruct (reward_instance_stop w d n ld ln) as [? ->]; simpl
    end.
    eexists _, _, c0, c1. split; [reflexivity|]. simpl. done.
  - simpl. eexists _, _, c0, c1. split; [reflexivity|]. simpl. done.
Qed.

End BothStop.

(** C8, as stated, fails in its last part: the length of the confidence
    list does not depend on the feedback mode. On a batch of two instances
    that both stop at step 0, with episode length 3, the rollout records
    exactly one confidence score per trajectory in ['teacher'], in
    ['argmax'] and in ['sample'] feedback; in no mode is the list empty. *)
Lemma confidence_recorded_in_every_mode :
  (exists self' trajs,
     rollout (demo_agent stop_world "teacher" 3 0) None false true = Ok (self', trajs) /\
     (fun tr => length (confidence_scores tr)) <$> trajs = [1; 1]) /\
  (exists self' trajs,
     rollout (demo_agent stop_world "argmax" 3 0) None false true = Ok (self', trajs) /\
     (fun tr => length (confidence_scores tr)) <$> trajs = [1; 1]) /\
  (exists self' trajs,
     rollout (demo_agent stop_world "sample" 3 0) None false true = Ok (self', trajs) /\
     (fun tr => length (confidence_scores tr)) <$> trajs = [1; 1]).
Proof.
  repeat split; eexists _, _; (split; [vm_compute; reflexivity|]);
    vm_compute; reflexivity.
Qed.

(** C8, amended. A batch of two instructions, episode length 3, both
    instances select the stop slot at step 0 (and, in ['argmax'] feedback,
    the ensemble yields one confidence per instance). Then the step loop
    exits after the iteration [t = 0] with both instances ended, each
    trajectory has a path of length 1 and exactly one confidence score, in
    every feedback mode; these are the trajectories [rollout] returns when
    it returns, and it does return when RL is off, no imitation weight is
    given and [self.loss] is not a float. *)
Theorem early_exit_both_stop (W : World) (self self1 : Agent W)
  (loc0 : Locals W) (sel : Selection W) (ob0 ob1 : Obs) (obs1 : list Obs)
  (train_ml : option Q) (train_rl_arg reset : bool) :
  rollout_init self train_rl_arg reset = Ok (self1, loc0) ->
  perm_obs loc0 = [ob0; ob1] -> batch_size loc0 = 2 ->
  episode_len self = 3 ->
  select_action 0 self1 loc0 = Ok sel ->
  s_a_t sel = [Z.of_nat (length (candidate ob0));
               Z.of_nat (length (candidate ob1))] ->
  (forall cc, s_combined_confidence sel = Some cc -> length cc = 2) ->
  take_perm (env_get_obs W (env self1)) (perm_idx loc0) = Ok obs1 ->
  exists self2 loc,
    rollout_steps self train_rl_arg reset = Ok (self2, loc) /\
    t loc = Some 0 /\ ended loc = [true; true] /\
    (exists tr0 tr1,
       traj loc = [tr0; tr1] /\
       length (path tr0) = 1 /\ length (path tr1) = 1 /\
       length (confidence_scores tr0) = 1 /\
       length (confidence_scores tr1) = 1) /\
    (forall self' trajs,
       rollout self train_ml train_rl_arg reset = Ok (self', trajs) ->
       trajs = traj loc) /\
    (train_rl loc = false -> train_ml = None -> kind (loss self) <> PyFloat ->
     exists self', rollout self train_ml train_rl_arg reset = Ok (self', traj loc)).
Proof.
  intros Hinit Hobs Hbs Hlen Hsel Hat Hcc Hfetch.
  pose proof (rollout_init_inv W _ _ _ _ _ Hinit)
    as (_ & _ & _ & _ & Hended & Htraj & _ & Hel & _ & Hloss & Hld & Hln & Hpi).
  rewrite Hbs in Hended, Hld, Hln. rewrite Hobs in Htraj, Hpi.
  simpl in Hended, Htraj, Hpi.
  destruct (perm_idx loc0) as [|p0 [|p1 [|? ?]]] eqn:Hperm; try done.
  rewrite <- Hperm in Hfetch.
  destruct (step_both_stop W self1 loc0 sel ob0 ob1 p0 p1 obs1)
    as (self2 & loc1 & c0 & c1 & Hstep & Ht & He & Htr & Hrl & _ & _ & Hl2 & Hel2);
    try done.
  assert (Hsteps : rollout_steps self train_rl_arg reset = Ok (self2, loc1)).
  { unfold rollout_steps. rewrite Hinit. simpl. rewrite Hel, Hlen. simpl.
    rewrite Hstep. simpl. by rewrite He. }
  exists self2, loc1. split; [done|]. split; [done|]. split; [done|].
  split; [|split].
  - rewrite Htr. by eexists _, _.
  - intros self' trajs H. unfold rollout in H. rewrite Hsteps in H. simpl in H.
    inv_bind H. by norm_items.
  - intros Hoff -> Hkind. unfold rollout. rewrite Hsteps. simpl.
    rewrite Hoff. simpl. unfold record_loss.
    rewrite Hl2, Hloss, Hel2, Hel, Hlen.
    destruct (kind (loss self)) eqn:Hk; try done; simpl.
    + by eexists.
    + unfold item. rewrite Hk. simpl. by eexists.
Qed.

Lemma early_exit_both_stop_witness :
  exists self2 loc,
    rollout_steps (demo_agent stop_world "argmax" 3 0) true true = Ok (self2, loc) /\
    t loc = Some 0 /\ ended loc = [true; true] /\
    exists self', rollout (demo_agent stop_world "argmax" 3 0) None true true
                  = Ok (self', traj loc).
Proof.
  eassert (Hinit : rollout_init (demo_agent stop_world "argmax" 3 0) true true
                   = Ok (_, _)) by (vm_compute; reflexivity).
  match type of Hinit with
  | _ = Ok (?s1, ?l0) =>
      eassert (Hsel : select_action 0 s1 l0 = Ok _) by (vm_compute; reflexivity);
      eassert (Hfetch : take_perm (env_get_obs stop_world (env s1)) (perm_idx l0)
                        = Ok _) by (vm_compute; reflexivity)
  end.
  match type of Hinit with
  | _ = Ok (?s1, ?l0) =>
      match type of Hsel with
      | _ = Ok ?sel =>
          match type of Hfetch with
          | _ = Ok ?obs1 =>
              destruct (early_exit_both_stop stop_world
                          (demo_agent stop_world "argmax" 3 0) s1 l0 sel
                          (scene_obs "i0" "A" 5 []) (scene_obs "i1" "C" 2 [])
                          obs1 None true true Hinit)
                as (self2 & loc & Hsteps & Ht & He & _ & _ & Hret);
                [reflexivity | reflexivity | reflexivity | exact Hsel
                | reflexivity | intros cc [= <-]; reflexivity | exact Hfetch |]
          end
      end
  end.
  exists self2, loc. split; [exact Hsteps|]. split; [exact Ht|].
  split; [exact He|].
  apply Hret; [|reflexivity|discriminate].
  pose proof Hsteps as Hc. vm_compute in Hc. injection Hc as _ <-. reflexivity.
Defined.

(** ** The confidence estimator *)

Section ConfidenceFacts.

Local Open Scope R_scope.

Lemma Rsum_cons (x : R) (v : list R) : Rsum (x :: v) = x + Rsum v.
Proof. reflexivity. Qed.

Lemma entry_lookup (m : list (list R)) (i j : nat) (row : list R) (x : R) :
  m !! i = Some row -> row !! j = Some x -> entry m i j = x.
Proof.
  intros Hi Hj. unfold entry.
  rewrite (nth_lookup_Some _ _ _ _ Hi). by apply nth_lookup_Some.
Qed.

Lemma mat_shape_lookup (m : list (list R)) (b k i : nat) :
  mat_shape m b k -> (i < b)%nat ->
  exists row, m !! i = Some row /\ length row = k.
Proof.
  intros [Hb Hk] Hi.
  destruct (lookup_lt_is_Some_2 m i) as [row Hrow]; [lia|].
  exists row. split; [done|].
  by apply (Forall_lookup_1 _ _ _ _ Hk Hrow).
Qed.

(** A matrix with the right shape is the table of its entries. *)
Lemma mat_shape_table (m : list (list R)) (b k : nat) :
  mat_shape m b k ->
  m = (fun i => (fun j => entry m i j) <$> seq 0 k) <$> seq 0 b.
Proof.
  intros Hm. apply list_eq. intros i.
  rewrite list_lookup_fmap.
  destruct (decide (i < b)%nat) as [Hi|Hi].
  - destruct (mat_shape_lookup m b k i Hm Hi) as (row & Hrow & Hlen).
    rewrite Hrow, lookup_seq_lt by done. simpl. f_equal.
    apply list_eq. intros j. rewrite list_lookup_fmap.
    destruct (decide (j < k)%nat) as [Hj|Hj].
    + rewrite lookup_seq_lt by done. simpl.
      destruct (lookup_lt_is_Some_2 row j) as [x Hx]; [lia|].
      rewrite Hx. f_equal. symmetry. by eapply entry_lookup.
    + rewrite lookup_seq_ge by lia. simpl.
      apply lookup_ge_None. lia.
  - rewrite lookup_seq_ge by lia. simpl.
    apply lookup_ge_None. destruct Hm as [-> _]. lia.
Qed.

Lemma mat_map2_shape (f : R -> R -> R) (a c : list (list R)) (b k : nat) :
  mat_shape a b k -> mat_shape c b k -> mat_shape (mat_map2 f a c) b k.
Proof.
  intros [Ha Hak] [Hc Hck]. unfold mat_map2. split.
  - rewrite length_zip_with. lia.
  - apply Forall_lookup. intros i row Hrow.
    apply lookup_zip_with_Some in Hrow as (ra & rc & -> & Hra & Hrc).
    rewrite length_zip_with.
    rewrite (Forall_lookup_1 _ _ _ _ Hak Hra), (Forall_lookup_1 _ _ _ _ Hck Hrc).
    lia.
Qed.

Lemma mat_map2_entry (f : R -> R -> R) (a c : list (list R)) (b k i j : nat) :
  mat_shape a b k -> mat_shape c b k -> (i < b)%nat -> (j < k)%nat ->
  entry (mat_map2 f a c) i j = f (entry a i j) (entry c i j).
Proof.
  intros Ha Hc Hi Hj.
  destruct (mat_shape_lookup a b k i Ha Hi) as (ra & Hra & Hla).
  destruct (mat_shape_lookup c b k i Hc Hi) as (rc & Hrc & Hlc).
  destruct (lookup_lt_is_Some_2 ra j) as [x Hx]; [lia|].
  destruct (lookup_lt_is_Some_2 rc j) as [y Hy]; [lia|].
  rewrite (entry_lookup a i j ra x), (entry_lookup c i j rc y) by done.
  apply (entry_lookup _ i j (zip_with f ra rc)).
  - unfold mat_map2. apply lookup_zip_with_Some. by exists ra, rc.
  - apply lookup_zip_with_Some. by exists x, y.
Qed.

(** Adding up a stack of matrices adds up each entry across the stack. *)
Lemma foldl_sum_entry (b k : nat) (ms : list (list (list R))) :
  forall m,
    mat_shape m b k -> Forall (fun s => mat_shape s b k) ms ->
    mat_shape (foldl (mat_map2 Rplus) m ms) b k /\
    forall i j, (i < b)%nat -> (j < k)%nat ->
      entry (foldl (mat_map2 Rplus) m ms) i j =
        entry m i j + Rsum ((fun s => entry s i j) <$> ms).
Proof.
  induction ms as [|s rest IH]; intros m Hm Hms; cbn [foldl].
  - split; [done|]. intros i j _ _. simpl. lra.
  - apply Forall_cons in Hms as [Hs Hrest].
    destruct (IH (mat_map2 Rplus m s)) as [Hshape Hentry];
      [by apply mat_map2_shape | done |].
    split; [done|]. intros i j Hi Hj.
    rewrite (Hentry i j Hi Hj), fmap_cons, Rsum_cons.
    rewrite (mat_map2_entry Rplus m s b k i j Hm Hs Hi Hj). lra.
Qed.

Lemma sum_dim0_entry (x : list (list (list R))) (n b k : nat) :
  has_shape x n b k -> (0 < n)%nat ->
  mat_shape (sum_dim0 x) b k /\
  forall i j, (i < b)%nat -> (j < k)%nat ->
    entry (sum_dim0 x) i j = Rsum ((fun s => entry s i j) <$> x).
Proof.
  intros [Hn Hx] Hpos. destruct x as [|m ms]; [simpl in Hn; lia|].
  apply Forall_cons in Hx as [Hm Hms]. cbn [sum_dim0].
  destruct (foldl_sum_entry b k ms m Hm Hms) as [Hshape Hentry].
  split; [done|]. intros i j Hi Hj.
  by rewrite (Hentry i j Hi Hj), fmap_cons, Rsum_cons.
Qed.

(** Mapping a function over every entry. *)
Lemma map_entries_table (f : R -> R) (m : list (list R)) (b k : nat) :
  mat_shape m b k ->
  (fun row : list R => f <$> row) <$> m =
    (fun i => (fun j => f (entry m i j)) <$> seq 0 k) <$> seq 0 b.
Proof.
  intros Hm. rewrite (mat_shape_table m b k Hm) at 1.
  rewrite <- list_fmap_compose. apply list_fmap_ext. intros _ i _. simpl.
  by rewrite <- list_fmap_compose.
Qed.

Lemma table_shape (g : nat -> nat -> R) (b k : nat) : mat_shape (table g b k) b k.
Proof.
  unfold table. split; [by rewrite length_fmap, length_seq|].
  apply Forall_fmap, Forall_forall. intros i _. simpl.
  by rewrite length_fmap, length_seq.
Qed.

Lemma table_entry (g : nat -> nat -> R) (b k i j : nat) :
  (i < b)%nat -> (j < k)%nat -> entry (table g b k) i j = g i j.
Proof.
  intros Hi Hj. apply (entry_lookup _ i j ((fun j => g i j) <$> seq 0 k)).
  - unfold table. by rewrite list_lookup_fmap, lookup_seq_lt.
  - by rewrite list_lookup_fmap, lookup_seq_lt.
Qed.

Lemma table_ext (g h : nat -> nat -> R) (b k : nat) :
  (forall i j, (i < b)%nat -> (j < k)%nat -> g i j = h i j) ->
  table g b k = table h b k.
Proof.
  intros Hgh. unfold table. apply list_fmap_ext. intros i' i Hi.
  apply lookup_seq in Hi as [-> Hi]. simpl.
  apply list_fmap_ext. intros j' j Hj.
  apply lookup_seq in Hj as [-> Hj]. simpl. by apply Hgh.
Qed.

Lemma ensemble_length (x : list (list (list R))) (i j : nat) :
  length (ensemble x i j) = length x.
Proof. unfold ensemble. by rewrite length_fmap. Qed.

(** [logits.mean(dim=0)], entry by entry. *)
Lemma mean_dim0_table (x : list (list (list R))) (n b k : nat) :
  has_shape x n b k -> (0 < n)%nat ->
  mean_dim0 x = table (fun i j => Rmean (ensemble x i j)) b k.
Proof.
  intros Hx Hn. destruct (sum_dim0_entry x n b k Hx Hn) as [Hshape Hentry].
  unfold mean_dim0.
  rewrite (map_entries_table _ (sum_dim0 x) b k Hshape).
  apply table_ext. intros i j Hi Hj.
  rewrite (Hentry i j Hi Hj). unfold Rmean. by rewrite ensemble_length.
Qed.

(** [logits.var(dim=0)], entry by entry. *)
Lemma var_dim0_table (x : list (list (list R))) (n b k : nat) :
  has_shape x n b k -> (0 < n)%nat ->
  var_dim0 x = table (fun i j => variance (ensemble x i j)) b k.
Proof.
  intros Hx Hn. unfold var_dim0.
  rewrite (mean_dim0_table x n b k Hx Hn).
  set (mu := table (fun i j => Rmean (ensemble x i j)) b k).
  set (dev := (fun m => mat_map2 (fun a c => (a - c) ^ 2) m mu) <$> x).
  assert (Hdev : has_shape dev n b k).
  { destruct Hx as [Hlen Hall]. split; [by unfold dev; rewrite length_fmap|].
    unfold dev. apply Forall_fmap. eapply Forall_impl; [exact Hall|].
    intros m Hm. simpl. apply mat_map2_shape; [done|apply table_shape]. }
  destruct (sum_dim0_entry dev n b k Hdev Hn) as [Hshape Hentry].
  rewrite (map_entries_table _ (sum_dim0 dev) b k Hshape).
  apply table_ext. intros i j Hi Hj.
  rewrite (Hentry i j Hi Hj). unfold variance.
  rewrite ensemble_length. unfold dev, ensemble. f_equal. f_equal.
  rewrite <- !list_fmap_compose.
  apply list_fmap_ext. intros p m Hm. simpl.
  destruct Hx as [_ Hall].
  pose proof (Forall_lookup_1 _ _ _ _ Hall Hm) as Hshape_m.
  rewrite (mat_map2_entry _ m mu b k i j Hshape_m (table_shape _ b k) Hi Hj).
  unfold mu. by rewrite table_entry.
Qed.

End ConfidenceFacts.

(** C3. For an ensemble of two or more logit matrices of shape
    [(batch, candidates)] with two or more candidates,
    [calculate_confidence] returns one value per batch instance, and the
    value of instance [i] is the arithmetic mean of three terms: the entropy confidence [1 - H / ln candidates], with [H]
    the Shannon entropy (epsilon inside the logarithm) of the softmax of
    the ensemble-mean logits; one minus the mean over the candidates of the
    variance of each candidate's logits across the ensemble (the unbiased
    sample variance, as [torch.var] computes it); and the largest
    probability of that softmax. *)
Theorem calculate_confidence_combines (logits : list (list (list R)))
  (n b k i : nat) :
  has_shape logits n b k -> 2 <= n -> 2 <= k -> i < b ->
  length (calculate_confidence logits) = b /\
  calculate_confidence logits !! i =
    Some ((spec_entropy_confidence logits k i
           + spec_inverse_variance logits k i
           + spec_agreement logits k i) / 3)%R.
Proof.
  intros Hx Hn2 Hk2 Hi. assert (Hn : 0 < n) by lia.
  unfold calculate_confidence.
  rewrite (mean_dim0_table logits n b k Hx Hn).
  rewrite (var_dim0_table logits n b k Hx Hn).
  set (mean_logits := table (fun i j => Rmean (ensemble logits i j)) b k).
  set (var_logits := table (fun i j => variance (ensemble logits i j)) b k).
  assert (Hlm : length mean_logits = b) by apply table_shape.
  assert (Hlv : length var_logits = b) by apply table_shape.
  assert (Hlast : shape_last (softmax <$> mean_logits) = k).
  { unfold mean_logits, table. destruct b as [|b]; [lia|].
    simpl. unfold softmax. by rewrite !length_fmap, length_seq. }
  split.
  - rewrite !length_zip_with, !length_fmap. lia.
  - assert (Hrow : mean_logits !! i =
                     Some ((fun j => Rmean (ensemble logits i j)) <$> seq 0 k)).
    { unfold mean_logits, table. by rewrite list_lookup_fmap, lookup_seq_lt. }
    assert (Hvar : var_logits !! i =
                     Some ((fun j => variance (ensemble logits i j)) <$> seq 0 k)).
    { unfold var_logits, table. by rewrite list_lookup_fmap, lookup_seq_lt. }
    apply lookup_zip_with_Some.
    exists (spec_entropy_confidence logits k i + spec_inverse_variance logits k i)%R,
           (spec_agreement logits k i).
    split; [done|]. split.
    + apply lookup_zip_with_Some.
      exists (spec_entropy_confidence logits k i),
             (Rmean ((fun j => variance (ensemble logits i j)) <$> seq 0 k)).
      split; [done|]. split.
      * rewrite !list_lookup_fmap, Hrow, Hlast. done.
      * by rewrite list_lookup_fmap, Hvar.
    + by rewrite !list_lookup_fmap, Hrow.
Qed.

Lemma calculate_confidence_combines_witness :
  length (calculate_confidence two_pass_logits) = 1 /\
  calculate_confidence two_pass_logits !! 0 =
    Some ((spec_entropy_confidence two_pass_logits 2 0
           + spec_inverse_variance two_pass_logits 2 0
           + spec_agreement two_pass_logits 2 0) / 3)%R.
Proof.
  apply (calculate_confidence_combines two_pass_logits 2 1 2 0).
  - split; [reflexivity|]. repeat constructor.
  - lia.
  - lia.
  - lia.
Defined.

(** * Further properties of the code *)

(** ** What becomes of a rollout after its step loop *)

Section AfterTheLoop.

Context (W : World).

(** The actor-critic pass stops at its first statement that unpacks the
    network's answer: the visual mode returns three values and
    [last_h_, _ = ...] takes two. On an empty batch [max(candidate_leng)]
    has already raised the same exception. *)
Lemma a2c_raises (self : Agent W) (loc : Locals W) :
  a2c self loc = Raise ValueError.
Proof.
  unfold a2c, get_input_feat.
  destruct (perm_obs loc) as [|ob rest] eqn:Hobs; [done|].
  cbn [fmap list_fmap py_max mbind result_bind mret result_ret].
  unfold length2mask. cbn [py_max mbind result_bind mret result_ret].
  destruct (forward_visual W (torch self) (h_t loc)
              (cat_state W (h_t loc) (language_features loc)) (ob :: rest))
    as (sp & logit & c & Hf & _).
  rewrite Hf. reflexivity.
Qed.

(** What the step loop leaves of the caller's arguments and of the agent. *)
Lemma rollout_steps_inv (self s : Agent W) (loc : Locals W) b reset :
  rollout_steps self b reset = Ok (s, loc) ->
  train_rl loc = effective_train_rl (feedback self) b /\
  feedback s = feedback self /\ episode_len s = episode_len self /\
  critic_calls s = critic_calls self /\ loss s = loss self.
Proof.
  unfold rollout_steps. intros H.
  apply bind_Ok in H as ([self1 loc1] & Hinit & Hloop).
  apply rollout_init_inv in Hinit
    as (Hrl & _ & _ & _ & _ & _ & Hfb & Hel & Hc & Hl & _).
  apply rollout_loop_later, later_accumulates in Hloop
    as (Hfb' & Hel' & Hc' & Hl' & Hrl' & _).
  simpl in *. repeat split; congruence.
Qed.

(** Outside ['argmax'] feedback no step touches [ml_loss]. *)
Lemma later_ml_loss (s1 s2 : Agent W * Locals W) :
  later s1 s2 -> feedback s1.1 <> "argmax" -> ml_loss s2.2 = ml_loss s1.2.
Proof.
  induction 1 as [s|t0 self loc [self1 loc1] s2 Hstep Hlater IH]; [done|].
  intros Hfb. simpl in *.
  apply step_inv in Hstep as (act & Hact & _ & _ & _ & _ & _ & _ & Hself
                              & _ & _ & _ & _ & Hml & _).
  apply act_phase_inv in Hact as (traj1 & Hsel & _).
  rewrite IH by (rewrite Hself; done). rewrite Hml.
  unfold select_action in Hsel. inv_bind Hsel.
  destruct (String.eqb_spec (feedback self) "argmax") as [Heq|_]; [done|].
  inv_bind Hsel. norm_items. done.
Qed.

Lemma rollout_steps_ml_loss (self s : Agent W) (loc : Locals W) b reset :
  rollout_steps self b reset = Ok (s, loc) ->
  feedback self <> "argmax" -> ml_loss loc = mkLoss PyFloat [].
Proof.
  unfold rollout_steps. intros H Hfb.
  apply bind_Ok in H as ([self1 loc1] & Hinit & Hloop).
  assert (Hml : ml_loss loc1 = mkLoss PyFloat []).
  { unfold rollout_init in Hinit.
    destruct (if reset then _ else _) as [sim obs]. inv_bind Hinit.
    norm_items. by subst. }
  apply rollout_init_inv in Hinit as (_&_&_&_&_&_& Hfb' &_).
  apply rollout_loop_later, later_ml_loss in Hloop; simpl in *; congruence.
Qed.

(** Whatever the step loop did, a rollout with RL on does not return. *)
Lemma rollout_rl_fails (self : Agent W) ml b reset :
  effective_train_rl (feedback self) b = true ->
  forall r, rollout self ml b reset <> Ok r.
Proof.
  intros Hrl r H. unfold rollout in H.
  apply bind_Ok in H as ([s loc] & Hsteps & H).
  apply rollout_steps_inv in Hsteps as (Hrl' & _).
  rewrite Hrl', Hrl, a2c_raises in H. done.
Qed.

(** Nor does a rollout that is given an imitation weight outside
    ['argmax'] feedback. *)
Lemma rollout_il_fails (self : Agent W) w b reset :
  feedback self <> "argmax" ->
  forall r, rollout self (Some w) b reset <> Ok r.
Proof.
  intros Hfb r H. unfold rollout in H.
  apply bind_Ok in H as ([s loc] & Hsteps & H).
  pose proof (rollout_steps_ml_loss _ _ _ _ _ Hsteps Hfb) as Hml.
  destruct (train_rl loc); [by rewrite a2c_raises in H|].
  simpl in H. unfold add_imitation_loss, item in H. rewrite Hml in H.
  simpl in H. by destruct (batch_size loc).
Qed.

End AfterTheLoop.

(** ** The trajectories of a rollout *)

Section Trajectories.

Context (W : World).

(** The confidence loop appends one entry to the trajectory of every
    instance that has not ended, and touches nothing else. *)
Lemma store_confidence_spec ended cc obs :
  forall k (traj traj' : list (Traj W)),
    store_confidence k obs ended cc traj = Ok traj' ->
    (forall i, ~ (k <= i < k + length obs) -> traj' !! i = traj !! i) /\
    (forall i, k <= i < k + length obs ->
       exists e, ended !! i = Some e /\
         if e : bool then traj' !! i = traj !! i
         else exists tr c, traj !! i = Some tr /\
                traj' !! i = Some (append_confidence tr c) /\
                match cc with
                | Some l => exists s, l !! i = Some s /\ c = ConfValue s
                | None => c = ConfZero
                end).
Proof.
  induction obs as [|ob rest IH]; intros k traj traj'; simpl.
  - intros [= <-]. split; [done|]. intros i Hi. lia.
  - intros H. apply bind_Ok in H as (e & He & H).
    apply bind_Ok in H as (traj1 & H1 & H).
    apply getitem_Ok in He.
    apply IH in H as [Hout Hin].
    assert (Hk : traj' !! k = traj1 !! k) by (apply Hout; lia).
    assert (H1' : (forall i, i <> k -> traj1 !! i = traj !! i) /\
                  if e then traj1 !! k = traj !! k
                  else exists tr c, traj !! k = Some tr /\
                         traj1 !! k = Some (append_confidence tr c) /\
                         match cc with
                         | Some l => exists s, l !! k = Some s /\ c = ConfValue s
                         | None => c = ConfZero
                         end).
    { destruct e.
      - injection H1 as <-. done.
      - apply bind_Ok in H1 as (tr & Htr & H1).
        apply bind_Ok in H1 as (c & Hc & H1).
        injection H1 as <-. apply getitem_Ok in Htr.
        split.
        + intros i Hi. by apply list_lookup_insert_ne.
        + exists tr, c. split; [done|]. split.
          * apply list_lookup_insert_eq. by eapply lookup_lt_Some.
          * destruct cc as [l|].
            -- apply bind_Ok in Hc as (s & Hs & Hc). injection Hc as <-.
               apply getitem_Ok in Hs. by exists s.
            -- by injection Hc as <-. }
    destruct H1' as [Hne Hat].
    split.
    + intros i Hi. rewrite Hout by lia. apply Hne. lia.
    + intros i Hi. destruct (decide (i = k)) as [->|Hik].
      * exists e. split; [done|]. rewrite Hk. exact Hat.
      * destruct (Hin i) as (e' & He' & Hi'); [lia|].
        exists e'. split; [done|]. rewrite (Hne i Hik) in Hi'. exact Hi'.
Qed.

(** The move loop appends one pose to the trajectory of every instance
    whose action is not the sentinel, and touches nothing else. *)
Lemma make_equiv_action_spec a_t obs idxs :
  forall k (sim sim' : Sim W) (traj traj' : list (Traj W)),
    make_equiv_action k idxs a_t obs sim traj = Ok (sim', traj') ->
    (forall i, ~ (k <= i < k + length idxs) -> traj' !! i = traj !! i) /\
    (forall i, k <= i < k + length idxs ->
       exists a, a_t !! i = Some a /\
         if (a =? stop_action)%Z then traj' !! i = traj !! i
         else exists tr p, traj !! i = Some tr /\
                traj' !! i = Some (append_path tr p)).
Proof.
  induction idxs as [|idx rest IH]; intros k sim sim' traj traj'; simpl.
  - intros [= <- <-]. split; [done|]. intros i Hi. lia.
  - intros H. apply bind_Ok in H as (a & Ha & H). apply getitem_Ok in Ha.
    destruct (a =? stop_action)%Z eqn:Hstop.
    + apply IH in H as [Hout Hin]. split.
      * intros i Hi. apply Hout. lia.
      * intros i Hi. destruct (decide (i = k)) as [->|Hik].
        -- exists a. split; [done|]. rewrite Hstop. apply Hout. lia.
        -- apply Hin. lia.
    + apply bind_Ok in H as (ob & _ & H).
      apply bind_Ok in H as (cand & _ & H).
      apply bind_Ok in H as ([sim1 p] & _ & H).
      apply bind_Ok in H as (tr & Htr & H). apply getitem_Ok in Htr.
      apply IH in H as [Hout Hin]. split.
      * intros i Hi. rewrite Hout by lia.
        apply list_lookup_insert_ne. lia.
      * intros i Hi. destruct (decide (i = k)) as [->|Hik].
        -- exists a. split; [done|]. rewrite Hstop. exists tr, p.
           split; [done|]. rewrite Hout by lia.
           apply list_lookup_insert_eq. by eapply lookup_lt_Some.
        -- destruct (Hin i) as (a' & Ha' & Hi'); [lia|].
           exists a'. split; [done|].
           rewrite list_lookup_insert_ne in Hi' by done. exact Hi'.
Qed.

(** [ended[:] = np.logical_or(ended, cpu_a_t == -1)] entry by entry, also
    when the right-hand side is broadcast from a single entry. *)
Lemma update_ended_at ended cpu ended' i e a :
  update_ended ended cpu = Ok ended' ->
  ended !! i = Some e -> cpu !! i = Some a ->
  ended' !! i = Some (e || (a =? stop_action)%Z).
Proof.
  unfold update_ended. intros H He Ha.
  apply bind_Ok in H as (flags & Hb & H). injection H as <-.
  apply lookup_zip_with_Some. exists e, (a =? stop_action)%Z.
  split; [done|]. split; [done|].
  unfold broadcast in Hb. case_bool_decide.
  - injection Hb as <-. by rewrite list_lookup_fmap, Ha.
  - destruct cpu as [|a0 [|a1 cpu]]; try done.
    injection Hb as <-. destruct i as [|i]; [|done].
    injection Ha as ->. apply lookup_replicate_2.
    by eapply lookup_lt_Some.
Qed.

(** The combined confidence is there exactly under ['argmax'] feedback. *)
Lemma select_action_confidence t0 (self : Agent W) (loc : Locals W) sel :
  select_action t0 self loc = Ok sel ->
  if String.eqb (feedback self) "argmax"
  then is_Some (s_combined_confidence sel)
  else s_combined_confidence sel = None.
Proof.
  unfold select_action. intros H. inv_bind H.
  destruct (String.eqb (feedback self) "argmax"); inv_bind H; norm_items;
    simpl; [by eexists | done].
Qed.

(** One iteration, seen from the trajectory of instance [i]. *)
Lemma step_traj t0 (self self' : Agent W) (loc loc' : Locals W) :
  step t0 self loc = Ok (self', loc') ->
  length (perm_obs loc) = length (perm_idx loc) ->
  length (perm_obs loc') = length (perm_idx loc) /\
  length (traj loc') = length (traj loc) /\
  (forall i, ~ i < length (perm_idx loc) -> traj loc' !! i = traj loc !! i) /\
  (forall i, i < length (perm_idx loc) ->
     exists e a, ended loc !! i = Some e /\ cpu_a_t loc' !! i = Some a /\
       ended loc' !! i = Some (e || (a =? stop_action)%Z) /\
       if e : bool then a = stop_action /\ traj loc' !! i = traj loc !! i
       else exists tr c, traj loc !! i = Some tr /\
              match c with
              | ConfValue _ => feedback self = "argmax"
              | ConfZero => feedback self <> "argmax"
              end /\
              if (a =? stop_action)%Z
              then traj loc' !! i = Some (append_confidence tr c)
              else exists p, traj loc' !! i =
                               Some (append_path (append_confidence tr c) p)).
Proof.
  intros Hstep Hlen.
  apply step_inv in Hstep
    as (act & Hact & Hcpu & Htraj & Hobs & _ & _ & Hupd & _).
  apply act_phase_inv in Hact as (traj1 & Hsel & Hconf & Henv & Hmove & Hperm).
  rewrite Hcpu, Htraj, Hobs in *.
  apply select_action_confidence in Hsel.
  pose proof (store_confidence_ended _ _ _ _ _ _ _ Hconf) as [Hlen1 _].
  pose proof (make_equiv_action_frozen _ _ _ _ _ _ _ _ _ Hmove) as [Hlen2 _].
  apply store_confidence_spec in Hconf as [Hc_out Hc_in].
  apply env_action_ended in Henv as [_ Henv].
  apply make_equiv_action_spec in Hmove as [Hm_out Hm_in].
  apply mapM_result_length in Hperm.
  split; [done|]. split; [congruence|]. split.
  - intros i Hi. rewrite Hm_out by (simpl; lia). apply Hc_out. simpl. lia.
  - intros i Hi.
    destruct (Hc_in i) as (e & He & Hci); [simpl; lia|].
    destruct (Hm_in i) as (a & Ha & Hmi); [simpl; lia|].
    exists e, a. split; [done|]. split; [done|].
    split; [by eapply update_ended_at|].
    destruct e.
    + assert (a = stop_action) as -> by (by apply (Henv i a)).
      simpl in Hmi. split; [done|]. congruence.
    + destruct Hci as (tr & c & Htr & Htr1 & Hc). exists tr, c.
      split; [done|]. split.
      * destruct (String.eqb_spec (feedback self) "argmax") as [Heq|Hne].
        -- destruct Hsel as [l Hl]. rewrite Hl in Hc.
           destruct Hc as (s & _ & ->). done.
        -- rewrite Hsel in Hc. by subst c.
      * destruct (a =? stop_action)%Z; [congruence|].
        destruct Hmi as (tr1 & p & Htr1' & Hp). exists p.
        rewrite Htr1 in Htr1'. by injection Htr1' as <-.
Qed.

(** An instance that has ended stays so. *)
Lemma later_keeps_ended (s1 s2 : Agent W * Locals W) (i : nat) :
  later s1 s2 -> ended s1.2 !! i = Some true -> ended s2.2 !! i = Some true.
Proof.
  induction 1 as [s|t0 self loc s1 s2 Hstep Hlater IH]; [done|].
  intros He. apply IH.
  by destruct (step_keeps_ended W t0 self loc s1 i Hstep He) as [? _].
Qed.

(** What zero or more iterations do to the trajectory of an instance: its
    instruction is the same, poses and confidence entries are appended,
    the entries are floats exactly under ['argmax'] feedback, and as many
    poses as entries are appended, but for the entry of the iteration in
    which the instance stops. *)
Lemma later_traj (s1 s2 : Agent W * Locals W) :
  later s1 s2 ->
  length (perm_obs s1.2) = length (perm_idx s1.2) ->
  length (traj s1.2) = length (perm_idx s1.2) ->
  perm_idx s2.2 = perm_idx s1.2 /\
  length (perm_obs s2.2) = length (perm_idx s1.2) /\
  length (traj s2.2) = length (perm_idx s1.2) /\
  forall i tr1, traj s1.2 !! i = Some tr1 ->
    exists tr2 ps cs, traj s2.2 !! i = Some tr2 /\
      tr_instr_id tr2 = tr_instr_id tr1 /\
      path tr2 = path tr1 ++ ps /\
      confidence_scores tr2 = confidence_scores tr1 ++ cs /\
      Forall (fun c => match c with
                       | ConfValue _ => feedback s1.1 = "argmax"
                       | ConfZero => feedback s1.1 <> "argmax"
                       end) cs /\
      length ps + (if default false (ended s2.2 !! i) then 1 else 0) =
      length cs + (if default false (ended s1.2 !! i) then 1 else 0).
Proof.
  induction 1 as [s|t0 self loc [self1 loc1] s2 Hstep Hlater IH];
    intros Hobs Htraj.
  - repeat (split; [done|]). intros i tr1 Hi. exists tr1, [], [].
    rewrite !app_nil_r. repeat (split; [done|]). done.
  - simpl in *.
    pose proof (step_traj _ _ _ _ _ Hstep Hobs) as (Hobs1 & Hlen1 & Hout & Hin).
    apply step_inv in Hstep
      as (act & _ & _ & _ & _ & _ & _ & _ & Hself & _ & _ & _ & Hperm & _).
    assert (Hfb : feedback self1 = feedback self) by (by rewrite Hself).
    destruct IH as (Hp & Ho & Ht & Hall); [congruence | congruence |].
    rewrite Hfb in Hall.
    split; [congruence|]. split; [congruence|]. split; [congruence|].
    intros i tr1 Hi.
    assert (Hlt : i < length (perm_idx loc))
      by (rewrite <- Htraj; by eapply lookup_lt_Some).
    destruct (Hin i Hlt) as (e & a & He & Ha & He' & Hcase).
    rewrite He. destruct e.
    + destruct Hcase as [-> Hsame]. rewrite Hi in Hsame.
      destruct (Hall i tr1 Hsame)
        as (tr2 & ps & cs & H2 & Hid & Hpath & Hconf & Hkind & Hcount).
      exists tr2, ps, cs. rewrite He' in Hcount. done.
    + destruct Hcase as (tr & c & Htr & Hc & Hcase).
      rewrite Hi in Htr. injection Htr as <-.
      destruct (a =? stop_action)%Z eqn:Hstop.
      * destruct (Hall i _ Hcase)
          as (tr2 & ps & cs & H2 & Hid & Hpath & Hconf & Hkind & Hcount).
        exists tr2, ps, (c :: cs). rewrite He' in Hcount. simpl in *.
        repeat (split; [done|]).
        split; [by rewrite Hconf, <- app_assoc|].
        split; [by constructor | lia].
      * destruct Hcase as [p Hcase].
        destruct (Hall i _ Hcase)
          as (tr2 & ps & cs & H2 & Hid & Hpath & Hconf & Hkind & Hcount).
        exists tr2, (p :: ps), (c :: cs). rewrite He' in Hcount. simpl in *.
        repeat (split; [done|]).
        split; [by rewrite Hpath, <- app_assoc|].
        split; [by rewrite Hconf, <- app_assoc|].
        split; [by constructor | lia].
Qed.

(** The state before the first iteration: one fresh trajectory per
    permuted observation, no instance ended. *)
Lemma rollout_init_traj (self self1 : Agent W) (loc : Locals W) b reset :
  rollout_init self b reset = Ok (self1, loc) ->
  length (perm_obs loc) = length (perm_idx loc) /\
  length (traj loc) = length (perm_idx loc) /\
  feedback self1 = feedback self /\
  t loc = None /\
  forall i, default false (ended loc !! i) = false.
Proof.
  intros H.
  assert (Ht : t loc = None).
  { unfold rollout_init in H.
    destruct (if reset then _ else _) as [sim obs]. inv_bind H.
    norm_items. by subst. }
  apply rollout_init_inv in H
    as (_ & _ & _ & _ & He & Htr & Hfb & _ & _ & _ & _ & _ & Hlen).
  split; [done|]. split; [by rewrite Htr, length_fmap|].
  split; [done|]. split; [done|].
  intros i. rewrite He. destruct (replicate _ _ !! i) as [e|] eqn:Hi; [|done].
  apply lookup_replicate in Hi as [-> _]. done.
Qed.

(** Every state of a rollout, seen from one trajectory: it belongs to the
    observation permuted to its index, starts at that observation's pose,
    and has recorded as many further poses as confidence entries, but for
    the entry of the iteration in which the instance stopped. *)
Lemma init_later_traj (self : Agent W) b reset (s0 s1 : Agent W * Locals W) :
  rollout_init self b reset = Ok s0 -> later s0 s1 ->
  perm_idx s1.2 = perm_idx s0.2 /\
  length (traj s1.2) = length (perm_idx s1.2) /\
  length (perm_obs s1.2) = length (perm_idx s1.2) /\
  length (perm_obs s0.2) = length (perm_idx s1.2) /\
  forall i tr, traj s1.2 !! i = Some tr ->
    exists ob ps, perm_obs s0.2 !! i = Some ob /\
      tr_instr_id tr = instr_id ob /\
      path tr = (viewpoint ob, heading ob, elevation ob) :: ps /\
      Forall (fun c => match c with
                       | ConfValue _ => feedback self = "argmax"
                       | ConfZero => feedback self <> "argmax"
                       end) (confidence_scores tr) /\
      length ps + (if default false (ended s1.2 !! i) then 1 else 0) =
      length (confidence_scores tr).
Proof.
  destruct s0 as [self0 loc0]. intros Hinit Hlater.
  pose proof (rollout_init_traj _ _ _ _ _ Hinit) as (Hobs & Htraj & Hfb & _ & He).
  apply rollout_init_inv in Hinit as (_ & _ & _ & _ & _ & Htr & _).
  destruct (later_traj _ _ Hlater Hobs Htraj) as (Hp & Ho & Ht & Hall).
  simpl in *. rewrite Hfb in Hall.
  split; [done|]. split; [congruence|]. split; [congruence|].
  split; [congruence|].
  intros i tr Hi.
  destruct (lookup_lt_is_Some_2 (traj loc0) i) as [tr0 Hi0];
    [rewrite Htraj, <- Ht; by eapply lookup_lt_Some|].
  destruct (Hall i tr0 Hi0)
    as (tr2 & ps & cs & H2 & Hid & Hpath & Hconf & Hkind & Hcount).
  rewrite Hi in H2. injection H2 as <-.
  rewrite Htr in Hi0. apply list_lookup_fmap_Some in Hi0 as (ob & -> & Hob).
  exists ob, ps. rewrite He in Hcount. simpl in *.
  rewrite Hconf. repeat (split; [done|]).
  by rewrite Nat.add_0_r in Hcount.
Qed.

(** What one iteration adds to the confidence entries of an instance. *)
Lemma step_conf_count t0 (self self' : Agent W) (loc loc' : Locals W) i tr :
  step t0 self loc = Ok (self', loc') ->
  length (perm_obs loc) = length (perm_idx loc) ->
  length (traj loc) = length (perm_idx loc) ->
  traj loc !! i = Some tr ->
  exists tr' e', traj loc' !! i = Some tr' /\ ended loc' !! i = Some e' /\
    length (confidence_scores tr') <= S (length (confidence_scores tr)) /\
    (e' = false ->
     length (confidence_scores tr') = S (length (confidence_scores tr))).
Proof.
  intros Hstep Hobs Htraj Hi.
  destruct (step_traj _ _ _ _ _ Hstep Hobs) as (_ & _ & _ & Hin).
  destruct (Hin i) as (e & a & He & Ha & He' & Hcase);
    [rewrite <- Htraj; by eapply lookup_lt_Some|].
  destruct e.
  - destruct Hcase as [_ Hsame]. exists tr, true.
    split; [congruence|]. split; [done|]. split; [lia | done].
  - destruct Hcase as (tr0 & c & Htr & _ & Hcase).
    rewrite Hi in Htr. injection Htr as <-.
    destruct (a =? stop_action)%Z.
    + eexists _, _. split; [exact Hcase|]. split; [exact He'|].
      simpl. rewrite length_app. simpl. lia.
    + destruct Hcase as [p Hcase].
      eexists _, _. split; [exact Hcase|]. split; [exact He'|].
      simpl. rewrite length_app. simpl. lia.
Qed.

(** The loop over [range(a, a + n)]: where it stops and what it has
    recorded by then. *)
Lemma rollout_loop_horizon n : forall a (self s : Agent W) (loc loc' : Locals W),
  rollout_loop (seq a n) self loc = Ok (s, loc') ->
  length (perm_obs loc) = length (perm_idx loc) ->
  length (traj loc) = length (perm_idx loc) ->
  (n = 0 /\ loc' = loc) \/
  exists t0, t loc' = Some t0 /\ a <= t0 < a + n /\
    (all_ended (ended loc') = true \/ t0 + 1 = a + n) /\
    forall i tr, traj loc !! i = Some tr ->
      exists tr', traj loc' !! i = Some tr' /\
        length (confidence_scores tr')
          <= length (confidence_scores tr) + (t0 + 1 - a) /\
        (ended loc' !! i = Some false ->
         length (confidence_scores tr')
           = length (confidence_scores tr) + (t0 + 1 - a)).
Proof.
  induction n as [|n IH]; intros a self s loc loc'; simpl.
  - intros [= <- <-] _ _. by left.
  - intros H Hobs Htraj. right.
    apply bind_Ok in H as ([self1 loc1] & Hstep & H).
    pose proof (step_traj _ _ _ _ _ Hstep Hobs) as (Hobs1 & Hlen1 & _).
    pose proof (step_inv _ _ _ _ _ _ Hstep)
      as (_ & _ & _ & _ & _ & _ & _ & _ & _ & Ht & _ & _ & Hperm & _).
    destruct (all_ended (ended loc1)) eqn:Hall.
    + injection H as <- <-. exists a. split; [done|]. split; [lia|].
      split; [by left|]. intros i tr Hi.
      destruct (step_conf_count _ _ _ _ _ i tr Hstep Hobs Htraj Hi)
        as (tr' & e' & Hi' & He' & Hle & Heq).
      exists tr'. split; [done|]. split; [lia|].
      intros Hf. rewrite He' in Hf. injection Hf as ->.
      rewrite Heq by done. lia.
    + pose proof (rollout_loop_later _ _ _ _ _ H) as Hlater.
      apply IH in H as [[-> ->]|(t1 & Ht1 & Hrange & Hstop & Hcount)];
        [| |congruence|congruence].
      * exists a. split; [done|]. split; [lia|]. split; [right; lia|].
        intros i tr Hi.
        destruct (step_conf_count _ _ _ _ _ i tr Hstep Hobs Htraj Hi)
          as (tr' & e' & Hi' & He' & Hle & Heq).
        exists tr'. split; [done|]. split; [lia|].
        intros Hf. rewrite He' in Hf. injection Hf as ->.
        rewrite Heq by done. lia.
      * exists t1. split; [done|]. split; [lia|].
        split; [destruct Hstop; [by left | right; lia]|].
        intros i tr Hi.
        destruct (step_conf_count _ _ _ _ _ i tr Hstep Hobs Htraj Hi)
          as (tr1 & e1 & Hi1 & He1 & Hle & Heq).
        destruct (Hcount i tr1 Hi1) as (tr' & Hi' & Hle' & Heq').
        exists tr'. split; [done|]. split; [lia|].
        intros Hf. rewrite Heq' by done.
        destruct e1.
        -- apply (later_keeps_ended _ _ i Hlater) in He1. simpl in He1.
           congruence.
        -- rewrite Heq by done. lia.
Qed.

(** Iterations leave the bookkeeping of losses alone. *)
Lemma later_bookkeeping (s1 s2 : Agent W * Locals W) :
  later s1 s2 -> losses s2.1 = losses s1.1 /\ logs s2.1 = logs s1.1.
Proof.
  induction 1 as [s|t0 self loc [self1 loc1] s2 Hstep Hlater IH]; [done|].
  apply step_inv in Hstep
    as (act & _ & _ & _ & _ & _ & _ & _ & Hself & _).
  simpl in *. rewrite Hself in IH. done.
Qed.

Lemma rollout_init_bookkeeping (self self1 : Agent W) (loc : Locals W) b reset :
  rollout_init self b reset = Ok (self1, loc) ->
  losses self1 = losses self /\ logs self1 = logs self /\
  ml_loss loc = mkLoss PyFloat [].
Proof.
  unfold rollout_init. intros H.
  destruct (if reset then _ else _) as [sim obs]. inv_bind H.
  norm_items. by subst.
Qed.

(** A rollout is its initialisation followed by zero or more iterations. *)
Lemma rollout_steps_later (self s : Agent W) (loc : Locals W) b reset :
  rollout_steps self b reset = Ok (s, loc) ->
  exists s0, rollout_init self b reset = Ok s0 /\ later s0 (s, loc) /\
    rollout_loop (seq 0 (episode_len self)) s0.1 s0.2 = Ok (s, loc).
Proof.
  unfold rollout_steps. intros H.
  apply bind_Ok in H as ([self1 loc1] & Hinit & Hloop).
  exists (self1, loc1). split; [done|].
  split; [by eapply rollout_loop_later|].
  apply rollout_init_inv in Hinit as (_&_&_&_&_&_&_& <- &_). done.
Qed.

Lemma rollout_inv (self self' : Agent W) ml b reset trajs :
  rollout self ml b reset = Ok (self', trajs) ->
  exists s loc, rollout_steps self b reset = Ok (s, loc) /\ trajs = traj loc.
Proof.
  unfold rollout. intros H.
  apply bind_Ok in H as ([s loc] & Hsteps & H).
  apply bind_Ok in H as (s3 & _ & H).
  apply bind_Ok in H as (s4 & _ & H).
  apply bind_Ok in H as (s5 & _ & H).
  injection H as _ <-. by exists s, loc.
Qed.

End Trajectories.

(** ** How a rollout ends *)

(** X1. A rollout whose reinforcement-learning pass is on (the argument
    [train_rl] is true and the feedback is neither ['teacher'] nor
    ['argmax']) never returns: once its step loop is through, the
    actor-critic pass unpacks the three values of the visual forward pass
    into two names ([last_h_, _ = self.vln_bert(...)]) and
    raises [ValueError]. *)
Theorem rollout_under_rl_raises (W : World) (self : Agent W)
  (train_ml : option Q) (train_rl_arg reset : bool) :
  effective_train_rl (feedback self) train_rl_arg = true ->
  (forall r, rollout self train_ml train_rl_arg reset <> Ok r) /\
  (forall s, rollout_steps self train_rl_arg reset = Ok s ->
     rollout self train_ml train_rl_arg reset = Raise ValueError).
Proof.
  intros Hrl. split; [by apply rollout_rl_fails|].
  intros [s loc] Hsteps. unfold rollout. rewrite Hsteps. simpl.
  apply rollout_steps_inv in Hsteps as (-> & _).
  rewrite Hrl, a2c_raises. done.
Qed.

Lemma rollout_under_rl_raises_witness :
  rollout (demo_agent closer_world "sample" 1 0) None true true
    = Raise ValueError.
Proof.
  eassert (H : rollout_steps (demo_agent closer_world "sample" 1 0) true true
               = Ok _) by (vm_compute; reflexivity).
  exact (proj2 (rollout_under_rl_raises closer_world
                  (demo_agent closer_world "sample" 1 0) None true true eq_refl)
               _ H).
Defined.

(** X2. What a rollout that returns was called with. Its
    reinforcement-learning pass was off. If it was given an imitation
    weight [train_ml], the feedback was ['argmax'] (the only mode that adds
    a cross-entropy term to [ml_loss], which otherwise is still the float
    [0.] and has no [.item()]) and [episode_len] was not 0. If it was given
    none, [self.loss] was an [int], or a tensor with [episode_len] not 0:
    a float [self.loss], as [zero_grad] leaves it, has no [.item()]. *)
Theorem rollout_returns_only_if (W : World) (self : Agent W)
  (train_ml : option Q) (train_rl_arg reset : bool)
  (r : Agent W * list (Traj W)) :
  rollout self train_ml train_rl_arg reset = Ok r ->
  effective_train_rl (feedback self) train_rl_arg = false /\
  match train_ml with
  | Some _ => feedback self = "argmax" /\ episode_len self <> 0
  | None => kind (loss self) = PyInt \/
            (kind (loss self) = PyTensor /\ episode_len self <> 0)
  end.
Proof.
  intros H.
  assert (Hrl : effective_train_rl (feedback self) train_rl_arg = false).
  { destruct (effective_train_rl _ _) eqn:Hrl; [|done].
    exfalso. by eapply rollout_rl_fails. }
  split; [done|].
  unfold rollout in H. apply bind_Ok in H as ([s loc] & Hsteps & H).
  pose proof (rollout_steps_inv _ _ _ _ _ _ Hsteps) as (Hrl' & _ & Hel & _ & Hloss).
  rewrite Hrl', Hrl in H. simpl in H.
  apply bind_Ok in H as (s4 & Hil & H). apply bind_Ok in H as (s5 & Hrec & _).
  destruct train_ml as [w|].
  - assert (Hfb : feedback self = "argmax").
    { destruct (decide (feedback self = "argmax")) as [|Hne]; [done|].
      exfalso. pose proof (rollout_steps_ml_loss _ _ _ _ _ _ Hsteps Hne) as Hml.
      unfold add_imitation_loss, item in Hil. rewrite Hml in Hil.
      simpl in Hil. by destruct (batch_size loc). }
    split; [done|]. intros H0.
    apply rollout_steps_later in Hsteps as ([self1 loc1] & Hinit & _ & Hloop).
    rewrite H0 in Hloop. simpl in Hloop. injection Hloop as <- <-.
    apply rollout_init_bookkeeping in Hinit as (_ & _ & Hml).
    unfold add_imitation_loss, item in Hil. rewrite Hml in Hil.
    simpl in Hil. by destruct (batch_size loc1).
  - simpl in Hil. injection Hil as <-.
    unfold record_loss, item in Hrec. rewrite Hloss, Hel in Hrec.
    destruct (kind (loss self)); [by left | done | right].
    split; [done|]. simpl in Hrec. by case_bool_decide.
Qed.

Lemma rollout_returns_only_if_witness :
  exists r, rollout (demo_agent pad_world "argmax" 3 0) (Some 1%Q) true true
              = Ok r /\
            feedback (demo_agent pad_world "argmax" 3 0) = "argmax".
Proof.
  eexists.
  match goal with
  | |- ?run = Ok ?r /\ _ =>
      assert (Hrun : run = Ok r) by (vm_compute; reflexivity)
  end.
  split; [exact Hrun|].
  exact (proj1 (proj2 (rollout_returns_only_if pad_world _ _ _ _ _ Hrun))).
Defined.

(** X3. A rollout with the reinforcement-learning pass off, no imitation
    weight and an [int] in [self.loss] (the rollouts of [test]) ends as its
    step loop ends: an exception of the loop is the rollout's, and when the
    loop is through the rollout returns the trajectories, having appended
    one entry to [self.losses] and left [self.loss], the logs and the
    critic alone. *)
Theorem rollout_without_loss_terms (W : World) (self : Agent W)
  (train_rl_arg reset : bool) :
  effective_train_rl (feedback self) train_rl_arg = false ->
  kind (loss self) = PyInt ->
  (forall e, rollout_steps self train_rl_arg reset = Raise e ->
     rollout self None train_rl_arg reset = Raise e) /\
  (forall s loc, rollout_steps self train_rl_arg reset = Ok (s, loc) ->
     exists self', rollout self None train_rl_arg reset = Ok (self', traj loc) /\
       losses self' = S (losses self) /\ loss self' = loss self /\
       logs self' = logs self /\ critic_calls self' = critic_calls self /\
       feedback self' = feedback self /\ torch self' = torch s /\
       env self' = env s).
Proof.
  intros Hrl Hint. split.
  - intros e H. unfold rollout. by rewrite H.
  - intros s loc Hsteps. unfold rollout. rewrite Hsteps. simpl.
    pose proof (rollout_steps_inv _ _ _ _ _ _ Hsteps) as (-> & Hfb & _ & Hc & Hl).
    apply rollout_steps_later in Hsteps as ([self1 loc1] & Hinit & Hlater & _).
    apply later_bookkeeping in Hlater as [Hlosses Hlogs].
    apply rollout_init_bookkeeping in Hinit as (Hlosses' & Hlogs' & _).
    simpl in *. rewrite Hrl. simpl. unfold record_loss.
    rewrite Hl, Hint. simpl. eexists. split; [reflexivity|]. simpl.
    repeat split; congruence.
Qed.

Lemma rollout_without_loss_terms_witness :
  exists self' trajs,
    rollout (demo_agent pad_world "argmax" 3 0) None true true
      = Ok (self', trajs) /\
    losses self' = 1.
Proof.
  eassert (H : rollout_steps (demo_agent pad_world "argmax" 3 0) true true
               = Ok (_, _)) by (vm_compute; reflexivity).
  destruct (proj2 (rollout_without_loss_terms pad_world
                     (demo_agent pad_world "argmax" 3 0) true true
                     eq_refl eq_refl) _ _ H)
    as (self' & Hrun & Hlosses & _).
  eexists self', _. split; [exact Hrun | exact Hlosses].
Defined.

(** ** What a rollout records *)

(** X4. In every state of a rollout (the state before the first
    iteration and the state after each completed one), the trajectory of
    an instance that has ended has as many poses as confidence scores, and
    the trajectory of an instance that is still running has one pose
    more: every iteration appends a confidence score for a running
    instance, and a pose unless the instance stops in it. *)
Theorem path_tracks_confidence (W : World) (self : Agent W)
  (train_rl_arg reset : bool) (s0 s1 : Agent W * Locals W) :
  rollout_init self train_rl_arg reset = Ok s0 -> later s0 s1 ->
  forall i tr, traj s1.2 !! i = Some tr ->
    length (path tr) =
      length (confidence_scores tr)
      + (if default false (ended s1.2 !! i) then 0 else 1).
Proof.
  intros Hinit Hlater i tr Hi.
  destruct (init_later_traj _ _ _ _ _ _ Hinit Hlater) as (_ & _ & _ & _ & Hall).
  destruct (Hall i tr Hi) as (ob & ps & _ & _ & -> & _ & Hcount).
  unfold PathPoint in *. simpl.
  destruct (default false (ended s1.2 !! i)); simpl in *; lia.
Qed.

Lemma path_tracks_confidence_witness :
  exists s0 s1 tr,
    rollout_init (demo_agent pad_world "argmax" 3 0) true true = Ok s0 /\
    step 0 s0.1 s0.2 = Ok s1 /\
    traj s1.2 !! 0 = Some tr /\
    ended s1.2 !! 0 = Some true /\
    length (path tr) =
      length (confidence_scores tr)
      + (if default false (ended s1.2 !! 0) then 0 else 1).
Proof.
  eexists (_, _), (_, _), _.
  split; [vm_compute; reflexivity|].
  split; [vm_compute; reflexivity|].
  split; [vm_compute; reflexivity|].
  split; [vm_compute; reflexivity|].
  match goal with
  | |- length (path ?tr) = _ + (if default false (ended ?s1.2 !! 0) then _ else _) =>
      eapply (path_tracks_confidence pad_world
                (demo_agent pad_world "argmax" 3 0) true true _ s1);
      [vm_compute; reflexivity
      |apply (later_next 0 _ _ s1); [vm_compute; reflexivity | constructor]
      |vm_compute; reflexivity]
  end.
Defined.

(** X5. The trajectories a rollout returns are those of the permuted
    observations [perm_obs = obs[perm_idx]] of its start, one for each and
    in that order: each carries the instruction id of its observation and
    its path starts with the pose of that observation. *)
Theorem returned_trajectories (W : World) (self self' : Agent W)
  (train_ml : option Q) (train_rl_arg reset : bool) (trajs : list (Traj W)) :
  rollout self train_ml train_rl_arg reset = Ok (self', trajs) ->
  exists s0, rollout_init self train_rl_arg reset = Ok s0 /\
    Forall2 (fun ob tr =>
               tr_instr_id tr = instr_id ob /\
               exists moves,
                 path tr = (viewpoint ob, heading ob, elevation ob) :: moves)
            (perm_obs s0.2) trajs.
Proof.
  intros H. apply rollout_inv in H as (s & loc & Hsteps & ->).
  apply rollout_steps_later in Hsteps as (s0 & Hinit & Hlater & _).
  exists s0. split; [done|].
  destruct (init_later_traj _ _ _ _ _ _ Hinit Hlater)
    as (_ & Ht & _ & Ho & Hall).
  simpl in *. apply Forall2_same_length_lookup_2; [congruence|].
  intros i ob tr Hob Hi.
  destruct (Hall i tr Hi) as (ob' & ps & Hob' & Hid & Hpath & _).
  rewrite Hob in Hob'. injection Hob' as <-. split; [done|]. by exists ps.
Qed.

Lemma returned_trajectories_witness :
  exists self' trajs,
    rollout (demo_agent pad_world "argmax" 3 0) None true true
      = Ok (self', trajs) /\
    tr_instr_id <$> trajs = ["i0"; "i1"].
Proof.
  eexists _, _.
  match goal with
  | |- ?run = Ok (?s, ?trajs) /\ _ =>
      assert (Hrun : run = Ok (s, trajs)) by (vm_compute; reflexivity);
      destruct (returned_trajectories pad_world _ _ _ _ _ _ Hrun)
        as (s0 & _ & _)
  end.
  split; [exact Hrun | vm_compute; reflexivity].
Defined.

(** X6. Between two states of a rollout the trajectories only grow: the
    trajectory at an index keeps its instruction id, and its path and its
    confidence scores are extended at the end, never rewritten. *)
Theorem trajectories_only_grow (W : World) (self : Agent W)
  (train_rl_arg reset : bool) (s0 s1 s2 : Agent W * Locals W) :
  rollout_init self train_rl_arg reset = Ok s0 -> later s0 s1 -> later s1 s2 ->
  Forall2 (fun tr1 tr2 =>
             tr_instr_id tr2 = tr_instr_id tr1 /\
             path tr1 `prefix_of` path tr2 /\
             confidence_scores tr1 `prefix_of` confidence_scores tr2)
          (traj s1.2) (traj s2.2).
Proof.
  intros Hinit Hlater1 Hlater2.
  destruct (init_later_traj _ _ _ _ _ _ Hinit Hlater1) as (_ & Ht & Ho & _).
  destruct (later_traj _ _ _ Hlater2 Ho Ht) as (_ & _ & Ht2 & Hall).
  apply Forall2_same_length_lookup_2; [congruence|].
  intros i tr1 tr2 H1 H2.
  destruct (Hall i tr1 H1) as (tr2' & ps & cs & H2' & Hid & Hpath & Hconf & _).
  rewrite H2 in H2'. injection H2' as <-.
  split; [done|]. split; [by exists ps | by exists cs].
Qed.

Lemma trajectories_only_grow_witness :
  exists s0 s1 s2,
    rollout_init (demo_agent pad_world "argmax" 3 0) true true = Ok s0 /\
    step 0 s0.1 s0.2 = Ok s1 /\
    step 1 s1.1 s1.2 = Ok s2 /\
    Forall2 (fun tr1 tr2 =>
               tr_instr_id tr2 = tr_instr_id tr1 /\
               path tr1 `prefix_of` path tr2 /\
               confidence_scores tr1 `prefix_of` confidence_scores tr2)
            (traj s1.2) (traj s2.2).
Proof.
  eexists (_, _), (_, _), (_, _).
  split; [vm_compute; reflexivity|].
  split; [vm_compute; reflexivity|].
  split; [vm_compute; reflexivity|].
  match goal with
  | |- Forall2 _ (traj ?s1.2) (traj ?s2.2) =>
      eapply (trajectories_only_grow pad_world
                (demo_agent pad_world "argmax" 3 0) true true _ s1 s2);
      [vm_compute; reflexivity
      |apply (later_next 0 _ _ s1); [vm_compute; reflexivity | constructor]
      |apply (later_next 1 _ _ s2); [vm_compute; reflexivity | constructor]]
  end.
Defined.

(** X7. The confidence scores of a trajectory are floats of the combined
    confidence exactly under ['argmax'] feedback; under any other
    feedback every recorded score is the integer placeholder [0]. *)
Theorem confidence_entries_by_feedback (W : World) (self : Agent W)
  (train_rl_arg reset : bool) (s0 s1 : Agent W * Locals W) :
  rollout_init self train_rl_arg reset = Ok s0 -> later s0 s1 ->
  forall tr c, tr ∈ traj s1.2 -> c ∈ confidence_scores tr ->
    match c with
    | ConfValue _ => feedback self = "argmax"
    | ConfZero => feedback self <> "argmax"
    end.
Proof.
  intros Hinit Hlater tr c Htr Hc.
  destruct (init_later_traj _ _ _ _ _ _ Hinit Hlater) as (_ & _ & _ & _ & Hall).
  apply list_elem_of_lookup in Htr as [i Hi].
  destruct (Hall i tr Hi) as (ob & ps & _ & _ & _ & Hkind & _).
  rewrite Forall_forall in Hkind. by apply Hkind.
Qed.

Lemma confidence_entries_by_feedback_witness :
  exists s0 s1,
    rollout_init (demo_agent still_world "teacher" 3 0) true true = Ok s0 /\
    step 0 s0.1 s0.2 = Ok s1 /\
    forall tr c, tr ∈ traj s1.2 -> c ∈ confidence_scores tr -> c = ConfZero.
Proof.
  eexists (_, _), (_, _).
  split; [vm_compute; reflexivity|].
  split; [vm_compute; reflexivity|].
  intros tr c Htr Hc.
  match type of Htr with
  | tr ∈ traj ?s1.2 =>
      eassert (Hinit : rollout_init (demo_agent still_world "teacher" 3 0)
                         true true = Ok _) by (vm_compute; reflexivity);
      match type of Hinit with
      | _ = Ok ?s0 =>
          assert (Hlater : later s0 s1)
            by (apply (later_next 0 _ _ s1);
                [vm_compute; reflexivity | constructor]);
          pose proof (confidence_entries_by_feedback still_world
                        (demo_agent still_world "teacher" 3 0) true true s0 s1
                        Hinit Hlater tr c Htr Hc) as H
      end
  end.
  destruct c; [|reflexivity]. discriminate H.
Defined.

(** X8. Where the step loop stops, and how much it has recorded by then.
    If no iteration ran, [episode_len] is 0. Otherwise the loop variable
    [t] is below [episode_len], and the loop stopped either because every
    instance had ended or because [t] was the last value of the range;
    every trajectory holds at most [t + 1] confidence scores and [t + 2]
    poses, and that of an instance still running holds exactly as many. *)
Theorem rollout_stops_within_horizon (W : World) (self s : Agent W)
  (train_rl_arg reset : bool) (loc : Locals W) :
  rollout_steps self train_rl_arg reset = Ok (s, loc) ->
  match t loc with
  | None => episode_len self = 0
  | Some t0 =>
      t0 < episode_len self /\
      (all_ended (ended loc) = true \/ t0 + 1 = episode_len self) /\
      forall i tr, traj loc !! i = Some tr ->
        length (confidence_scores tr) <= t0 + 1 /\
        length (path tr) <= t0 + 2 /\
        (ended loc !! i = Some false ->
         length (confidence_scores tr) = t0 + 1 /\ length (path tr) = t0 + 2)
  end.
Proof.
  intros Hsteps.
  apply rollout_steps_later in Hsteps as ([self0 loc0] & Hinit & Hlater & Hloop).
  pose proof (rollout_init_traj _ _ _ _ _ _ Hinit) as (Hobs & Htraj & _ & Ht0 & _).
  destruct (init_later_traj _ _ _ _ _ _ Hinit Hlater) as (Hp & Ht & _ & _ & Hall).
  apply rollout_init_inv in Hinit as (_ & _ & _ & _ & _ & Htr & _).
  simpl in *.
  destruct (rollout_loop_horizon _ _ _ _ _ _ _ Hloop Hobs Htraj)
    as [[Hn ->]|(t0 & -> & Hrange & Hstop & Hcount)].
  { by rewrite Ht0. }
  split; [lia|]. split; [destruct Hstop; [by left | right; lia]|].
  intros i tr Hi.
  destruct (lookup_lt_is_Some_2 (traj loc0) i) as [tr0 Hi0];
    [rewrite Htraj, <- Hp, <- Ht; by eapply lookup_lt_Some|].
  destruct (Hcount i tr0 Hi0) as (tr' & Hi' & Hle & Heq).
  rewrite Hi in Hi'. injection Hi' as <-.
  rewrite Htr in Hi0. apply list_lookup_fmap_Some in Hi0 as (ob & -> & _).
  simpl in *.
  destruct (Hall i tr Hi) as (ob' & ps & _ & _ & Hpath & _ & Hps).
  rewrite Hpath. unfold PathPoint in *. simpl.
  assert (Hps' : length ps <= length (confidence_scores tr))
    by (destruct (default false (ended loc !! i)); simpl in *; lia).
  split; [lia|]. split; [lia|].
  intros He. rewrite He in Hps. simpl in Hps. specialize (Heq He). lia.
Qed.

Lemma rollout_stops_within_horizon_witness :
  exists s loc,
    rollout_steps (demo_agent pad_world "argmax" 3 0) true true = Ok (s, loc) /\
    t loc = Some 2 /\
    Forall (fun tr => length (confidence_scores tr) <= 3) (traj loc).
Proof.
  eexists _, _.
  match goal with
  | |- ?run = Ok (?s, ?loc) /\ _ =>
      assert (Hrun : run = Ok (s, loc)) by (vm_compute; reflexivity);
      pose proof (rollout_stops_within_horizon pad_world _ _ _ _ _ Hrun) as H;
      assert (Ht : t loc = Some 2) by (vm_compute; reflexivity)
  end.
  split; [exact Hrun|]. split; [exact Ht|].
  cbv beta iota delta [t] in H. destruct H as (_ & _ & H).
  apply Forall_lookup. intros i tr Hi. by destruct (H i tr Hi) as [? _].
Defined.

(** ** The forward passes of an iteration *)

Section Passes.

Context (W : World).

Lemma run_Ok {A : Type} (p : Torch * result A) (tc : Torch) (x : A) :
  run p = Ok (tc, x) <-> p = (tc, Ok x).
Proof.
  unfold run. destruct p as [tc' [a|e]]; simpl; split; intros H;
    try discriminate; by injection H as -> ->.
Qed.

(** The Monte Carlo pass on the inputs of an iteration: as many visual
    passes as [mc_dropout_samples], all without gradient tracking, which
    is afterwards as it was before. *)
Lemma monte_carlo_forward_visual (tc : Torch) (h : Hidden W) (lang : LangFeat W)
  (obs : list Obs) :
  mc_dropout_samples (net tc) <> 0 ->
  exists tc' outputs news,
    monte_carlo_forward (W:=W) tc "visual" (mkInputs (Some (h, lang)) obs)
      = (tc', Ok outputs) /\
    length outputs = mc_dropout_samples (net tc) /\
    passes tc' = news ++ passes tc /\
    length news = mc_dropout_samples (net tc) /\
    Forall (fun p => p_mode p = "visual" /\ p_grad p = false) news /\
    grad_enabled tc' = grad_enabled tc /\
    net tc' = set_mc_dropout false (enable_dropout (set_mc_dropout true (net tc))).
Proof.
  intros Hn. unfold monte_carlo_forward.
  set (tc1 := set_net (enable_dropout (set_mc_dropout true (net tc))) tc).
  destruct (mc_passes_visual W h lang obs (mc_dropout_samples (net tc1))
              (set_grad false tc1) [])
    as (tc2 & new & news & Hrun & Hlen & Hnet & Hgrad & Hpasses & Hlen' & Hall);
    [done | done |].
  rewrite Hrun. simpl in Hrun, Hlen, Hnet, Hgrad, Hpasses, Hlen', Hall.
  eexists _, new, news. split; [reflexivity|]. simpl.
  repeat (split; [done|]). split.
  - eapply Forall_impl; [exact Hall|]. by intros p (? & ? & _).
  - split; [done|]. rewrite Hnet. by rewrite enable_dropout_idem.
Qed.

(** The passes of the visual step of one iteration. *)
Lemma select_action_passes t0 (self : Agent W) (loc : Locals W) sel :
  select_action t0 self loc = Ok sel ->
  mc_dropout_samples (net (torch self)) <> 0 ->
  grad_enabled (s_torch sel) = grad_enabled (torch self) /\
  mc_dropout_samples (net (s_torch sel)) = mc_dropout_samples (net (torch self)) /\
  (exists canonical sampled,
     passes (s_torch sel) = canonical :: sampled ++ passes (torch self) /\
     p_mode canonical = "visual" /\
     p_grad canonical = grad_enabled (torch self) /\
     Forall (fun p => p_mode p = "visual" /\ p_grad p = false) sampled /\
     length sampled = (if String.eqb (feedback self) "argmax"
                       then mc_dropout_samples (net (torch self)) else 0)) /\
  (feedback self <> "argmax" -> mc_dropout (net (torch self)) = false ->
   net (s_torch sel) = net (torch self)).
Proof.
  unfold select_action. intros H Hn.
  apply bind_Ok in H as (leng & _ & H).
  apply bind_Ok in H as (mask & _ & H).
  set (lang := cat_state W (h_t loc) (language_features loc)) in *.
  destruct (String.eqb_spec (feedback self) "argmax") as [Hfb|Hfb].
  - apply bind_Ok in H as ([tc1 mc_outputs] & Hmc & H).
    apply bind_Ok in H as ([tc2 out] & Hf & H).
    apply run_Ok in Hmc, Hf.
    destruct (monte_carlo_forward_visual (torch self) (h_t loc) lang
                (perm_obs loc) Hn)
      as (tc' & outputs & news & Hmc' & _ & Hpasses & Hlen & Hall & Hgrad & Hnet).
    rewrite Hmc in Hmc'. injection Hmc' as -> _.
    destruct (forward_visual W tc' (h_t loc) lang (perm_obs loc))
      as (sp & logit & c & Hf' & _).
    rewrite Hf in Hf'. injection Hf' as -> _.
    inv_bind H. norm_items. simpl.
    split; [done|]. split; [by rewrite Hnet|]. split; [|done].
    eexists _, news. rewrite Hpasses. split; [reflexivity|]. done.
  - apply bind_Ok in H as ([tc1 out] & Hf & H). apply run_Ok in Hf.
    destruct (forward_visual W (torch self) (h_t loc) lang (perm_obs loc))
      as (sp & logit & c & Hf' & _).
    rewrite Hf in Hf'. injection Hf' as -> _.
    inv_bind H. norm_items. simpl.
    split; [done|]. split; [by destruct (mc_dropout (net (torch self)))|].
    split.
    + eexists _, []. split; [reflexivity|]. done.
    + intros _ ->. done.
Qed.

(** The sampling loop on a mode that [forward] does not know: every pass
    returns [None]. *)
Lemma mc_passes_unsupported (mode : string) (inp : Inputs W) :
  mode <> "language" -> mode <> "visual" ->
  forall n tc outputs,
    exists tc',
      mc_passes n tc mode inp outputs = (tc', Ok (outputs ++ replicate n PyNone)) /\
      grad_enabled tc' = grad_enabled tc /\
      mc_dropout (net tc') = mc_dropout (net tc) /\
      mc_dropout_samples (net tc') = mc_dropout_samples (net tc) /\
      length (passes tc') = n + length (passes tc).
Proof.
  intros Hl Hv. induction n as [|n IH]; intros tc outputs; simpl.
  - exists tc. by rewrite app_nil_r.
  - unfold forward.
    destruct (String.eqb_spec mode "language"); [done|].
    destruct (String.eqb_spec mode "visual"); [done|].
    match goal with |- context [mc_passes n ?t _ _ ?o] =>
      destruct (IH t o) as (tc' & -> & Hg & Hmc & Hs & Hp) end.
    exists tc'. rewrite <- app_assoc. split; [done|]. simpl in *.
    split; [done|]. split.
    + rewrite Hmc. by destruct (mc_dropout (net tc)) eqn:E.
    + split; [rewrite Hs; by destruct (mc_dropout (net tc)) | lia].
Qed.

End Passes.

(** X9. The forward passes of one iteration of the step loop, for a
    network whose [mc_dropout_samples] is not 0 (it is 10 from
    [__init__] on). Under ['argmax'] feedback the iteration runs
    [mc_dropout_samples] visual passes without gradient tracking and then
    one more, the canonical one, with gradient tracking as the rollout
    found it; under any other feedback it runs the canonical pass only,
    and leaves the network as it found it when the flag [mc_dropout] is
    off. Gradient tracking is afterwards as it was before. *)
Theorem forward_passes_per_step (W : World) (t0 : nat) (self self' : Agent W)
  (loc loc' : Locals W) :
  step t0 self loc = Ok (self', loc') ->
  mc_dropout_samples (net (torch self)) <> 0 ->
  grad_enabled (torch self') = grad_enabled (torch self) /\
  mc_dropout_samples (net (torch self')) = mc_dropout_samples (net (torch self)) /\
  (exists canonical sampled,
     passes (torch self') = canonical :: sampled ++ passes (torch self) /\
     p_mode canonical = "visual" /\
     p_grad canonical = grad_enabled (torch self) /\
     Forall (fun p => p_mode p = "visual" /\ p_grad p = false) sampled /\
     length sampled = (if String.eqb (feedback self) "argmax"
                       then mc_dropout_samples (net (torch self)) else 0)) /\
  (feedback self <> "argmax" -> mc_dropout (net (torch self)) = false ->
   net (torch self') = net (torch self)).
Proof.
  intros Hstep Hn.
  apply step_inv in Hstep as (act & Hact & _ & _ & _ & _ & _ & _ & -> & _).
  apply act_phase_inv in Hact as (traj1 & Hsel & _).
  simpl. by apply (select_action_passes W t0 self loc).
Qed.

Lemma forward_passes_per_step_witness :
  exists s0 s1,
    rollout_init (demo_agent pad_world "argmax" 3 0) true true = Ok s0 /\
    step 0 s0.1 s0.2 = Ok s1 /\
    length (passes (torch s0.1)) = 1 /\
    length (passes (torch s1.1)) = 12.
Proof.
  eexists (_, _), (_, _).
  split; [vm_compute; reflexivity|].
  match goal with
  | |- step 0 ?self ?loc = Ok (?self', ?loc') /\ _ =>
      assert (Hstep : step 0 self loc = Ok (self', loc'))
        by (vm_compute; reflexivity);
      destruct (forward_passes_per_step pad_world 0 self self' loc loc' Hstep)
        as (_ & _ & (canonical & sampled & Hp & _ & _ & _ & Hlen) & _);
        [vm_compute; discriminate|]
  end.
  split; [exact Hstep|]. split; [reflexivity|].
  cbv beta iota delta [fst snd] in *. rewrite Hp.
  simpl. rewrite length_app, Hlen. reflexivity.
Defined.

(** X10. On a mode tag that [forward] does not know, the Monte Carlo pass
    raises nothing either: it returns a list of [mc_dropout_samples]
    [None]s, one per pass, and resets its flag. *)
Theorem monte_carlo_forward_unsupported_mode (W : World) (tc : Torch)
  (mode : string) (inp : Inputs W) :
  mode <> "language" -> mode <> "visual" ->
  exists tc',
    monte_carlo_forward tc mode inp
      = (tc', Ok (replicate (mc_dropout_samples (net tc)) PyNone)) /\
    mc_dropout (net tc') = false /\
    grad_enabled tc' = grad_enabled tc /\
    length (passes tc') = mc_dropout_samples (net tc) + length (passes tc).
Proof.
  intros Hl Hv. unfold monte_carlo_forward.
  set (tc1 := set_net (enable_dropout (set_mc_dropout true (net tc))) tc).
  destruct (mc_passes_unsupported W mode inp Hl Hv
              (mc_dropout_samples (net tc1)) (set_grad false tc1) [])
    as (tc2 & -> & Hg & Hmc & Hs & Hp).
  simpl in *. eexists. split; [reflexivity|]. simpl. done.
Qed.

Lemma monte_carlo_forward_unsupported_mode_witness :
  (monte_carlo_forward (W:=demo_world (fun _ => []) (fun _ => [])) eval_torch
     "panoramic" (mkInputs None [])).2 = Ok (replicate 10 PyNone).
Proof.
  destruct (monte_carlo_forward_unsupported_mode
              (demo_world (fun _ => []) (fun _ => [])) eval_torch "panoramic"
              (mkInputs None [])) as (tc' & -> & _); [discriminate..|].
  reflexivity.
Defined.

(** ** Training and testing *)

Section Drivers.

Context (W : World).

Lemma effective_train_rl_false (fb : string) :
  effective_train_rl fb true = false -> fb = "teacher" \/ fb = "argmax".
Proof.
  unfold effective_train_rl.
  destruct (String.eqb_spec fb "teacher"); [by left|].
  destruct (String.eqb_spec fb "argmax"); [by right | done].
Qed.

(** A rollout without imitation weight that returns: what it was given and
    what it leaves. *)
Lemma rollout_eval_inv (self self' : Agent W) b reset trajs :
  rollout self None b reset = Ok (self', trajs) ->
  effective_train_rl (feedback self) b = false /\
  kind (loss self) <> PyFloat /\
  feedback self' = feedback self /\ episode_len self' = episode_len self /\
  loss self' = loss self /\ losses self' = S (losses self).
Proof.
  intros H.
  assert (Hrl : effective_train_rl (feedback self) b = false).
  { destruct (effective_train_rl _ _) eqn:Hrl; [|done].
    exfalso. by eapply rollout_rl_fails. }
  split; [done|].
  unfold rollout in H. apply bind_Ok in H as ([s loc] & Hsteps & H).
  pose proof (rollout_steps_inv _ _ _ _ _ _ Hsteps) as (Hrl' & Hfb & Hel & _ & Hl).
  apply rollout_steps_later in Hsteps as ([self1 loc1] & Hinit & Hlater & _).
  apply later_bookkeeping in Hlater as [Hlosses _].
  apply rollout_init_bookkeeping in Hinit as (Hlosses' & _ & _).
  rewrite Hrl', Hrl in H. simpl in *.
  apply bind_Ok in H as (s5 & Hrec & H). injection H as <- _.
  unfold record_loss in Hrec. apply bind_Ok in Hrec as (? & Hk & Hrec).
  injection Hrec as <-. simpl.
  split; [|repeat split; congruence].
  intros Hf. rewrite Hl in Hk. unfold item in Hk. rewrite Hf in Hk. done.
Qed.

(** No iteration of [train] gets as far as its backward pass. *)
Lemma train_iteration_fails (tw mw : Q) (ag : Agent W -> Agent W)
  (fb : string) (reset : bool) (self : Agent W) :
  (forall r, train_iteration tw mw ag fb reset self <> Ok r) /\
  (fb <> "teacher" -> fb <> "sample" ->
   train_iteration tw mw ag fb reset self = Raise AssertionError).
Proof.
  unfold train_iteration. split.
  - intros r H. apply bind_Ok in H as (self2 & H & _).
    destruct (String.eqb fb "teacher").
    { apply bind_Ok in H as ([s trajs] & H & _).
      by apply rollout_il_fails in H. }
    destruct (String.eqb fb "sample"); [|done].
    apply bind_Ok in H as (self1 & H1 & H).
    apply bind_Ok in H as ([s trajs] & H & _).
    destruct (negb (Qeq_bool mw 0)).
    + apply bind_Ok in H1 as ([s1 trajs1] & H1 & _).
      by apply rollout_il_fails in H1.
    + injection H1 as <-. by apply rollout_rl_fails in H.
  - intros Ht Hs.
    destruct (String.eqb_spec fb "teacher"); [done|].
    destruct (String.eqb_spec fb "sample"); done.
Qed.

(** *** The dict of results *)

Lemma dict_get_set (d : Results W) k k' v :
  dict_get k' (dict_set d k v) =
    if String.eqb k k' then Some v else dict_get k' d.
Proof.
  induction d as [|[k0 v0] rest IH]; simpl.
  - done.
  - destruct (String.eqb_spec k0 k) as [->|Hne]; simpl.
    + by destruct (String.eqb k k').
    + rewrite IH.
      destruct (String.eqb_spec k0 k') as [->|Hne']; [|done].
      by destruct (String.eqb_spec k k').
Qed.

Lemma dict_get_None (d : Results W) k :
  dict_get k d = None <-> k ∉ d.*1.
Proof.
  induction d as [|[k0 v0] rest IH]; simpl.
  - split; [intros _; apply not_elem_of_nil | done].
  - rewrite not_elem_of_cons.
    destruct (String.eqb_spec k0 k) as [->|Hne]; [split; [done | tauto]|].
    rewrite IH. split; [intros ?; split; [congruence | done] | tauto].
Qed.

(** Setting a key that is not there appends it. *)
Lemma dict_set_new (d : Results W) k v :
  dict_get k d = None -> dict_set d k v = d ++ [(k, v)].
Proof.
  induction d as [|[k0 v0] rest IH]; simpl; [done|].
  destruct (String.eqb_spec k0 k); [done|]. intros H. by rewrite IH.
Qed.

(** Setting a key leaves the keys in place. *)
Lemma dict_set_keys (d : Results W) k v :
  (dict_set d k v).*1 = if dict_in k d then d.*1 else d.*1 ++ [k].
Proof.
  unfold dict_in. induction d as [|[k0 v0] rest IH]; [done|].
  cbn [dict_set dict_get].
  destruct (String.eqb_spec k0 k) as [->|Hne]; [done|].
  rewrite !fmap_cons, IH. by destruct (dict_get k rest).
Qed.

Lemma dict_set_NoDup (d : Results W) k v :
  NoDup d.*1 -> NoDup (dict_set d k v).*1.
Proof.
  intros Hd. rewrite dict_set_keys. unfold dict_in.
  destruct (dict_get k d) eqn:Hk; [done|].
  apply dict_get_None in Hk. apply NoDup_app. split; [done|].
  split; [|apply NoDup_singleton].
  intros x Hx Hx'. apply list_elem_of_singleton in Hx' as ->. done.
Qed.

Lemma record_all_cons (self : Agent W) (res : Results W) (tr : Traj W)
  (rest : list (Traj W)) :
  record_all (self, res) (tr :: rest) =
    record_all (with_loss (mkLoss PyInt []) self,
                dict_set res (tr_instr_id tr) (traj_value tr)) rest.
Proof. done. Qed.

Lemma record_all_spec (trajs : list (Traj W)) :
  forall (self : Agent W) (res : Results W) k,
    let st := record_all (self, res) trajs in
    dict_get k st.2 =
      match last (filter (fun tr => tr_instr_id tr = k) trajs) with
      | Some tr => Some (traj_value tr)
      | None => dict_get k res
      end /\
    (NoDup res.*1 -> NoDup st.2.*1) /\
    feedback st.1 = feedback self /\ losses st.1 = losses self /\
    (kind (loss self) = PyInt -> kind (loss st.1) = PyInt).
Proof.
  induction trajs as [|tr rest IH]; intros self res k st; [done|].
  subst st. rewrite record_all_cons.
  destruct (IH (with_loss (mkLoss PyInt []) self)
              (dict_set res (tr_instr_id tr) (traj_value tr)) k)
    as (Hget & Hnd & Hfb & Hls & Hk).
  split; [|split; [|split; [done|split; [done|]]]].
  - rewrite Hget, dict_get_set, filter_cons.
    destruct (decide (tr_instr_id tr = k)) as [->|Hne].
    + rewrite String.eqb_refl, last_cons.
      by destruct (last (filter _ rest)).
    + by destruct (String.eqb_spec (tr_instr_id tr) k).
  - intros Hd. by apply Hnd, dict_set_NoDup.
  - intros _. by apply Hk.
Qed.

Lemma record_new_cons (self : Agent W) (res : Results W) (looped : bool)
  (tr : Traj W) (rest : list (Traj W)) :
  record_new (self, res, looped) (tr :: rest) =
    match dict_get (tr_instr_id tr) res with
    | Some _ => record_new (self, res, true) rest
    | None => record_new (with_loss (mkLoss PyInt []) self,
                          res ++ [(tr_instr_id tr, traj_value tr)], looped) rest
    end.
Proof.
  unfold record_new. cbn [foldl]. unfold dict_in. cbn [fst snd].
  destruct (dict_get (tr_instr_id tr) res) eqn:Hk; [done|].
  by rewrite dict_set_new.
Qed.

Lemma dict_get_app (d : Results W) k k0 v0 :
  dict_get k (d ++ [(k0, v0)]) =
    match dict_get k d with
    | Some v => Some v
    | None => if String.eqb k0 k then Some v0 else None
    end.
Proof.
  induction d as [|[k1 v1] rest IH]; [done|].
  cbn [app dict_get]. by destruct (String.eqb k1 k).
Qed.

Lemma record_new_spec (trajs : list (Traj W)) :
  forall (self : Agent W) (res : Results W) (looped : bool) k,
    let st := record_new (self, res, looped) trajs in
    dict_get k st.1.2 =
      match dict_get k res with
      | Some v => Some v
      | None => traj_value <$> head (filter (fun tr => tr_instr_id tr = k) trajs)
      end /\
    res `prefix_of` st.1.2 /\
    (NoDup res.*1 -> NoDup st.1.2.*1) /\
    feedback st.1.1 = feedback self /\ losses st.1.1 = losses self /\
    (kind (loss self) = PyInt -> kind (loss st.1.1) = PyInt) /\
    (looped = true -> st.2 = true) /\
    (st.2 = true -> looped = true \/
       ~ (NoDup (tr_instr_id <$> trajs) /\
          forall tr, tr ∈ trajs -> dict_get (tr_instr_id tr) res = None)).
Proof.
  induction trajs as [|tr rest IH]; intros self res looped k st.
  - subst st. unfold record_new. cbn [foldl fst snd].
    split; [by destruct (dict_get k res)|]. repeat (split; [done|]).
    intros ->. by left.
  - subst st. rewrite record_new_cons.
    destruct (dict_get (tr_instr_id tr) res) as [v|] eqn:Hk.
    + destruct (IH self res true k)
        as (Hget & Hpre & Hnd & Hfb & Hls & Hkind & Ht & _).
      split.
      { rewrite Hget. destruct (dict_get k res) eqn:Hk'; [done|].
        rewrite filter_cons.
        destruct (decide (tr_instr_id tr = k)) as [Heq|]; [|done].
        rewrite Heq in Hk. congruence. }
      repeat (split; [done|]).
      split; [intros _; by apply Ht|].
      intros _. right. intros [_ Hall].
      specialize (Hall tr). rewrite Hk in Hall. discriminate Hall. left.
    + destruct (IH (with_loss (mkLoss PyInt []) self)
                  (res ++ [(tr_instr_id tr, traj_value tr)]) looped k)
        as (Hget & Hpre & Hnd & Hfb & Hls & Hkind & Ht & Hloop).
      split.
      { etrans; [exact Hget|]. rewrite dict_get_app, filter_cons.
        destruct (dict_get k res) eqn:Hk'; [done|].
        destruct (decide (tr_instr_id tr = k)) as [<-|Hne].
        - by rewrite String.eqb_refl.
        - by destruct (String.eqb_spec (tr_instr_id tr) k). }
      split; [etrans; [|exact Hpre]; by apply prefix_app_r|].
      split.
      { intros Hd. apply Hnd. rewrite fmap_app. apply NoDup_app.
        split; [done|]. split; [|apply NoDup_singleton].
        intros x Hx Hx'. apply list_elem_of_singleton in Hx' as ->.
        by apply dict_get_None in Hk. }
      split; [done|]. split; [done|].
      split; [by intros _; apply Hkind|]. split; [done|].
      intros Hst. destruct (Hloop Hst) as [->|Hbad]; [by left|].
      right. intros [Hnd' Hall]. apply Hbad.
      rewrite fmap_cons in Hnd'.
      apply NoDup_cons in Hnd' as [Hnotin Hnd']. split; [done|].
      intros tr' Htr'.
      assert (Hne : tr_instr_id tr' <> tr_instr_id tr).
      { intros Heq. apply Hnotin. rewrite <- Heq.
        by apply list_elem_of_fmap_2. }
      rewrite dict_get_app, Hall by (by right).
      by destruct (String.eqb_spec (tr_instr_id tr) (tr_instr_id tr')).
Qed.

Lemma test_iters_spec (ml : option Q) (b reset : bool) (n : nat) :
  forall (self self' : Agent W) (res res' : Results W),
    test_iters n ml b reset self res = Ok (self', res') ->
    kind (loss self) = PyInt -> ml = None ->
    losses self' = n + losses self /\ kind (loss self') = PyInt /\
    feedback self' = feedback self /\
    (NoDup res.*1 -> NoDup res'.*1) /\
    (n <> 0 -> effective_train_rl (feedback self) b = false).
Proof.
  induction n as [|n IH]; intros self self' res res'; simpl.
  - intros [= <- <-]. done.
  - intros H Hk ->. apply bind_Ok in H as ([self1 trajs] & Hroll & H).
    apply rollout_eval_inv in Hroll as (Hrl & _ & Hfb & _ & Hl & Hls).
    destruct (record_all_spec trajs self1 res "") as (_ & Hnd & Hfb' & Hls' & Hk').
    simpl in *. apply IH in H as (Hlosses & Hkind & Hfb'' & Hnd' & _);
      [|apply Hk'; congruence|done].
    split; [lia|]. split; [done|]. split; [congruence|].
    split; [by intros ?; apply Hnd', Hnd|]. done.
Qed.

Lemma full_round_spec (ml : option Q) (b reset : bool) (fuel : nat) :
  forall (self self' : Agent W) (res res' : Results W),
    full_round fuel ml b reset self res = Some (Ok (self', res')) ->
    res `prefix_of` res' /\
    (forall k v, dict_get k res = Some v -> dict_get k res' = Some v) /\
    (NoDup res.*1 -> NoDup res'.*1) /\
    (ml = None -> kind (loss self) = PyInt ->
     kind (loss self') = PyInt /\ feedback self' = feedback self /\
     losses self < losses self' <= fuel + losses self /\
     effective_train_rl (feedback self) b = false).
Proof.
  induction fuel as [|fuel IH]; intros self self' res res'; simpl; [done|].
  destruct (rollout self ml b reset) as [[self1 trajs]|e] eqn:Hroll; [|done].
  pose proof (record_new_spec trajs self1 res false) as Hspec.
  destruct (record_new (self1, res, false) trajs) as [[self2 res2] looped] eqn:Hrec.
  simpl in *.
  assert (Hkeep : forall k v, dict_get k res = Some v -> dict_get k res2 = Some v).
  { intros k v Hk. destruct (Hspec k) as (-> & _). by rewrite Hk. }
  destruct (Hspec "") as (_ & Hpre & Hnd & Hfb & Hls & Hkind & _).
  assert (Hev : ml = None -> kind (loss self) = PyInt ->
                kind (loss self2) = PyInt /\ feedback self2 = feedback self /\
                losses self2 = S (losses self) /\
                effective_train_rl (feedback self) b = false).
  { intros -> Hk.
    apply rollout_eval_inv in Hroll as (Hrl & _ & Hfb1 & _ & Hl & Hls1).
    split; [apply Hkind; congruence|]. repeat split; congruence. }
  destruct looped.
  - intros [= <- <-]. repeat (split; [done|]).
    intros Hml Hk. destruct (Hev Hml Hk) as (? & ? & ? & ?).
    repeat (split; [done|]). split; [lia | done].
  - intros H. apply IH in H as (Hpre' & Hkeep' & Hnd' & Hev').
    split; [by etrans|]. split; [by intros k v ?; apply Hkeep', Hkeep|].
    split; [by intros ?; apply Hnd', Hnd|].
    intros Hml Hk. destruct (Hev Hml Hk) as (Hk2 & Hfb2 & Hls2 & Hrl).
    destruct (Hev' Hml Hk2) as (? & ? & ? & _).
    split; [done|]. split; [congruence|]. split; [lia | done].
Qed.

Lemma full_round_more_fuel (ml : option Q) (b reset : bool) (fuel : nat) :
  forall (self : Agent W) (res : Results W) r fuel',
    full_round fuel ml b reset self res = Some r -> fuel <= fuel' ->
    full_round fuel' ml b reset self res = Some r.
Proof.
  induction fuel as [|fuel IH]; intros self res r fuel'; simpl; [done|].
  intros H Hle. destruct fuel' as [|fuel']; [lia|]. simpl.
  destruct (rollout self ml b reset) as [[self1 trajs]|e]; [|done].
  destruct (record_new (self1, res, false) trajs).2; [done|].
  apply IH; [done | lia].
Qed.

(** A round that did not loop saw only new instruction ids, each once. *)
Lemma record_new_not_looped (trajs : list (Traj W)) :
  forall (self : Agent W) (res : Results W) (looped : bool),
    (record_new (self, res, looped) trajs).2 = false ->
    looped = false /\ NoDup (tr_instr_id <$> trajs) /\
    forall tr, tr ∈ trajs -> dict_get (tr_instr_id tr) res = None.
Proof.
  induction trajs as [|tr rest IH]; intros self res looped.
  - unfold record_new. cbn [foldl snd]. intros ->.
    split; [done|]. split; [constructor|]. intros tr Htr.
    by apply elem_of_nil in Htr.
  - rewrite record_new_cons.
    destruct (dict_get (tr_instr_id tr) res) as [v|] eqn:Hk.
    + intros H. by apply IH in H as [? _].
    + intros H. apply IH in H as (-> & Hnd & Hall).
      assert (Hrest : forall tr', tr' ∈ rest ->
                dict_get (tr_instr_id tr') res = None /\
                tr_instr_id tr <> tr_instr_id tr').
      { intros tr' Htr'. specialize (Hall tr' Htr').
        rewrite dict_get_app in Hall.
        destruct (dict_get (tr_instr_id tr') res); [done|].
        by destruct (String.eqb_spec (tr_instr_id tr) (tr_instr_id tr')). }
      split; [done|]. split.
      * rewrite fmap_cons. apply NoDup_cons. split; [|done].
        intros Hin. apply list_elem_of_fmap in Hin as (tr' & Heq & Htr').
        by destruct (Hrest tr' Htr') as [_ Hne].
      * intros tr' Htr'. apply elem_of_cons in Htr' as [->|Htr']; [done|].
        by destruct (Hrest tr' Htr').
Qed.

(** With a float in [ml_loss], the imitation term of a non-empty batch
    has no [.item()]. *)
Lemma rollout_il_raises (self s : Agent W) (loc : Locals W) w reset :
  feedback self <> "argmax" ->
  rollout_steps self false reset = Ok (s, loc) ->
  batch_size loc <> 0 ->
  rollout self (Some w) false reset = Raise AttributeError.
Proof.
  intros Hfb Hsteps Hbs. unfold rollout. rewrite Hsteps. simpl.
  pose proof (rollout_steps_ml_loss _ _ _ _ _ _ Hsteps Hfb) as Hml.
  apply rollout_steps_inv in Hsteps as (-> & _).
  assert (Hoff : effective_train_rl (feedback self) false = false)
    by (unfold effective_train_rl; by destruct (_ || _)).
  rewrite Hoff. simpl. unfold add_imitation_loss, item. rewrite Hml. simpl.
  by destruct (batch_size loc).
Qed.

End Drivers.

(** X11. [train] completes no iteration. Called for one iteration or more,
    it never returns: under ['teacher'] feedback its rollout is given an
    imitation weight that only ['argmax'] rollouts can use, under
    ['sample'] feedback the same happens when [args.ml_weight] is not 0
    and otherwise the reinforcement-learning rollout fails; and a feedback
    that is neither of the two fails the [assert False]. *)
Theorem train_completes_no_iteration (W : World) (teacher_weight ml_weight : Q)
  (apply_gradients : Agent W -> Agent W) (self : Agent W) (n_iters : Z)
  (fb : string) (reset : bool) :
  (1 <= n_iters)%Z ->
  (forall r, train teacher_weight ml_weight apply_gradients self n_iters fb reset
             <> Ok r) /\
  (fb <> "teacher" -> fb <> "sample" ->
   train teacher_weight ml_weight apply_gradients self n_iters fb reset
     = Raise AssertionError).
Proof.
  intros Hn. unfold train.
  destruct (Z.to_nat n_iters) as [|n] eqn:Hz; [lia|]. simpl.
  match goal with |- context [train_iteration _ _ _ _ _ ?s] =>
    destruct (train_iteration_fails W teacher_weight ml_weight apply_gradients
                fb reset s) as [Hfail Hassert] end.
  split.
  - intros r H. apply bind_Ok in H as (s & H & _). by apply Hfail in H.
  - intros Ht Hs. by rewrite Hassert.
Qed.

Lemma train_completes_no_iteration_witness :
  train 1 1 (fun s => s) (demo_agent still_world "teacher" 3 0) 1 "argmax" true
    = Raise AssertionError.
Proof.
  apply (train_completes_no_iteration still_world 1 1 (fun s => s)
           (demo_agent still_world "teacher" 3 0) 1 "argmax" true);
    [lia | discriminate | discriminate].
Defined.

(** X12. [accumulate_gradient] never returns: both of its branches start
    with a ['teacher'] rollout that is given an imitation weight, and any
    other feedback fails the [assert False]. When the step loop of that
    rollout is through on a non-empty batch, the exception is the
    [AttributeError] of [.item()] on a float. *)
Theorem accumulate_gradient_never_returns (W : World)
  (teacher_weight ml_weight : Q) (self : Agent W) (fb : string) (reset : bool) :
  (forall r, accumulate_gradient teacher_weight ml_weight self fb reset <> Ok r) /\
  (fb <> "teacher" -> fb <> "sample" ->
   accumulate_gradient teacher_weight ml_weight self fb reset
     = Raise AssertionError) /\
  (forall s loc,
     fb = "teacher" \/ fb = "sample" ->
     rollout_steps (with_feedback "teacher" self) false reset = Ok (s, loc) ->
     batch_size loc <> 0 ->
     accumulate_gradient teacher_weight ml_weight self fb reset
       = Raise AttributeError).
Proof.
  unfold accumulate_gradient. split; [|split].
  - intros r H.
    destruct (String.eqb fb "teacher").
    { apply bind_Ok in H as ([s trajs] & H & _).
      by apply rollout_il_fails in H. }
    destruct (String.eqb fb "sample"); [|done].
    apply bind_Ok in H as ([s trajs] & H & _).
    by apply rollout_il_fails in H.
  - intros Ht Hs.
    destruct (String.eqb_spec fb "teacher"); [done|].
    by destruct (String.eqb_spec fb "sample").
  - intros s loc Hfb Hsteps Hbs.
    assert (Hne : feedback (with_feedback "teacher" self) <> "argmax") by done.
    destruct (String.eqb_spec fb "teacher").
    { by rewrite (rollout_il_raises W _ s loc teacher_weight reset Hne Hsteps Hbs). }
    destruct (String.eqb_spec fb "sample"); [|by destruct Hfb].
    by rewrite (rollout_il_raises W _ s loc ml_weight reset Hne Hsteps Hbs).
Qed.

(** X13. [zero_grad] stores the float [0.] in [self.loss] and empties
    [self.losses]. An [optim_step] that follows at once raises
    [AttributeError] (a float has no [backward]), and the only rollout
    that can return after it is one under ['argmax'] feedback with an
    imitation weight: any other leaves the float in [self.loss], whose
    [.item()] fails at the end of the rollout. *)
Theorem zero_grad_leaves_float_loss (W : World)
  (apply_gradients : Agent W -> Agent W) (self : Agent W) :
  kind (loss (zero_grad self)) = PyFloat /\
  losses (zero_grad self) = 0 /\
  optim_step apply_gradients (zero_grad self) = Raise AttributeError /\
  forall train_ml train_rl_arg reset r,
    rollout (zero_grad self) train_ml train_rl_arg reset = Ok r ->
    feedback self = "argmax" /\ train_ml <> None.
Proof.
  split; [done|]. split; [done|]. split; [done|].
  intros [w|] b reset [self' trajs] H.
  - split; [|done].
    destruct (decide (feedback self = "argmax")) as [|Hne]; [done|].
    exfalso. by apply rollout_il_fails in H.
  - exfalso. by apply rollout_eval_inv in H as (_ & Hk & _).
Qed.

(** X14. [test] with a number of iterations [iters]: when it returns, it
    has run [iters] rollouts (none for a number below 1), each of which
    appended one entry to [self.losses]; [self.loss] is an [int]; the
    results hold every instruction id once; and if a rollout ran at all,
    the feedback was ['teacher'] or ['argmax'], the two that switch off
    the reinforcement-learning pass that the default [train_rl=True]
    asks for. *)
Theorem test_iters_mode (W : World) (reset_epoch : bool -> Sim W -> Sim W)
  (fuel : nat) (self self' : Agent W) (fb : string) (n : Z) (res : Results W) :
  test reset_epoch fuel self fb (Some n) = Some (Ok (self', res)) ->
  losses self' = Z.to_nat n /\ kind (loss self') = PyInt /\
  feedback self' = fb /\
  NoDup (r_instr_id <$> get_results res) /\
  ((0 < n)%Z -> fb = "teacher" \/ fb = "argmax").
Proof.
  unfold test, BaseAgent_test. intros [= H].
  apply test_iters_spec in H as (Hls & Hk & Hfb & Hnd & Hrl); [|done|done].
  simpl in *. split; [lia|]. split; [done|]. split; [done|]. split.
  - unfold get_results. rewrite <- list_fmap_compose.
    apply Hnd. constructor.
  - intros Hn. apply effective_train_rl_false, Hrl. lia.
Qed.

Lemma test_iters_mode_witness :
  exists self' res,
    test (W:=pad_world) (fun _ s => s) 0 (demo_agent pad_world "sample" 3 0)
      "argmax" (Some 2%Z) = Some (Ok (self', res)) /\
    losses self' = 2.
Proof.
  eexists _, _.
  match goal with
  | |- ?run = Some (Ok (?s, ?res)) /\ _ =>
      assert (Hrun : run = Some (Ok (s, res))) by (vm_compute; reflexivity);
      destruct (test_iters_mode pad_world _ _ _ _ _ _ _ Hrun) as (Hls & _)
  end.
  split; [exact Hrun | exact Hls].
Defined.

(** X15. [test] without [iters] (a full round): when it returns, the
    feedback was ['teacher'] or ['argmax'], at least one rollout ran and
    each rollout appended one entry to [self.losses], [self.loss] is an
    [int], [get_results] lists every instruction id once, and the outcome
    is that of the source's unbounded loop: any larger bound on the
    number of rollouts gives the same. *)
Theorem test_full_round (W : World) (reset_epoch : bool -> Sim W -> Sim W)
  (fuel : nat) (self self' : Agent W) (fb : string) (res : Results W) :
  test reset_epoch fuel self fb None = Some (Ok (self', res)) ->
  (fb = "teacher" \/ fb = "argmax") /\
  0 < losses self' <= fuel /\ kind (loss self') = PyInt /\
  feedback self' = fb /\
  NoDup (r_instr_id <$> get_results res) /\
  forall fuel', fuel <= fuel' ->
    test reset_epoch fuel' self fb None = Some (Ok (self', res)).
Proof.
  unfold test, BaseAgent_test. intros H.
  pose proof (full_round_spec W _ _ _ _ _ _ _ _ H) as (_ & _ & Hnd & Hev).
  destruct Hev as (Hk & Hfb & Hls & Hrl); [done|done|].
  simpl in *. split; [by apply effective_train_rl_false|].
  split; [lia|]. split; [done|]. split; [done|]. split.
  - unfold get_results. rewrite <- list_fmap_compose.
    apply Hnd. constructor.
  - intros fuel' Hle. by eapply full_round_more_fuel.
Qed.

Lemma test_full_round_witness :
  exists self' res,
    test (W:=pad_world) (fun _ s => s) 2 (demo_agent pad_world "sample" 3 0)
      "argmax" None = Some (Ok (self', res)) /\
    r_instr_id <$> get_results res = ["i0"; "i1"].
Proof.
  eexists _, _.
  match goal with
  | |- ?run = Some (Ok (?s, ?res)) /\ _ =>
      assert (Hrun : run = Some (Ok (s, res))) by (vm_compute; reflexivity);
      destruct (test_full_round pad_world _ _ _ _ _ _ Hrun) as (_ & _ & _ & _ & Hnd & _)
  end.
  split; [exact Hrun | vm_compute; reflexivity].
Defined.

(** X16. Which trajectory of an instruction [test] keeps. With [iters],
    every trajectory overwrites the entry of its instruction id, so the
    last one stays. In a full round an id that is already there is not
    written again, so the first one stays and the entries recorded before
    are a prefix of those after; and [looped] becomes true exactly when
    some returned trajectory has an id that was already recorded or that
    another trajectory of the same rollout has as well. *)
Theorem results_keep_first_or_last (W : World) (self : Agent W)
  (res : Results W) (looped : bool) (trajs : list (Traj W)) (k : string) :
  dict_get k (record_all (self, res) trajs).2 =
    match last (filter (fun tr => tr_instr_id tr = k) trajs) with
    | Some tr => Some (traj_value tr)
    | None => dict_get k res
    end /\
  dict_get k (record_new (self, res, looped) trajs).1.2 =
    match dict_get k res with
    | Some v => Some v
    | None => traj_value <$> head (filter (fun tr => tr_instr_id tr = k) trajs)
    end /\
  res `prefix_of` (record_new (self, res, looped) trajs).1.2 /\
  ((record_new (self, res, looped) trajs).2 = true <->
   looped = true \/
   ~ (NoDup (tr_instr_id <$> trajs) /\
      forall tr, tr ∈ trajs -> dict_get (tr_instr_id tr) res = None)).
Proof.
  destruct (record_all_spec W trajs self res k) as (Hall & _).
  destruct (record_new_spec W trajs self res looped k)
    as (Hnew & Hpre & _ & _ & _ & _ & Ht & Hloop).
  split; [done|]. split; [done|]. split; [done|]. split; [done|].
  intros Hor.
  destruct (record_new (self, res, looped) trajs).2 eqn:Hst; [done|].
  apply record_new_not_looped in Hst as (-> & Hnd & Hnone).
  destruct Hor as [|Hbad]; [done|]. by destruct Hbad.
Qed.

(** ** The layer normalisation *)

Section LayerNormFacts.

Local Open Scope R_scope.

Lemma Rsum_shift (c : R) (v : list R) :
  Rsum ((fun a => a + c) <$> v) = Rsum v + INR (length v) * c.
Proof.
  induction v as [|a v IH]; [simpl; lra|].
  rewrite fmap_cons, !Rsum_cons, IH.
  change (length (a :: v)) with (S (length v)). rewrite S_INR. lra.
Qed.

Lemma Rsum_scale (d : R) (v : list R) :
  Rsum ((fun a => a / d) <$> v) = Rsum v / d.
Proof.
  induction v as [|a v IH]; [simpl; lra|].
  rewrite fmap_cons, !Rsum_cons, IH. lra.
Qed.

Lemma Rsum_squares_nonneg (f : R -> R) (v : list R) :
  0 <= Rsum ((fun a => f a ^ 2) <$> v).
Proof.
  induction v as [|a v IH]; [simpl; lra|].
  rewrite fmap_cons, Rsum_cons. pose proof (pow2_ge_0 (f a)). lra.
Qed.

Lemma Rsum_replicate (n : nat) (c : R) : Rsum (replicate n c) = INR n * c.
Proof.
  induction n as [|n IH]; [simpl; lra|].
  cbn [replicate]. rewrite Rsum_cons, IH, S_INR. lra.
Qed.

Lemma INR_length_pos {A : Type} (v : list A) : v <> [] -> 0 < INR (length v).
Proof.
  intros Hv. apply lt_0_INR. destruct v; [done | simpl; lia].
Qed.

Lemma Rmean_shift (c : R) (v : list R) :
  v <> [] -> Rmean ((fun a => a + c) <$> v) = Rmean v + c.
Proof.
  intros Hv. unfold Rmean. rewrite Rsum_shift, length_fmap.
  pose proof (INR_length_pos v Hv). field. lra.
Qed.

Lemma zip_with_ones (v : list R) :
  zip_with Rmult (replicate (length v) 1) v = v.
Proof.
  induction v as [|a v IH]; [done|]. simpl. rewrite IH. f_equal. lra.
Qed.

Lemma zip_with_zeros_r (v : list R) :
  zip_with Rplus v (replicate (length v) 0) = v.
Proof.
  induction v as [|a v IH]; [done|]. simpl. rewrite IH. f_equal. lra.
Qed.

Lemma zip_with_mult_zeros (w : list R) :
  zip_with Rmult w (replicate (length w) 0) = replicate (length w) 0.
Proof.
  induction w as [|a w IH]; [done|]. simpl. rewrite IH. f_equal. lra.
Qed.

Lemma zip_with_plus_zeros_l (b : list R) :
  zip_with Rplus (replicate (length b) 0) b = b.
Proof.
  induction b as [|a b IH]; [done|]. simpl. rewrite IH. f_equal. lra.
Qed.

Lemma broadcast2_same (f : R -> R -> R) (a b : list R) :
  length a = length b -> broadcast2 f a b = Some (zip_with f a b).
Proof. intros H. unfold broadcast2. by rewrite bool_decide_true. Qed.

Lemma normalise_length (eps : R) (x : list R) :
  length (normalise eps x) = length x.
Proof. unfold normalise. by rewrite length_fmap. Qed.

(** The normalised vector has mean 0 and mean square [s / (s + eps)]. *)
Lemma normalise_moments (eps : R) (x : list R) :
  0 < eps -> x <> [] ->
  let s := Rmean ((fun a => (a - Rmean x) ^ 2) <$> x) in
  0 <= s /\
  Rmean (normalise eps x) = 0 /\
  Rmean ((fun a => a ^ 2) <$> normalise eps x) = s / (s + eps).
Proof.
  intros Heps Hx s.
  pose proof (INR_length_pos x Hx) as Hn.
  assert (Hs : 0 <= s).
  { unfold s, Rmean. rewrite length_fmap.
    pose proof (Rsum_squares_nonneg (fun a => a - Rmean x) x).
    apply Rmult_le_pos; [done|]. left. by apply Rinv_0_lt_compat. }
  split; [done|].
  assert (Hd : 0 < sqrt (s + eps)) by (apply sqrt_lt_R0; lra).
  assert (Hd2 : sqrt (s + eps) ^ 2 = s + eps).
  { simpl. rewrite Rmult_1_r. apply sqrt_sqrt. lra. }
  unfold normalise. fold s.
  remember (sqrt (s + eps)) as d eqn:Hdeq. split.
  - unfold Rmean at 1. rewrite length_fmap.
    replace ((fun a => (a - Rmean x) / d) <$> x)
      with ((fun a => a / d) <$> ((fun a => a + - Rmean x) <$> x)).
    2:{ rewrite <- list_fmap_compose. apply list_fmap_ext. intros _ a _.
        cbn [compose]. unfold Rdiv. ring. }
    rewrite Rsum_scale, Rsum_shift. unfold Rmean. field. lra.
  - unfold Rmean at 1. rewrite !length_fmap.
    replace ((fun a => a ^ 2) <$> ((fun a => (a - Rmean x) / d) <$> x))
      with ((fun a => a / (s + eps)) <$> ((fun a => (a - Rmean x) ^ 2) <$> x)).
    2:{ rewrite <- !list_fmap_compose. apply list_fmap_ext. intros _ a _.
        cbn [compose]. rewrite <- Hd2. field. lra. }
    rewrite Rsum_scale. unfold s at 2. unfold Rmean. rewrite length_fmap.
    field. split; lra.
Qed.

End LayerNormFacts.

(** X17. Over the reals, [BertLayerNorm.forward] does not see a constant
    added to every entry of its input: the mean absorbs it, whatever the
    weight, the bias and the epsilon, and also when the broadcast of the
    weight fails. *)
Theorem layer_norm_shift_invariant (ln : BertLayerNorm) (c : R) (x : list R) :
  BertLayerNorm_forward ln ((fun a => a + c)%R <$> x) = BertLayerNorm_forward ln x.
Proof.
  unfold BertLayerNorm_forward. f_equal. f_equal.
  destruct (decide (x = [])) as [->|Hx]; [done|].
  unfold normalise. rewrite (Rmean_shift c x Hx).
  rewrite <- !list_fmap_compose.
  assert (Hdev : (fun a => (a - (Rmean x + c)) ^ 2)%R ∘ (fun a => a + c)%R <$> x
                 = (fun a => (a - Rmean x) ^ 2)%R <$> x).
  { apply list_fmap_ext. intros _ a _. cbn [compose]. ring. }
  rewrite Hdev. apply list_fmap_ext. intros _ a _. cbn [compose].
  unfold Rdiv. ring.
Qed.

(** X18. Over the reals, a [BertLayerNorm] as [__init__] builds it (weight
    of ones, bias of zeros, a positive epsilon) maps a vector of
    [hidden_size] entries to a vector of as many entries, whose mean is 0
    and whose mean square is [s / (s + eps)], with [s] the mean squared
    deviation of the input from its mean: at least 0 and, the epsilon
    being inside the square root, below 1. *)
Theorem layer_norm_initial_output (hidden_size : nat) (eps : R) (x : list R) :
  (0 < eps)%R -> hidden_size <> 0 -> length x = hidden_size ->
  let s := Rmean ((fun a => (a - Rmean x) ^ 2)%R <$> x) in
  exists y,
    BertLayerNorm_forward (BertLayerNorm_init hidden_size eps) x = Some y /\
    length y = hidden_size /\
    Rmean y = 0%R /\
    Rmean ((fun a => a ^ 2)%R <$> y) = (s / (s + eps))%R /\
    (0 <= s / (s + eps) < 1)%R.
Proof.
  intros Heps Hh Hlen s.
  assert (Hx : x <> []) by (intros ->; simpl in Hlen; lia).
  destruct (normalise_moments eps x Heps Hx) as (Hs & Hmean & Hsq).
  fold s in Hs, Hsq.
  exists (normalise eps x). split.
  - unfold BertLayerNorm_forward, BertLayerNorm_init.
    cbn [weight bias variance_epsilon].
    rewrite <- Hlen, <- (normalise_length eps x).
    rewrite broadcast2_same by (by rewrite length_replicate).
    rewrite zip_with_ones. cbn [mbind option_bind].
    rewrite broadcast2_same by (by rewrite length_replicate).
    by rewrite zip_with_zeros_r.
  - split; [by rewrite normalise_length|]. split; [done|]. split; [done|].
    split.
    + apply Rmult_le_pos; [done|]. left. apply Rinv_0_lt_compat. lra.
    + apply (Rmult_lt_reg_r (s + eps)); [lra|]. field_simplify; lra.
Qed.

Lemma layer_norm_initial_output_witness :
  exists y,
    BertLayerNorm_forward (BertLayerNorm_init 2 (/ 10 ^ 12)) [1; 3]%R = Some y /\
    Rmean y = 0%R.
Proof.
  destruct (layer_norm_initial_output 2 (/ 10 ^ 12) [1; 3]%R)
    as (y & Hy & _ & Hmean & _).
  - apply Rinv_0_lt_compat. apply pow_lt. lra.
  - lia.
  - reflexivity.
  - exists y. split; [exact Hy | exact Hmean].
Defined.

(** X19. Over the reals and for a positive epsilon, an input whose
    entries are all the same is mapped to the bias: every deviation from
    the mean is 0 and the square root of the epsilon is not, so the
    weight multiplies zeros. *)
Theorem layer_norm_constant_input (ln : BertLayerNorm) (c : R) (n : nat) :
  (0 < variance_epsilon ln)%R ->
  length (weight ln) = n -> length (bias ln) = n ->
  BertLayerNorm_forward ln (replicate n c) = Some (bias ln).
Proof.
  intros _ Hw Hb.
  assert (Hnorm : normalise (variance_epsilon ln) (replicate n c)
                  = replicate n 0%R).
  { destruct n as [|n]; [done|].
    unfold normalise. rewrite fmap_replicate. f_equal.
    assert (Hu : Rmean (replicate (S n) c) = c).
    { unfold Rmean. rewrite Rsum_replicate, length_replicate.
      assert (INR (S n) <> 0%R) by (apply not_0_INR; lia). by field. }
    rewrite Hu. unfold Rdiv. ring. }
  unfold BertLayerNorm_forward. rewrite Hnorm.
  rewrite broadcast2_same by (by rewrite length_replicate).
  rewrite <- Hw, zip_with_mult_zeros, Hw, <- Hb. cbn [mbind option_bind].
  rewrite broadcast2_same by (by rewrite length_replicate).
  by rewrite zip_with_plus_zeros_l.
Qed.

Lemma layer_norm_constant_input_witness :
  BertLayerNorm_forward (mkBertLayerNorm [2; 3]%R [5; 7]%R 1%R) (replicate 2 4%R)
    = Some [5; 7]%R.
Proof.
  apply (layer_norm_constant_input (mkBertLayerNorm [2; 3]%R [5; 7]%R 1%R) 4%R 2);
    [simpl; lra | reflexivity | reflexivity].
Defined.

(** ** The confidence estimator *)

Section ConfidenceShift.

Local Open Scope R_scope.

Lemma Rsum_exp_shift (c : R) (v : list R) :
  Rsum (exp <$> ((fun a => a + c) <$> v)) = exp c * Rsum (exp <$> v).
Proof.
  induction v as [|a v IH]; [simpl; lra|].
  rewrite !fmap_cons, !Rsum_cons, IH, exp_plus. ring.
Qed.

(** The softmax does not see a constant added to every logit. *)
Lemma softmax_shift (c : R) (v : list R) :
  softmax ((fun a => a + c) <$> v) = softmax v.
Proof.
  unfold softmax. rewrite Rsum_exp_shift, <- !list_fmap_compose.
  apply list_fmap_ext. intros _ a _. cbn [compose].
  rewrite exp_plus. unfold Rdiv. rewrite Rinv_mult.
  transitivity (exp a * / Rsum (exp <$> v) * (exp c * / exp c)); [ring|].
  rewrite Rinv_r; [ring|]. pose proof (exp_pos c). lra.
Qed.

Lemma Rmean_replicate (n : nat) (a : R) : n <> 0%nat -> Rmean (replicate n a) = a.
Proof.
  intros Hn. unfold Rmean. rewrite Rsum_replicate, length_replicate.
  assert (INR n <> 0) by (by apply not_0_INR). by field.
Qed.

Lemma variance_shift (c : R) (v : list R) :
  v <> [] -> variance ((fun a => a + c) <$> v) = variance v.
Proof.
  intros Hv. unfold variance. rewrite (Rmean_shift c v Hv), length_fmap.
  f_equal. f_equal. rewrite <- list_fmap_compose.
  apply list_fmap_ext. intros _ a _. cbn [compose]. ring.
Qed.

Lemma variance_replicate (n : nat) (a : R) : variance (replicate n a) = 0.
Proof.
  destruct n as [|n]; [unfold variance, Rdiv; simpl; ring|].
  unfold variance. rewrite Rmean_replicate by done.
  rewrite fmap_replicate, Rsum_replicate. unfold Rdiv. ring.
Qed.

(** Mapping a function over the entries of a stack keeps its shape and
    maps every ensemble. *)
Lemma map_stack (f : R -> R) (x : list (list (list R))) (n b k : nat) :
  has_shape x n b k ->
  let x' := (fun sample : list (list R) =>
               (fun row : list R => f <$> row) <$> sample) <$> x in
  has_shape x' n b k /\
  forall i j, (i < b)%nat -> (j < k)%nat ->
    ensemble x' i j = f <$> ensemble x i j.
Proof.
  intros [Hn Hall] x'. split.
  - split; [by unfold x'; rewrite length_fmap|].
    unfold x'. apply Forall_fmap. eapply Forall_impl; [exact Hall|].
    intros m [Hb Hk]. split; [by rewrite length_fmap|].
    apply Forall_fmap. eapply Forall_impl; [exact Hk|].
    intros row Hrow. simpl. by rewrite length_fmap.
  - intros i j Hi Hj. unfold x', ensemble. rewrite <- !list_fmap_compose.
    apply list_fmap_ext. intros p m Hm. cbn [compose].
    pose proof (Forall_lookup_1 _ _ _ _ Hall Hm) as Hshape.
    rewrite (map_entries_table f m b k Hshape).
    apply (table_entry (fun i j => f (entry m i j)) b k i j Hi Hj).
Qed.

End ConfidenceShift.

(** X20. Over the reals, [calculate_confidence] does not see a constant
    added to every logit of an ensemble of two passes or more: the mean
    logits move by the constant, which the softmax cancels, and the
    variances across the ensemble are unchanged. *)
Theorem confidence_shift_invariant (logits : list (list (list R)))
  (n b k : nat) (c : R) :
  has_shape logits n b k -> 2 <= n ->
  calculate_confidence
    ((fun sample : list (list R) =>
        (fun row : list R => (fun a => a + c)%R <$> row) <$> sample) <$> logits)
  = calculate_confidence logits.
Proof.
  intros Hx Hn.
  destruct (map_stack (fun a => a + c)%R logits n b k Hx) as [Hx' Hens].
  assert (Hne : forall i j, ensemble logits i j <> []).
  { intros i j Hnil. apply (f_equal length) in Hnil.
    rewrite ensemble_length in Hnil. destruct Hx as [Hlen _].
    simpl in Hnil. lia. }
  unfold calculate_confidence.
  rewrite (mean_dim0_table _ n b k Hx') by lia.
  rewrite (var_dim0_table _ n b k Hx') by lia.
  rewrite (mean_dim0_table _ n b k Hx) by lia.
  rewrite (var_dim0_table _ n b k Hx) by lia.
  assert (Hvar : table (fun i j => variance (ensemble
                   ((fun sample : list (list R) =>
                       (fun row : list R => (fun a => a + c)%R <$> row) <$> sample)
                    <$> logits) i j)) b k
                 = table (fun i j => variance (ensemble logits i j)) b k).
  { apply table_ext. intros i j Hi Hj.
    rewrite (Hens i j Hi Hj). by apply variance_shift. }
  assert (Hprobs : softmax <$> table (fun i j => Rmean (ensemble
                   ((fun sample : list (list R) =>
                       (fun row : list R => (fun a => a + c)%R <$> row) <$> sample)
                    <$> logits) i j)) b k
                 = softmax <$> table (fun i j => Rmean (ensemble logits i j)) b k).
  { unfold table. rewrite <- !list_fmap_compose.
    apply list_fmap_ext. intros p i Hp. cbn [compose].
    apply lookup_seq in Hp as [-> Hi]. simpl.
    etrans; [|apply (softmax_shift c)]. f_equal. rewrite <- list_fmap_compose.
    apply list_fmap_ext. intros q j Hq. cbn [compose].
    apply lookup_seq in Hq as [-> Hj]. simpl.
    rewrite (Hens _ _ Hi Hj). by apply Rmean_shift. }
  by rewrite Hvar, Hprobs.
Qed.

Lemma confidence_shift_invariant_witness :
  calculate_confidence [[[1 + 5; 2 + 5]]; [[3 + 5; 4 + 5]]]%R
  = calculate_confidence two_pass_logits.
Proof.
  apply (confidence_shift_invariant two_pass_logits 2 1 2 5%R).
  - split; [reflexivity|]. repeat constructor.
  - lia.
Defined.

(** X21. Over the reals, when the passes of an ensemble of two or more
    all return the same logits [m] for two or more candidates, the
    variance term of
    [calculate_confidence] is at its best value 1, and the confidence of
    instance [i] is computed from the softmax [p] of its own row of [m]
    alone: [((1 - H(p) / ln candidates) + 1 + max p) / 3]. *)
Theorem confidence_of_unanimous_passes (m : list (list R)) (row : list R)
  (n b k i : nat) :
  mat_shape m b k -> 2 <= n -> 2 <= k -> m !! i = Some row ->
  calculate_confidence (replicate n m) !! i =
    Some (((1 - shannon (softmax row) / ln (INR k)) + (1 - 0)
           + Rmaximum (softmax row)) / 3)%R.
Proof.
  intros Hm Hn _ Hrow.
  assert (Hi : i < b).
  { destruct Hm as [<- _]. by eapply lookup_lt_Some. }
  assert (Hx : has_shape (replicate n m) n b k).
  { split; [by rewrite length_replicate|]. by apply Forall_replicate. }
  assert (Hens : forall i j, ensemble (replicate n m) i j
                             = replicate n (entry m i j)).
  { intros i' j. unfold ensemble. by rewrite fmap_replicate. }
  unfold calculate_confidence.
  rewrite (mean_dim0_table _ n b k Hx) by lia.
  rewrite (var_dim0_table _ n b k Hx) by lia.
  assert (Hmean : table (fun i j => Rmean (ensemble (replicate n m) i j)) b k = m).
  { etrans; [|symmetry; apply (mat_shape_table m b k Hm)].
    apply (table_ext _ (fun i j => entry m i j)).
    intros i' j _ _. rewrite Hens. apply Rmean_replicate. lia. }
  assert (Hvar : table (fun i j => variance (ensemble (replicate n m) i j)) b k
                 = table (fun _ _ => 0%R) b k).
  { apply table_ext. intros i' j _ _. rewrite Hens. apply variance_replicate. }
  rewrite Hmean, Hvar.
  assert (Hk : length row = k).
  { destruct Hm as [_ Hall]. by apply (Forall_lookup_1 _ _ _ _ Hall Hrow). }
  assert (Hlast : shape_last (softmax <$> m) = k).
  { destruct Hm as [Hb Hall]. destruct m as [|row0 m]; [simpl in Hb; lia|].
    apply Forall_cons in Hall as [Hrow0 _]. simpl. unfold softmax.
    by rewrite !length_fmap. }
  apply lookup_zip_with_Some.
  exists ((1 - shannon (softmax row) / ln (INR k)) + (1 - 0))%R,
         (Rmaximum (softmax row)).
  split; [done|]. split.
  - apply lookup_zip_with_Some.
    exists (1 - shannon (softmax row) / ln (INR k))%R, 0%R.
    split; [done|]. split.
    + by rewrite !list_lookup_fmap, Hrow, Hlast.
    + unfold table. rewrite !list_lookup_fmap, lookup_seq_lt by done.
      simpl. f_equal. unfold Rmean. rewrite length_fmap, length_seq.
      assert (Hz : Rsum ((fun _ : nat => 0%R) <$> seq 0 k) = 0%R).
      { generalize (seq 0 k). intros l. induction l as [|x l IH]; [done|].
        rewrite fmap_cons, Rsum_cons, IH. lra. }
      rewrite Hz. unfold Rdiv. ring.
  - by rewrite !list_lookup_fmap, Hrow.
Qed.

Lemma confidence_of_unanimous_passes_witness :
  calculate_confidence (replicate 2 [[1; 2]])%R !! 0 =
    Some (((1 - shannon (softmax [1; 2]) / ln (INR 2)) + (1 - 0)
           + Rmaximum (softmax [1; 2])) / 3)%R.
Proof.
  apply (confidence_of_unanimous_passes [[1; 2]]%R [1; 2]%R 2 1 2 0).
  - split; [reflexivity|]. repeat constructor.
  - lia.
  - lia.
  - reflexivity.
Defined.

(** ** The candidate features *)

Section CandidateFacts.

Variable feature : Candidate -> list Q.
Variable feat_size : nat.

Lemma py_max_ge (l : list nat) (m : nat) :
  py_max l = Ok m -> forall x, x ∈ l -> x <= m.
Proof.
  destruct l as [|x0 rest]; [done|]. intros [= <-].
  induction rest as [|y rest IH]; intros x Hx.
  - apply list_elem_of_singleton in Hx as ->. done.
  - simpl. apply elem_of_cons in Hx as [->|Hx].
    + etrans; [apply (IH x0); left | lia].
    + apply elem_of_cons in Hx as [->|Hx]; [lia|].
      etrans; [apply (IH x); by right | lia].
Qed.

Lemma fill_candidates_spec (cands : list Candidate) :
  forall j rows rows',
    fill_candidates feature feat_size j cands rows = Ok rows' ->
    length rows' = length rows /\
    (forall p, ~ (j <= p < j + length cands) -> rows' !! p = rows !! p) /\
    (forall p cc, cands !! p = Some cc ->
       exists v, broadcast feat_size (feature cc) = Ok v /\
                 rows' !! (j + p) = Some v).
Proof.
  induction cands as [|c0 rest IH]; intros j rows rows'; simpl.
  - intros [= <-]. split; [done|]. split; [done|]. intros p cc.
    by rewrite lookup_nil.
  - intros H. apply bind_Ok in H as (v & Hv & H).
    apply bind_Ok in H as (rows1 & Hset & H).
    apply setitem_Ok in Hset as [Hj ->].
    apply IH in H as (Hlen & Hout & Hin). rewrite length_insert in Hlen.
    split; [done|]. split.
    + intros p Hp. rewrite Hout by lia. apply list_lookup_insert_ne. lia.
    + intros [|p] cc; simpl.
      * intros [= <-]. exists v. split; [done|].
        rewrite Nat.add_0_r, Hout by lia. by apply list_lookup_insert_eq.
      * intros Hp. destruct (Hin p cc Hp) as (v' & Hv' & Hp').
        exists v'. split; [done|]. by rewrite <- Nat.add_succ_comm.
Qed.

Lemma fill_batch_spec (obs : list Obs) :
  forall i feat feat',
    fill_batch feature feat_size i obs feat = Ok feat' ->
    length feat' = length feat /\
    (forall p, ~ (i <= p < i + length obs) -> feat' !! p = feat !! p) /\
    (forall p ob, obs !! p = Some ob ->
       exists rows rows', feat !! (i + p) = Some rows /\
         feat' !! (i + p) = Some rows' /\
         fill_candidates feature feat_size 0 (candidate ob) rows = Ok rows').
Proof.
  induction obs as [|ob0 rest IH]; intros i feat feat'; simpl.
  - intros [= <-]. split; [done|]. split; [done|]. intros p ob.
    by rewrite lookup_nil.
  - intros H. apply bind_Ok in H as (rows & Hget & H).
    apply bind_Ok in H as (rows1 & Hfill & H).
    apply bind_Ok in H as (feat1 & Hset & H).
    apply getitem_Ok in Hget. apply setitem_Ok in Hset as [Hi ->].
    apply IH in H as (Hlen & Hout & Hin). rewrite length_insert in Hlen.
    split; [done|]. split.
    + intros p Hp. rewrite Hout by lia. apply list_lookup_insert_ne. lia.
    + intros [|p] ob; simpl.
      * intros [= <-]. exists rows, rows1. rewrite Nat.add_0_r.
        split; [done|]. split; [|done].
        rewrite Hout by lia. by apply list_lookup_insert_eq.
      * intros Hp. destruct (Hin p ob Hp) as (r & r' & Hr & Hr' & Hf).
        exists r, r'. rewrite <- Nat.add_succ_comm.
        split; [|done].
        rewrite list_lookup_insert_ne in Hr by lia. done.
Qed.

End CandidateFacts.

(** X22. When [_candidate_variable] returns, [candidate_leng] holds the
    number of candidates of every observation plus one (what the model of
    [get_input_feat] above returns), and [candidate_feat] has one block
    per observation with [max(candidate_leng)] slots of [feat_size]
    entries: slot [j] of block [i] is the feature of candidate [j] of
    observation [i], and every slot from the number of candidates on, the
    slot of the END action first, is zero. On an empty batch it raises
    [ValueError]. *)
Theorem candidate_variable_spec (feature : Candidate -> list Q) (feat_size : nat)
  (obs : list Obs) (feat : list (list (list Q))) (leng : list nat) :
  _candidate_variable feature feat_size obs = Ok (feat, leng) ->
  get_input_feat obs = Ok leng /\
  leng = (fun ob => length (candidate ob) + 1) <$> obs /\
  obs <> [] /\
  length feat = length obs /\
  forall i ob, obs !! i = Some ob ->
    exists slots width,
      feat !! i = Some slots /\ py_max leng = Ok width /\
      length slots = width /\ length (candidate ob) < width /\
      (forall j cc, candidate ob !! j = Some cc ->
         exists v, broadcast feat_size (feature cc) = Ok v /\
                   slots !! j = Some v) /\
      (forall j, length (candidate ob) <= j < width ->
         slots !! j = Some (replicate feat_size 0%Q)).
Proof.
  unfold _candidate_variable, get_input_feat. intros H.
  apply bind_Ok in H as (width & Hmax & H).
  apply bind_Ok in H as (feat0 & Hfill & H). injection H as <- <-.
  rewrite Hmax. split; [done|]. split; [done|].
  split; [by intros ->|].
  apply fill_batch_spec in Hfill as (Hlen & _ & Hin).
  rewrite length_replicate in Hlen. split; [done|].
  intros i ob Hi.
  destruct (Hin i ob Hi) as (rows & rows' & Hrows & Hrows' & Hfc).
  simpl in Hrows, Hrows'.
  apply lookup_replicate in Hrows as [-> _].
  apply fill_candidates_spec in Hfc as (Hl & Hout & Hcand).
  rewrite length_replicate in Hl.
  assert (Hw : length (candidate ob) + 1 <= width).
  { apply (py_max_ge _ _ Hmax). apply list_elem_of_fmap.
    exists ob. split; [done|]. by eapply list_elem_of_lookup_2. }
  exists rows', width. repeat (split; [done|]). split; [lia|]. split.
  - intros j cc Hj. destruct (Hcand j cc Hj) as (v & Hv & Hjv).
    exists v. done.
  - intros j Hj. rewrite Hout by (simpl; lia).
    apply lookup_replicate. split; [done | lia].
Qed.

Lemma candidate_variable_spec_witness :
  exists feat,
    _candidate_variable (fun cc => [1 # 2; inject_Z (c_idx cc)]%Q) 2 pad_obs
      = Ok (feat, [2; 3]) /\
    feat !! 0 = Some [[1 # 2; 0]; [0; 0]; [0; 0]]%Q.
Proof.
  eexists.
  match goal with
  | |- ?run = Ok (?feat, ?leng) /\ _ =>
      assert (Hrun : run = Ok (feat, leng)) by (vm_compute; reflexivity);
      destruct (candidate_variable_spec _ _ _ _ _ Hrun) as (_ & _ & _ & _ & H)
  end.
  split; [exact Hrun | vm_compute; reflexivity].
Defined.

(** ** Checkpoints *)

Section CheckpointFacts.

Context {Tensor OptState : Type}.

Variable shape : Tensor -> list nat.

(** A state dict with the keys of the model overwrites all of it. *)
Lemma union_same_dom (new cur : gmap string Tensor) :
  dom new = dom cur -> new ∪ cur = new.
Proof.
  intros Hdom. apply map_eq. intros k. rewrite lookup_union.
  destruct (new !! k) as [t|] eqn:Hn.
  - by destruct (cur !! k).
  - assert (Hc : cur !! k = None).
    { apply not_elem_of_dom. rewrite <- Hdom. by apply not_elem_of_dom. }
    by rewrite Hc.
Qed.

(** The updated copy of the model's own state dict is accepted exactly
    when the checkpoint brings no key that the model lacks and no tensor
    of another shape. *)
Lemma loadable_update (cur snap : gmap string Tensor) :
  loadable shape cur (snap ∪ cur) <->
  dom snap ⊆ dom cur /\
  map_Forall (fun k t => shape <$> cur !! k = Some (shape t)) snap.
Proof.
  unfold loadable, StateDict. rewrite dom_union_L. split.
  - intros [Hdom Hshape]. split; [rewrite <- Hdom; apply union_subseteq_l|].
    intros k t Hk. apply (Hshape k t). by apply lookup_union_Some_l.
  - intros [Hdom Hshape]. split; [by apply subseteq_union_1_L|].
    intros k t Hk. apply lookup_union_Some_raw in Hk as [Hk|[_ Hk]].
    + by apply (Hshape k t).
    + by rewrite Hk.
Qed.

Lemma loadable_refl (cur : gmap string Tensor) : loadable shape cur cur.
Proof.
  split; [done|]. intros k t Hk. by rewrite Hk.
Qed.

(** A checkpoint entry with the keys and shapes of the network replaces
    the network's state dict, silently. *)
Lemma recover_state_loadable
  (optimizer_load : OptState -> OptState -> option OptState) (loadOptim : bool)
  (states : gmap string (Snapshot Tensor OptState)) (name : string)
  (m : Trainable Tensor OptState) (snap : Snapshot Tensor OptState) :
  states !! name = Some snap ->
  loadable shape (state_dict m) (snap_state_dict snap) ->
  recover_state shape optimizer_load loadOptim states name m =
    if loadOptim then
      match optimizer_load (optimizer m) (snap_optimizer snap) with
      | None => inl OptimizerError
      | Some o => inr (mkTrainable (snap_state_dict snap) o, false)
      end
    else inr (mkTrainable (snap_state_dict snap) (optimizer m), false).
Proof.
  intros Hname Hload. unfold recover_state, load_state_dict, StateDict in *.
  rewrite Hname. pose proof Hload as [Hdom _].
  rewrite (union_same_dom _ _ Hdom), bool_decide_true by done.
  rewrite bool_decide_false by (intros Hne; by apply Hne).
  done.
Qed.

End CheckpointFacts.

(** X23. [load] undoes [save]. An agent whose two networks have the keys
    and the tensor shapes of those that were saved gets their state dicts
    back and the [epoch] that [save] was given ([save] stores [epoch + 1],
    [load] returns the stored number minus 1), and prints no notice. With
    [args.loadOptim] off its optimizers are left alone; with it on, the
    only exception possible is that of an optimizer refusing its state. *)
Theorem load_after_save {Tensor OptState : Type} (shape : Tensor -> list nat)
  (optimizer_load : OptState -> OptState -> option OptState) (loadOptim : bool)
  (self other : Networks Tensor OptState) (epoch : Z) :
  loadable shape (state_dict (vln_bert other)) (state_dict (vln_bert self)) ->
  loadable shape (state_dict (critic other)) (state_dict (critic self)) ->
  match load shape optimizer_load loadOptim other (save self epoch) with
  | inr (nets, notices, e) =>
      e = epoch /\ notices = 0 /\
      state_dict (vln_bert nets) = state_dict (vln_bert self) /\
      state_dict (critic nets) = state_dict (critic self) /\
      (loadOptim = false ->
       optimizer (vln_bert nets) = optimizer (vln_bert other) /\
       optimizer (critic nets) = optimizer (critic other))
  | inl err => loadOptim = true /\ err = OptimizerError
  end.
Proof.
  intros Hv Hc. unfold load.
  assert (Hsv : save self epoch !! "vln_bert"
                = Some (mkSnapshot (epoch + 1) (state_dict (vln_bert self))
                          (optimizer (vln_bert self)))).
  { unfold save, create_state.
    by rewrite lookup_insert_ne, lookup_insert_eq. }
  assert (Hsc : save self epoch !! "critic"
                = Some (mkSnapshot (epoch + 1) (state_dict (critic self))
                          (optimizer (critic self)))).
  { unfold save, create_state. by rewrite lookup_insert_eq. }
  rewrite (recover_state_loadable shape optimizer_load loadOptim _ _ _ _ Hsv Hv).
  rewrite (recover_state_loadable shape optimizer_load loadOptim _ _ _ _ Hsc Hc).
  rewrite Hsv. cbn [snap_state_dict snap_optimizer snap_epoch].
  destruct loadOptim.
  - destruct (optimizer_load _ _); [|done].
    destruct (optimizer_load _ _); [|done].
    cbn. split; [lia|]. done.
  - cbn. split; [lia|]. done.
Qed.

Lemma load_after_save_witness :
  let self := mkNetworks (mkTrainable ({[ "w" := 5 ]} : gmap string nat) 1)
                         (mkTrainable ({[ "v" := 7 ]} : gmap string nat) 2) in
  match load (fun _ : nat => [1]) (fun _ o : nat => Some o) false self
          (save self 3) with
  | inr (nets, notices, e) =>
      e = 3%Z /\ notices = 0 /\
      state_dict (vln_bert nets) = state_dict (vln_bert self) /\
      state_dict (critic nets) = state_dict (critic self) /\
      (false = false ->
       optimizer (vln_bert nets) = optimizer (vln_bert self) /\
       optimizer (critic nets) = optimizer (critic self))
  | inl err => false = true /\ err = OptimizerError
  end.
Proof.
  intros self.
  apply (load_after_save (fun _ : nat => [1]) (fun _ o : nat => Some o) false
           self self 3); apply loadable_refl.
Defined.

(** X24. What [recover_state] does with the keys of a checkpoint, with
    [args.loadOptim] off. If the checkpoint has no entry for the name, it
    raises [KeyError]. If the entry brings only keys that the network has,
    with tensors of the network's shapes, it succeeds: the network takes
    the checkpoint's tensors, keeps its own for the keys that the
    checkpoint lacks, and the notice is printed exactly when the two key
    sets differ. If the entry brings a key that the network lacks or a
    tensor of another shape, the strict [load_state_dict] raises
    [RuntimeError]. *)
Theorem recover_state_keys {Tensor OptState : Type} (shape : Tensor -> list nat)
  (optimizer_load : OptState -> OptState -> option OptState)
  (states : gmap string (Snapshot Tensor OptState)) (name : string)
  (m : Trainable Tensor OptState) :
  match states !! name with
  | None =>
      recover_state shape optimizer_load false states name m
        = inl (KeyError name)
  | Some snap =>
      let cur : gmap string Tensor := state_dict m in
      let new : gmap string Tensor := snap_state_dict snap in
      let fits :=
        dom new ⊆ dom cur /\
        map_Forall (fun k t => shape <$> cur !! k = Some (shape t)) new in
      (fits ->
       exists loaded : gmap string Tensor,
         recover_state shape optimizer_load false states name m
           = inr (mkTrainable loaded (optimizer m),
                  bool_decide (dom cur <> dom new)) /\
         dom loaded = dom cur /\
         (forall k, k ∈ dom new -> loaded !! k = new !! k) /\
         (forall k, k ∉ dom new -> loaded !! k = cur !! k)) /\
      (~ fits ->
       recover_state shape optimizer_load false states name m
         = inl RuntimeError)
  end.
Proof.
  unfold recover_state, StateDict in *.
  destruct (states !! name) as [snap|]; [|done].
  cbv zeta. unfold load_state_dict. split.
  - intros Hok. apply loadable_update in Hok as Hload.
    rewrite bool_decide_true by done.
    eexists. split; [reflexivity|]. destruct Hload as [Hdom _].
    split; [done|]. split.
    + intros k Hk. apply elem_of_dom in Hk as [t Hk].
      rewrite Hk. by apply lookup_union_Some_l.
    + intros k Hk. apply not_elem_of_dom in Hk. by apply lookup_union_r.
  - intros Hok. rewrite bool_decide_false; [done|].
    intros Hload. by apply Hok, loadable_update.
Qed.

Lemma recover_state_keys_witness :
  let cur : gmap string nat := {[ "w" := 1; "b" := 2 ]} in
  let new : gmap string nat := {[ "w" := 5 ]} in
  exists loaded : gmap string nat,
    recover_state (fun _ : nat => []) (fun _ o : nat => Some o) false
      {[ "vln_bert" := mkSnapshot 4 new 0 ]} "vln_bert" (mkTrainable cur 9)
      = inr (mkTrainable loaded 9, bool_decide (dom cur <> dom new)) /\
    loaded !! "w" = Some 5 /\ loaded !! "b" = Some 2.
Proof.
  intros cur new.
  pose proof (recover_state_keys (fun _ : nat => []) (fun _ o : nat => Some o)
                {[ "vln_bert" := mkSnapshot 4 new 0 ]} "vln_bert"
                (mkTrainable cur 9)) as H.
  rewrite lookup_singleton_eq in H. cbv zeta in H.
  cbn [state_dict snap_state_dict optimizer] in H.
  assert (Hw : new !! "w" = Some 5) by apply lookup_singleton_eq.
  assert (Hb : new !! "b" = None) by (by apply lookup_singleton_ne).
  assert (Hcw : cur !! "w" = Some 1) by apply lookup_insert_eq.
  assert (Hcb : cur !! "b" = Some 2)
    by (unfold cur; by rewrite lookup_insert_ne, lookup_singleton_eq).
  destruct H as [H _].
  destruct H as (loaded & Hrun & _ & Hin & Hout).
  - split.
    + intros k Hk. apply elem_of_dom in Hk as [t Hk].
      apply lookup_singleton_Some in Hk as [<- _].
      apply elem_of_dom. by eexists.
    + intros k t Hk. apply lookup_singleton_Some in Hk as [<- <-].
      by rewrite Hcw.
  - exists loaded. split; [exact Hrun|]. split.
    + rewrite Hin; [done|]. apply elem_of_dom. by eexists.
    + rewrite Hout; [done|]. by apply not_elem_of_dom.
Defined.

(** ** The candidate features under Monte Carlo dropout *)

Section DropEnvFacts.

Context (W : World).

Variable angle_feat_size : nat.
Variable featdropout : Q.
Variable keep : nat -> nat -> nat -> nat -> bool.

Lemma tensor_imap_ext (g1 g2 : nat -> nat -> nat -> nat -> Q -> Q)
  (t : list (list (list Q))) :
  (forall i j k len x, g1 i j k len x = g2 i j k len x) ->
  tensor_imap g1 t = tensor_imap g2 t.
Proof.
  intros Hg. unfold tensor_imap.
  apply imap_ext. intros i block _. apply imap_ext. intros j row _.
  apply imap_ext. intros k x _. apply Hg.
Qed.

Lemma tensor_imap_compose (g1 g2 : nat -> nat -> nat -> nat -> Q -> Q)
  (t : list (list (list Q))) :
  tensor_imap g2 (tensor_imap g1 t) =
    tensor_imap (fun i j k len x => g2 i j k len (g1 i j k len x)) t.
Proof.
  unfold tensor_imap. apply list_eq. intros i. rewrite !list_lookup_imap.
  destruct (t !! i) as [block|]; [|done]. simpl. f_equal.
  apply list_eq. intros j. rewrite !list_lookup_imap.
  destruct (block !! j) as [row|]; [|done]. simpl. f_equal.
  rewrite length_imap. apply list_eq. intros k. rewrite !list_lookup_imap.
  by destruct (row !! k).
Qed.

Lemma tensor_imap_id (g : nat -> nat -> nat -> nat -> Q -> Q)
  (t : list (list (list Q))) :
  (forall i j k len x, g i j k len x = x) -> tensor_imap g t = t.
Proof.
  intros Hg. unfold tensor_imap. apply list_eq. intros i.
  rewrite list_lookup_imap. destruct (t !! i) as [block|]; [|done].
  simpl. f_equal. apply list_eq. intros j. rewrite list_lookup_imap.
  destruct (block !! j) as [row|]; [|done]. simpl. f_equal.
  apply list_eq. intros k. rewrite list_lookup_imap.
  destruct (row !! k); [|done]. simpl. by rewrite Hg.
Qed.

Lemma init_has_drop_env (inner : list Module) (mode : bool) :
  has_drop_env (set_training mode (VLNBERT_init inner)) /\
  drop_env_training (set_training mode (VLNBERT_init inner)) = mode.
Proof.
  unfold has_drop_env, drop_env_training, set_training, VLNBERT_init.
  cbn [modules]. rewrite length_fmap, list_lookup_fmap, app_comm_cons.
  rewrite length_app. cbn [length].
  rewrite lookup_app_r by (cbn [length]; lia).
  replace (S (length inner) + 10 - 6 - length (mkModule false true :: inner))
    with 4 by (cbn [length]; lia).
  cbn. split; [by eexists | done].
Qed.

Lemma enable_dropout_drop_env (m : VLNBERT) :
  has_drop_env m ->
  has_drop_env (enable_dropout m) /\ drop_env_training (enable_dropout m) = true.
Proof.
  intros (md & Hmd & Hd).
  unfold has_drop_env, drop_env_training, enable_dropout. cbn [modules].
  rewrite length_fmap, list_lookup_fmap, Hmd. cbn. rewrite Hd.
  split; [by eexists | done].
Qed.

Lemma drop_env_write_eval (pass : nat) (t : list (list (list Q))) :
  drop_env_write angle_feat_size featdropout keep false pass t = t.
Proof.
  unfold drop_env_write. apply tensor_imap_id. intros i j k len x.
  by destruct (k <? _).
Qed.

Lemma forward_cand_feats_visual (tc : Torch) (st : Hidden W * LangFeat W)
  (obs : list Obs) (t : list (list (list Q))) :
  forward_cand_feats angle_feat_size featdropout keep tc "visual"
    (mkInputs (Some st) obs) t =
  drop_env_write angle_feat_size featdropout keep
    (drop_env_training
       (if mc_dropout (net tc) then enable_dropout (net tc) else net tc))
    (length (passes tc)) t.
Proof. reflexivity. Qed.

(** The sampling loop composes its writes: entry [(i, j, k)] of the slice
    goes through the masks of all passes, one after the other. *)
Lemma mc_cand_feats_visual (h : Hidden W) (lang : LangFeat W) (obs : list Obs) :
  forall n tc feats,
    mc_dropout (net tc) = true -> has_drop_env (net tc) ->
    mc_cand_feats angle_feat_size featdropout keep n tc "visual"
      (mkInputs (Some (h, lang)) obs) feats =
    tensor_imap
      (fun i j k len x =>
         if k <? dropped_width angle_feat_size len
         then foldl (fun y t => drop_entry featdropout keep true t i j k y) x
                (seq (length (passes tc)) n)
         else x)
      feats.
Proof.
  induction n as [|n IH]; intros tc feats Hmc Hdrop.
  - cbn [mc_cand_feats seq foldl]. symmetry. apply tensor_imap_id.
    intros i j k len x. by destruct (k <? _).
  - cbn [mc_cand_feats].
    destruct (forward_visual W tc h lang obs) as (sp & logit & c & -> & _).
    rewrite forward_cand_feats_visual, Hmc.
    destruct (enable_dropout_drop_env _ Hdrop) as [Hdrop' ->].
    rewrite IH; [|done|done]. unfold drop_env_write.
    rewrite tensor_imap_compose. apply tensor_imap_ext.
    intros i j k len x. cbn [passes record_pass length seq foldl].
    by destruct (k <? _).
Qed.

(** Once an entry has been dropped, it stays at 0. *)
Lemma foldl_drop_zero (i j k : nat) (passes : list nat) :
  forall x, (x == 0)%Q ->
    (foldl (fun y t => drop_entry featdropout keep true t i j k y) x passes
     == 0)%Q.
Proof.
  induction passes as [|t rest IH]; intros x Hx; [done|].
  cbn [foldl]. apply IH. unfold drop_entry.
  destruct (keep t i j k); [|done]. rewrite Hx. reflexivity.
Qed.

Lemma foldl_dropped (i j k : nat) (passes : list nat) :
  forall x t, t ∈ passes -> keep t i j k = false ->
    (foldl (fun y t => drop_entry featdropout keep true t i j k y) x passes
     == 0)%Q.
Proof.
  induction passes as [|t0 rest IH]; intros x t Ht Hk.
  - by apply elem_of_nil in Ht.
  - cbn [foldl]. apply elem_of_cons in Ht as [<-|Ht].
    + apply foldl_drop_zero. unfold drop_entry. by rewrite Hk.
    + by apply (IH _ t).
Qed.

End DropEnvFacts.

(** X25. The candidate features that the canonical pass of an ['argmax']
    iteration works on are not those that [get_input_feat] built. Every
    visual [forward] writes [drop_env] of the leading entries of
    [cand_feats] back into the caller's tensor, and [monte_carlo_forward]
    and the canonical pass are all handed the same tensor. For a network
    in evaluation mode: one visual pass alone leaves the tensor as it is;
    but after the ten sampled passes and the canonical one, an entry of
    the slice has been through eleven dropout masks in a row, so that an
    entry that any of them dropped is 0, while the trailing
    [angle_feat_size] entries of every row are untouched. *)
Theorem mc_dropout_accumulates_on_cand_feats (W : World) (angle_feat_size : nat)
  (featdropout : Q) (keep : nat -> nat -> nat -> nat -> bool)
  (inner : list Module) (g : bool) (ps : list Pass)
  (h : Hidden W) (lang : LangFeat W) (obs : list Obs)
  (cand_feats : list (list (list Q))) :
  let tc := mkTorch (set_training false (VLNBERT_init inner)) g ps in
  let inp := mkInputs (Some (h, lang)) obs in
  let through_masks i j k x :=
    foldl (fun y t => drop_entry featdropout keep true t i j k y) x
      (seq (length ps) 11) in
  forward_cand_feats angle_feat_size featdropout keep tc "visual" inp cand_feats
    = cand_feats /\
  forward_cand_feats angle_feat_size featdropout keep
    (monte_carlo_forward tc "visual" inp).1 "visual" inp
    (monte_carlo_cand_feats angle_feat_size featdropout keep tc "visual" inp
       cand_feats)
    = tensor_imap (fun i j k len x =>
                     if k <? dropped_width angle_feat_size len
                     then through_masks i j k x else x)
        cand_feats /\
  forall i j k x t,
    length ps <= t < length ps + 11 -> keep t i j k = false ->
    (through_masks i j k x == 0)%Q.
Proof.
  intros tc inp through_masks.
  destruct (init_has_drop_env inner false) as [Hdrop Heval].
  split; [|split].
  - unfold inp. rewrite forward_cand_feats_visual.
    change (drop_env_training _)
      with (drop_env_training (set_training false (VLNBERT_init inner))).
    rewrite Heval. apply drop_env_write_eval.
  - destruct (monte_carlo_forward_visual W tc h lang obs)
      as (tc' & outputs & news & Hmc & _ & Hpasses & Hlen & _ & _ & Hnet);
      [done|].
    fold inp in Hmc. rewrite Hmc. cbn [fst].
    unfold monte_carlo_cand_feats.
    rewrite (mc_cand_feats_visual W angle_feat_size featdropout keep h lang obs);
      [|done|apply enable_dropout_drop_env, Hdrop].
    unfold inp. rewrite forward_cand_feats_visual, Hnet.
    cbn [mc_dropout set_mc_dropout].
    assert (Htrain : drop_env_training
                       (set_mc_dropout false
                          (enable_dropout (set_mc_dropout true (net tc)))) = true).
    { by destruct (enable_dropout_drop_env _ Hdrop) as [_ Ht]. }
    rewrite Htrain, Hpasses, length_app, Hlen.
    unfold drop_env_write. rewrite tensor_imap_compose.
    apply tensor_imap_ext. intros i j k len x.
    destruct (k <? _); [|done].
    unfold through_masks.
    change (mc_dropout_samples _) with 10.
    cbn [passes set_grad set_net tc].
    change 11 with (10 + 1). rewrite seq_app, foldl_app. cbn [seq foldl].
    by rewrite (Nat.add_comm (length ps) 10).
  - intros i j k x t Ht Hk. unfold through_masks.
    apply (foldl_dropped featdropout keep i j k _ x t); [|done].
    apply elem_of_seq. lia.
Qed.

(** ** The feedback modes *)

Section Feedback.

Context (W : World).

Lemma eqb_argmax_false (fb : string) :
  fb <> "argmax" -> String.eqb fb "argmax" = false.
Proof. intros H. by apply String.eqb_neq. Qed.

(** Outside ['argmax'] the step does not look at the feedback. *)
Lemma step_feedback (fb : string) (t0 : nat) (self : Agent W) (loc : Locals W) :
  feedback self <> "argmax" -> fb <> "argmax" ->
  step t0 (with_feedback fb self) loc =
    (step t0 self loc ≫= fun p => Ok (with_feedback fb p.1, p.2)).
Proof.
  intros Hself Hfb.
  assert (Hsel : select_action t0 (with_feedback fb self) loc
                 = select_action t0 self loc).
  { unfold select_action. cbn [feedback with_feedback torch].
    by rewrite !eqb_argmax_false. }
  assert (Hact : act_phase t0 (with_feedback fb self) loc
                 = act_phase t0 self loc).
  { unfold act_phase. by rewrite Hsel. }
  unfold step. rewrite Hact.
  destruct (act_phase t0 self loc) as [act|e]; [|done].
  cbn [mbind result_bind].
  destruct (if train_rl loc then _ else _) as [[[[r m] ld] ln]|e]; [|done].
  cbn [mbind result_bind].
  by destruct (update_ended (ended loc) (a_cpu act)).
Qed.

Lemma rollout_loop_feedback (fb : string) (ts : list nat) :
  forall (self : Agent W) (loc : Locals W),
    feedback self <> "argmax" -> fb <> "argmax" ->
    rollout_loop ts (with_feedback fb self) loc =
      (rollout_loop ts self loc ≫= fun p => Ok (with_feedback fb p.1, p.2)).
Proof.
  induction ts as [|t0 rest IH]; intros self loc Hself Hfb; [done|].
  cbn [rollout_loop]. rewrite step_feedback by done.
  destruct (step t0 self loc) as [[self1 loc1]|e] eqn:Hstep; [|done].
  cbn [mbind result_bind fst snd].
  destruct (all_ended (ended loc1)); [done|].
  apply IH; [|done].
  apply step_inv in Hstep as (act & _ & _ & _ & _ & _ & _ & _ & Heq & _).
  by rewrite Heq.
Qed.

End Feedback.

(** X26. ['teacher'] feedback is no teacher forcing. Outside ['argmax']
    the step loop never reads [self.feedback] again: the action is the
    argmax of the logits whatever the mode. So, with [train_rl=False],
    rollouts under any two feedbacks other than ['argmax'] (['teacher']
    and ['sample'], say) take the same actions, return the same
    trajectories and raise the same exceptions; all that differs is the
    string kept in [self.feedback]. *)
Theorem feedback_outside_argmax_is_ignored (W : World) (self : Agent W)
  (fb : string) (train_ml : option Q) (reset : bool) :
  feedback self <> "argmax" -> fb <> "argmax" ->
  rollout (with_feedback fb self) train_ml false reset =
    (rollout self train_ml false reset
     ≫= fun r => Ok (with_feedback fb r.1, r.2)).
Proof.
  intros Hself Hfb.
  assert (Hoff : forall x, effective_train_rl x false = false).
  { intros x. unfold effective_train_rl. by destruct (_ || _). }
  assert (Hinit : rollout_init (with_feedback fb self) false reset =
                  (rollout_init self false reset
                   ≫= fun p => Ok (with_feedback fb p.1, p.2))).
  { unfold rollout_init. cbn [feedback with_feedback env torch]. rewrite !Hoff.
    destruct (if reset then _ else _) as [sim obs].
    destruct (sort_batch W obs) as [perm|e]; [|done]. cbn [mbind result_bind].
    destruct (take_perm obs perm) as [perm_obs|e]; [|done].
    cbn [mbind result_bind].
    destruct (run _) as [[tc out]|e]; [|done]. cbn [mbind result_bind].
    destruct (unpack2 out) as [[h l]|e]; [|done]. cbn [mbind result_bind].
    by destruct (init_shaping _ _ _ _ _) as [[ld ln]|e]. }
  assert (Hsteps : rollout_steps (with_feedback fb self) false reset =
                   (rollout_steps self false reset
                    ≫= fun p => Ok (with_feedback fb p.1, p.2))).
  { unfold rollout_steps. rewrite Hinit.
    destruct (rollout_init self false reset) as [[self1 loc1]|e] eqn:Hi; [|done].
    cbn [mbind result_bind fst snd].
    apply rollout_init_inv in Hi as (_&_&_&_&_&_& Hfb1 &_).
    apply rollout_loop_feedback; [congruence | done]. }
  unfold rollout. rewrite Hsteps.
  destruct (rollout_steps self false reset) as [[s loc]|e] eqn:Hs; [|done].
  cbn [mbind result_bind fst snd].
  apply rollout_steps_inv in Hs as (Hrl & _). rewrite Hoff in Hrl.
  rewrite Hrl. cbn [mbind result_bind].
  assert (Hil : forall s0 : Agent W,
            add_imitation_loss (with_feedback fb s0) loc train_ml =
            (add_imitation_loss s0 loc train_ml
             ≫= fun s' => Ok (with_feedback fb s'))).
  { intros s0. unfold add_imitation_loss, item. destruct train_ml as [w|]; [|done].
    by destruct (kind (ml_loss loc)), (batch_size loc). }
  assert (Hrec : forall s0 : Agent W,
            record_loss (with_feedback fb s0) =
            (record_loss s0 ≫= fun s' => Ok (with_feedback fb s'))).
  { intros s0. unfold record_loss, item. cbn [loss episode_len with_feedback].
    destruct (kind (loss s0)); [done|done|].
    cbn [mbind result_bind]. by case_bool_decide. }
  rewrite Hil. destruct (add_imitation_loss s loc train_ml) as [s4|e]; [|done].
  cbn [mbind result_bind]. rewrite Hrec.
  by destruct (record_loss s4) as [s5|e].
Qed.

Lemma feedback_outside_argmax_is_ignored_witness :
  exists r,
    rollout (demo_agent still_world "sample" 2 0) None false true = Ok r /\
    rollout (with_feedback "teacher" (demo_agent still_world "sample" 2 0))
      None false true = Ok (with_feedback "teacher" r.1, r.2).
Proof.
  eexists.
  match goal with
  | |- ?run = Ok ?r /\ _ =>
      assert (Hrun : run = Ok r) by (vm_compute; reflexivity)
  end.
  split; [exact Hrun|].
  rewrite (feedback_outside_argmax_is_ignored still_world
             (demo_agent still_world "sample" 2 0) "teacher" None true)
    by discriminate.
  rewrite Hrun. reflexivity.
Defined.

(** ** The actions of an iteration *)

Section Actions.

Context (W : World).

(** [logit.max(1)] yields indices: none is negative. *)
Lemma max_dim1_nonneg (logit : list (list xlogit)) (a_t : list Z) :
  max_dim1 logit = Ok a_t -> Forall (fun a => (0 <= a)%Z) a_t.
Proof.
  unfold max_dim1. revert a_t.
  induction logit as [|row rest IH]; intros a_t; simpl.
  - intros [= <-]. constructor.
  - intros H. apply bind_Ok in H as (a & Ha & H).
    apply bind_Ok in H as (tl & Htl & H). injection H as <-.
    apply bind_Ok in Ha as (k & _ & Ha). injection Ha as <-.
    constructor; [lia|]. by apply IH.
Qed.

Lemma select_action_nonneg t0 (self : Agent W) (loc : Locals W) sel :
  select_action t0 self loc = Ok sel -> Forall (fun a => (0 <= a)%Z) (s_a_t sel).
Proof.
  unfold select_action. intros H. inv_bind H.
  destruct (String.eqb (feedback self) "argmax"); inv_bind H; norm_items;
    simpl; by eapply max_dim1_nonneg.
Qed.

(** An environment action is the sentinel or the chosen index. *)
Lemma env_action_values ended leng a_t :
  forall k cpu,
    env_action (W:=W) k a_t leng ended = Ok cpu ->
    forall j a, cpu !! j = Some a ->
      a = stop_action \/ a_t !! j = Some a.
Proof.
  induction a_t as [|next_id rest IH]; intros k cpu; simpl.
  - intros [= <-] j a. by rewrite lookup_nil.
  - intros H. apply bind_Ok in H as (leng_i & _ & H).
    apply bind_Ok in H as (a0 & Ha0 & H).
    apply bind_Ok in H as (rest' & Hrest & H). injection H as <-.
    intros [|j] a; simpl.
    + intros [= <-]. unfold env_action_one in Ha0.
      destruct (next_id =? _)%Z; [injection Ha0 as <-; by left|].
      destruct (next_id =? _)%Z; [injection Ha0 as <-; by left|].
      apply bind_Ok in Ha0 as (e & _ & Ha0). injection Ha0 as <-.
      destruct e; [by left | by right].
    + by apply (IH (S k) rest').
Qed.

(** A move that was made went to the candidate that the action indexes. *)
Lemma make_equiv_action_candidates a_t obs idxs :
  forall k (sim sim' : Sim W) (traj traj' : list (Traj W)),
    make_equiv_action k idxs a_t obs sim traj = Ok (sim', traj') ->
    forall i a, k <= i < k + length idxs -> a_t !! i = Some a ->
      a <> stop_action ->
      exists ob cand, obs !! i = Some ob /\
                      py_getitem (candidate ob) a = Ok cand.
Proof.
  induction idxs as [|idx rest IH]; intros k sim sim' traj traj'; simpl.
  - intros _ i a Hi. lia.
  - intros H i a Hi Ha Hne.
    apply bind_Ok in H as (a0 & Ha0 & H). apply getitem_Ok in Ha0.
    destruct (decide (i = k)) as [->|Hik].
    + rewrite Ha in Ha0. injection Ha0 as <-.
      destruct (Z.eqb_spec a stop_action); [done|].
      apply bind_Ok in H as (ob & Hob & H). apply getitem_Ok in Hob.
      apply bind_Ok in H as (cand & Hcand & _). by exists ob, cand.
    + destruct (a0 =? stop_action)%Z.
      * apply (IH _ _ _ _ _ H); [lia | done | done].
      * apply bind_Ok in H as (ob & _ & H).
        apply bind_Ok in H as (cand & _ & H).
        apply bind_Ok in H as ([sim1 p] & _ & H).
        apply bind_Ok in H as (tr & _ & H).
        apply (IH _ _ _ _ _ H); [lia | done | done].
Qed.

End Actions.

(** X27. In an iteration that completes, the environment action of every
    instance is the sentinel -1 or the index of one of the candidates of
    its observation: the index comes from [logit.max(1)] and is never
    negative, so [perm_obs[i]['candidate'][action]] cannot count from the
    end of the list, and an index past the candidates would have raised. *)
Theorem moves_go_to_candidates (W : World) (t0 : nat) (self self' : Agent W)
  (loc loc' : Locals W) (i : nat) (a : Z) :
  step t0 self loc = Ok (self', loc') ->
  i < length (perm_idx loc) -> cpu_a_t loc' !! i = Some a ->
  a = stop_action \/
  exists ob cand,
    perm_obs loc !! i = Some ob /\
    (0 <= a < Z.of_nat (length (candidate ob)))%Z /\
    candidate ob !! Z.to_nat a = Some cand.
Proof.
  intros Hstep Hi Ha.
  apply step_inv in Hstep as (act & Hact & Hcpu & _).
  apply act_phase_inv in Hact as (traj1 & Hsel & _ & Henv & Hmove & _).
  rewrite Hcpu in *.
  destruct (Z.eq_dec a stop_action) as [|Hne]; [by left | right].
  apply select_action_nonneg in Hsel.
  destruct (env_action_values W _ _ _ _ _ Henv i a Ha) as [|Hat]; [done|].
  pose proof (Forall_lookup_1 _ _ _ _ Hsel Hat) as Hpos. simpl in Hpos.
  destruct (make_equiv_action_candidates W _ _ _ _ _ _ _ _ Hmove i a)
    as (ob & cand & Hob & Hcand); [simpl; lia | done | done |].
  exists ob, cand. split; [done|].
  unfold py_getitem in Hcand.
  destruct ((0 <=? a)%Z && (a <? Z.of_nat (length (candidate ob)))%Z) eqn:Hin.
  - apply andb_prop in Hin as [_ Hlt]. apply Z.ltb_lt in Hlt.
    split; [lia|]. by apply getitem_Ok.
  - destruct ((- Z.of_nat (length (candidate ob)) <=? a)%Z && (a <? 0)%Z) eqn:Hneg;
      [|done].
    apply andb_prop in Hneg as [_ Hlt]. apply Z.ltb_lt in Hlt. lia.
Qed.

Lemma moves_go_to_candidates_witness :
  exists s0 s1,
    rollout_init (demo_agent still_world "teacher" 2 0) true true = Ok s0 /\
    step 0 s0.1 s0.2 = Ok s1 /\
    cpu_a_t s1.2 !! 0 = Some 0%Z /\
    (0%Z = stop_action \/
     exists ob cand,
       perm_obs s0.2 !! 0 = Some ob /\
       (0 <= 0 < Z.of_nat (length (candidate ob)))%Z /\
       candidate ob !! Z.to_nat 0 = Some cand).
Proof.
  eexists (_, _), (_, _).
  split; [vm_compute; reflexivity|].
  match goal with
  | |- step 0 ?self ?loc = Ok (?self', ?loc') /\ _ =>
      assert (Hstep : step 0 self loc = Ok (self', loc'))
        by (vm_compute; reflexivity);
      assert (Ha : cpu_a_t loc' !! 0 = Some 0%Z) by (vm_compute; reflexivity);
      assert (Hi : 0 < length (perm_idx loc)) by (vm_compute; lia);
      split; [exact Hstep|]; split; [exact Ha|];
      exact (moves_go_to_candidates still_world 0 self self' loc loc' 0 0%Z
               Hstep Hi Ha)
  end.
Defined.

(** ** The mask of the ['argmax'] branch *)

Section Masking.

Context (W : World).

Lemma mapM_result_lookup {A B : Type} (f : A -> result B) (l : list A) :
  forall k, mapM f l = Ok k ->
    forall i y, k !! i = Some y -> exists x, l !! i = Some x /\ f x = Ok y.
Proof.
  induction l as [|x0 rest IH]; intros k; simpl.
  - intros [= <-] i y. by rewrite lookup_nil.
  - intros H. apply bind_Ok in H as (y0 & Hy0 & H).
    apply bind_Ok in H as (tl & Htl & H). injection H as <-.
    intros [|i] y; simpl.
    + intros [= <-]. by exists x0.
    + by apply IH.
Qed.

Lemma broadcast_same {A : Type} (n : nat) (l : list A) :
  length l = n -> broadcast n l = Ok l.
Proof. intros H. unfold broadcast. by rewrite bool_decide_true. Qed.

(** A row of as many logits as the mask is wide, masked from [k] on, has
    its maximum below [k]. *)
Lemma masked_row_argmax (size k : nat) (row : list xlogit) (a : Z) :
  1 <= k <= size -> length row = size ->
  (m ← broadcast (length row) ((fun j => bool_decide (k <= j)) <$> seq 0 size);
   mret (fill_row row m)) ≫= (fun r => j ← argmax r; mret (Z.of_nat j)) = Ok a ->
  (0 <= a < Z.of_nat k)%Z.
Proof.
  intros Hk Hlen H.
  rewrite broadcast_same in H by (by rewrite length_fmap, length_seq).
  cbn [mbind result_bind mret result_ret] in H. rewrite <- Hlen in H.
  destruct (masked_argmax_lt k row) as (j & Hj & Hlt); [lia | lia |].
  rewrite Hj in H. cbn in H. injection H as <-. lia.
Qed.

End Masking.

(** X28. What the mask of the ['argmax'] branch guarantees. If the
    transformer answers the observations of an iteration with one row of
    logits per instance, each as wide as the largest candidate count,
    then the action that ['argmax'] feedback selects for an instance is
    an index of one of its candidates or the index of its stop slot,
    never a padding slot. *)
Theorem argmax_picks_valid_slot (W : World) (t0 : nat) (self : Agent W)
  (loc : Locals W) (sel : Selection W) :
  feedback self = "argmax" ->
  (forall mods n h lang width,
     py_max ((fun ob => length (candidate ob) + 1) <$> perm_obs loc) = Ok width ->
     length (bert_visual W mods n h lang (perm_obs loc)).1.2
       = length (perm_obs loc) /\
     Forall (fun row => length row = width)
            (bert_visual W mods n h lang (perm_obs loc)).1.2) ->
  select_action t0 self loc = Ok sel ->
  length (s_a_t sel) = length (perm_obs loc) /\
  forall i a ob, s_a_t sel !! i = Some a -> perm_obs loc !! i = Some ob ->
    (0 <= a <= Z.of_nat (length (candidate ob)))%Z.
Proof.
  intros Hfb Hshape H. unfold select_action in H. rewrite Hfb in H.
  cbn [String.eqb Ascii.eqb Bool.eqb] in H.
  apply bind_Ok in H as (leng & Hleng & H).
  apply get_input_feat_Ok in Hleng as Hleng'. subst leng.
  set (leng := (fun ob => length (candidate ob) + 1) <$> perm_obs loc) in *.
  apply bind_Ok in H as (mask0 & Hmask0 & H).
  set (lang := cat_state W (h_t loc) (language_features loc)) in *.
  apply bind_Ok in H as ([tc1 mc_outputs] & _ & H).
  apply bind_Ok in H as ([tc2 out] & Hf & H). apply run_Ok in Hf.
  destruct (forward_visual W tc1 (h_t loc) lang (perm_obs loc))
    as (sp & logit & c & Hf' & Hlogit).
  rewrite Hf in Hf'. injection Hf' as _ ->.
  apply bind_Ok in H as ([[h1 logit1] c1] & Hun & H).
  injection Hun as <- <- <-.
  apply bind_Ok in H as (mask & Hmask & H).
  apply bind_Ok in H as (masked & Hfill & H).
  apply bind_Ok in H as (target & _ & H).
  apply bind_Ok in H as (a_t & _ & H).
  apply bind_Ok in H as (logits & _ & H).
  apply bind_Ok in H as (a_t' & Hmax & H). injection H as <-.
  cbn [s_a_t].
  unfold length2mask in Hmask. apply bind_Ok in Hmask as (size & Hsize & Hmask).
  injection Hmask as <-.
  destruct (Hshape (modules (if mc_dropout (net tc1)
                             then enable_dropout (net tc1) else net tc1))
              (length (passes tc1)) (h_t loc) lang size Hsize) as [Hrows Hwidth].
  rewrite <- Hlogit in Hrows, Hwidth. cbn [fst snd] in Hrows, Hwidth.
  unfold masked_fill_ in Hfill.
  rewrite broadcast_same in Hfill by (by unfold leng; rewrite !length_fmap).
  cbn [mbind result_bind] in Hfill.
  pose proof (mapM_result_length _ _ _ Hfill) as Hlen_masked.
  pose proof (mapM_result_length _ _ _ Hmax) as Hlen_a.
  unfold leng in Hlen_masked.
  rewrite length_zip_with, !length_fmap in Hlen_masked.
  split; [lia|].
  intros i a ob Ha Hob.
  destruct (mapM_result_lookup _ _ _ Hmax i a Ha) as (frow & Hfrow & Hargmax).
  destruct (mapM_result_lookup _ _ _ Hfill i frow Hfrow)
    as ([row mrow] & Hzip & Hrow).
  apply lookup_zip_with_Some in Hzip as (row' & mrow' & [= <- <-] & Hr & Hm).
  unfold leng in Hm. rewrite <- list_fmap_compose, list_lookup_fmap, Hob in Hm.
  injection Hm as <-.
  pose proof (Forall_lookup_1 _ _ _ _ Hwidth Hr) as Hw. simpl in Hw.
  assert (Hk : length (candidate ob) + 1 <= size).
  { apply (py_max_ge _ _ Hsize). apply list_elem_of_fmap.
    exists ob. split; [done|]. by eapply list_elem_of_lookup_2. }
  assert (Hbound : (0 <= a < Z.of_nat (length (candidate ob) + 1))%Z).
  { apply (masked_row_argmax size _ row a); [lia | done |].
    cbn [compose] in Hrow. rewrite Hrow. exact Hargmax. }
  lia.
Qed.

Lemma argmax_picks_valid_slot_witness :
  exists self0 loc sel,
    rollout_init (demo_agent pad_world "argmax" 3 0) true true = Ok (self0, loc) /\
    select_action 0 self0 loc = Ok sel /\
    length (s_a_t sel) = length (perm_obs loc).
Proof.
  eexists _, _, _.
  split; [vm_compute; reflexivity|].
  match goal with
  | |- select_action 0 ?self ?loc = Ok ?sel /\ _ =>
      assert (Hsel : select_action 0 self loc = Ok sel)
        by (vm_compute; reflexivity);
      split; [exact Hsel|];
      apply (argmax_picks_valid_slot pad_world 0 self loc sel);
        [reflexivity | | exact Hsel]
  end.
  intros mods n h lang width Hw. vm_compute in Hw. injection Hw as <-.
  split; [reflexivity | repeat constructor].
Defined.

(** ** The instruction lengths of [_sort_batch] *)

Section SortBatchFacts.

Variable padding_idx : Z.

Lemma shape1_width (encodings : list (list Z)) (width : nat) :
  shape1 encodings = Some width ->
  width <> 0 /\ forall row, row ∈ encodings -> length row = width.
Proof.
  unfold shape1. destruct encodings as [|r rest]; [done|].
  case_bool_decide as Hall; [|done].
  destruct (length r =? 0) eqn:Hz; [done|]. intros [= <-].
  apply Nat.eqb_neq in Hz. split; [done|].
  intros row [->|Hin]%elem_of_cons; [done|].
  by apply (proj1 (Forall_forall _ _) Hall).
Qed.

Lemma first_true_suffix (body : list Z) (n : nat) :
  padding_idx ∉ body ->
  first_true ((fun x => bool_decide (x = padding_idx))
                <$> (body ++ replicate n padding_idx))
  = if n =? 0 then None else Some (length body).
Proof.
  induction body as [|x body IH]; intros Hnot.
  - destruct n as [|n]; [done|]. simpl. by rewrite bool_decide_true.
  - apply not_elem_of_cons in Hnot as [Hx Hnot].
    rewrite <- app_comm_cons, fmap_cons. cbn [first_true].
    rewrite bool_decide_false by done. rewrite (IH Hnot).
    by destruct (n =? 0).
Qed.

Lemma mask_row_suffix (body : list Z) (n : nat) :
  padding_idx ∉ body ->
  mask_row padding_idx (body ++ replicate n padding_idx)
  = replicate (length body) 1%Z ++ replicate n 0%Z.
Proof.
  intros Hnot. unfold mask_row. rewrite fmap_app, fmap_replicate.
  rewrite bool_decide_false by (by intros H; apply H).
  f_equal. induction body as [|x body IH]; [done|].
  apply not_elem_of_cons in Hnot as [Hx Hnot].
  rewrite fmap_cons. cbn [length replicate].
  rewrite bool_decide_true by done. by rewrite (IH Hnot).
Qed.

End SortBatchFacts.

(** X29. The lengths that [_sort_batch] returns. Row [k] of the sorted
    tensor is the encoding at index [perm_idx[k]]. When its padding is a
    suffix after at least one token, [seq_lengths[k]] counts the tokens
    before the padding and the mask has exactly that many ones, in
    front. A row that starts with the padding token gets the full width
    as its length, although the mask rejects its first position. *)
Theorem sort_batch_lengths (padding_idx : Z) (sort_desc : list nat -> list nat)
  (encodings tensor mask tt : list (list Z)) (lens perm : list nat) :
  _sort_batch padding_idx sort_desc encodings
    = Some (tensor, mask, tt, lens, perm) ->
  forall k row, tensor !! k = Some row ->
    (exists i, perm !! k = Some i /\ encodings !! i = Some row) /\
    (forall body n,
       row = body ++ replicate n padding_idx ->
       padding_idx ∉ body -> body <> [] ->
       lens !! k = Some (length body) /\
       mask !! k = Some (replicate (length body) 1%Z ++ replicate n 0%Z)) /\
    (forall rest, row = padding_idx :: rest ->
       lens !! k = Some (length row) /\
       exists m, mask !! k = Some (0%Z :: m)).
Proof.
  intros H k row Hrow. unfold _sort_batch in H.
  apply bind_Some in H as (width & Hshape & H).
  apply bind_Some in H as (lens' & Hlens & H).
  apply bind_Some in H as (tensor' & Htensor & H).
  injection H as <- <- <- <- <-.
  apply mapM_Some in Hlens, Htensor.
  destruct (Forall2_lookup_r _ _ _ _ _ Htensor Hrow) as (i & Hperm & Hi).
  destruct (Forall2_lookup_l _ _ _ _ _ Hlens Hperm) as (len & Hlen & Hval).
  rewrite list_lookup_fmap, Hi in Hval. injection Hval as <-.
  destruct (shape1_width _ _ Hshape) as [Hwidth Hrows].
  assert (Hw : length row = width).
  { apply Hrows. by eapply list_elem_of_lookup_2. }
  assert (Hmask : (mask_row padding_idx <$> tensor') !! k
                  = Some (mask_row padding_idx row)).
  { by rewrite list_lookup_fmap, Hrow. }
  split; [by exists i|]. split.
  - intros body n -> Hnot Hbody. split.
    + rewrite Hlen. f_equal. unfold seq_length, np_argmax.
      rewrite first_true_suffix by done.
      rewrite length_app, length_replicate in Hw.
      destruct body as [|x body]; [done|].
      destruct n as [|n]; simpl in *; [f_equal; lia | done].
    + by rewrite Hmask, mask_row_suffix.
  - intros rest ->. split.
    + rewrite Hlen. f_equal. unfold seq_length, np_argmax. simpl.
      rewrite bool_decide_true by done. simpl. by rewrite <- Hw.
    + exists (mask_row padding_idx rest). rewrite Hmask. unfold mask_row.
      simpl. by rewrite bool_decide_false by (by intros H; apply H).
Qed.

Lemma sort_batch_lengths_witness :
  exists tensor mask tt lens perm,
    _sort_batch 0 (fun _ => [1; 2; 0]) [[5; 0; 0]; [5; 6; 7]; [0; 5; 6]]%Z
      = Some (tensor, mask, tt, lens, perm) /\
    lens = [3; 3; 1] /\
    forall k row, tensor !! k = Some row ->
      (exists i, perm !! k = Some i /\
         [[5; 0; 0]; [5; 6; 7]; [0; 5; 6]]%Z !! i = Some row) /\
      (forall body n,
         row = body ++ replicate n 0%Z -> 0%Z ∉ body -> body <> [] ->
         lens !! k = Some (length body) /\
         mask !! k = Some (replicate (length body) 1%Z ++ replicate n 0%Z)) /\
      (forall rest, row = 0%Z :: rest ->
         lens !! k = Some (length row) /\
         exists m, mask !! k = Some (0%Z :: m)).
Proof.
  eexists _, _, _, _, _.
  match goal with
  | |- ?run = Some ?out /\ _ =>
      assert (Hrun : run = Some out) by (vm_compute; reflexivity)
  end.
  split; [exact Hrun|].
  split; [reflexivity|].
  exact (sort_batch_lengths _ _ _ _ _ _ _ _ Hrun).
Defined.

(** ** The tilt loops of [make_equiv_action] *)

Section TiltFacts.

Lemma tune_up_spec (fuel : nat) :
  forall src trg : Z, (trg - src <= Z.of_nat fuel)%Z ->
    tune_up fuel src trg
    = Some (replicate (Z.to_nat (trg - src)) ([0], [0], [1])%Z, Z.max src trg).
Proof.
  induction fuel as [|fuel IH]; intros src trg Hfuel; simpl;
    destruct (Z.ltb_spec src trg) as [Hlt|Hge].
  - lia.
  - replace (Z.to_nat (trg - src)) with 0 by lia.
    by rewrite Z.max_l by lia.
  - rewrite (IH (src + 1)%Z trg) by lia. cbn [mbind option_bind].
    replace (Z.to_nat (trg - src)) with (S (Z.to_nat (trg - (src + 1)))) by lia.
    simpl. do 2 f_equal. lia.
  - replace (Z.to_nat (trg - src)) with 0 by lia.
    by rewrite Z.max_l by lia.
Qed.

Lemma tune_down_spec (fuel : nat) :
  forall src trg : Z, (src - trg <= Z.of_nat fuel)%Z ->
    tune_down fuel src trg
    = Some (replicate (Z.to_nat (src - trg)) ([0], [0], [-1])%Z, Z.min src trg).
Proof.
  induction fuel as [|fuel IH]; intros src trg Hfuel; simpl;
    destruct (Z.gtb_spec src trg) as [Hgt|Hle].
  - lia.
  - replace (Z.to_nat (src - trg)) with 0 by lia.
    by rewrite Z.min_l by lia.
  - rewrite (IH (src - 1)%Z trg) by lia. cbn [mbind option_bind].
    replace (Z.to_nat (src - trg)) with (S (Z.to_nat (src - 1 - trg))) by lia.
    simpl. do 2 f_equal. lia.
  - replace (Z.to_nat (src - trg)) with 0 by lia.
    by rewrite Z.min_l by lia.
Qed.

End TiltFacts.

(** X30. The two tilt loops of [make_equiv_action] end and bring the
    camera to the level of the selected candidate: with [d] the
    candidate's level ([pointId // 12]) minus the current one
    ([viewIndex // 12]), they hand the simulator [d] times the 'up'
    action when [d] is positive, [-d] times the 'down' action when it is
    negative, never both, and nothing when the levels agree. Any fuel of
    at least [|d|] is enough for the model of the loops. *)
Theorem tilt_loops_reach_target_level (fuel : nat) (ob : Obs)
  (select_candidate : Candidate) :
  let src_level := (viewIndex ob `div` 12)%Z in
  let trg_level := (c_pointId select_candidate `div` 12)%Z in
  (Z.abs (trg_level - src_level) <= Z.of_nat fuel)%Z ->
  tilt fuel ob select_candidate
  = Some (replicate (Z.to_nat (trg_level - src_level)) ([0], [0], [1])%Z
          ++ replicate (Z.to_nat (src_level - trg_level)) ([0], [0], [-1])%Z,
          trg_level).
Proof.
  intros src_level trg_level Hfuel. unfold tilt.
  fold src_level trg_level.
  rewrite tune_up_spec by lia. cbn [mbind option_bind].
  rewrite tune_down_spec by lia. cbn [mbind option_bind].
  replace (Z.to_nat (Z.max src_level trg_level - trg_level))
    with (Z.to_nat (src_level - trg_level)) by lia.
  do 2 f_equal. lia.
Qed.

Lemma tilt_loops_reach_target_level_witness :
  tilt 2 (mkObs "i" "s" "v" 30 0 0 [] "" [] 0) (mkCandidate "w" 5 1)
  = Some ([([0], [0], [-1]); ([0], [0], [-1])]%Z, 0%Z).
Proof.
  apply (tilt_loops_reach_target_level 2
           (mkObs "i" "s" "v" 30 0 0 [] "" [] 0) (mkCandidate "w" 5 1)).
  vm_compute. discriminate.
Defined.
